(** * Letter Boxed solver: a shallow embedding of [letterbox.cpp], [word.h]
    and [letterboxedsolver.cpp], and the properties of its puzzle model,
    word catalog and backtracking search.

    Conventions of the embedding.
    - [char] is an 8-bit [ascii]; [std::string] is a [list ascii].
    - [std::unordered_set<char>] is a [gset ascii];
      [std::unordered_map<char, V>] is a [gmap ascii V].
    - [std::unordered_set<Word>] is a [list Word] in iteration order, kept
      free of two words with the same text (the equality of [Word]).
    - A wall pointer [std::vector<char> *] is the index of the wall in
      [letterWalls]: every wall is a fresh allocation, so two pointers are
      equal exactly when the indices are.
    - Machine integers follow the build of the Makefile (g++, LP64):
      [size_t] has 64 bits, [unsigned int] and [int] have 32 bits, and a
      conversion to a narrower type reduces modulo two to the width.
    - A computation ends normally ([Done]), in the [exit(0)] of
      [Word::operator[]] ([Exited]), or in an access the language leaves
      undefined ([Undefined]). *)

From stdpp Require Import gmap strings list fin_maps sorting.
From Stdlib Require Import ZArith NArith Lia Ascii.

#[local] Set Warnings "-clear-no-such-hyp".

Local Open Scope Z_scope.

(** ** Machine integers *)

Module Machine.

Definition size_bits : Z := 64.
Definition int_bits : Z := 32.

(** [size_t] arithmetic. *)
Definition to_size_t (z : Z) : Z := z mod 2 ^ size_bits.

(** [unsigned int] arithmetic and conversion to it. *)
Definition to_uint (z : Z) : Z := z mod 2 ^ int_bits.

(** Conversion to [int]. *)
Definition to_int (z : Z) : Z :=
  let r := z mod 2 ^ int_bits in
  if r <? 2 ^ (int_bits - 1) then r else r - 2 ^ int_bits.

Definition INT_MAX : Z := 2 ^ (int_bits - 1) - 1.
Definition INT_MIN : Z := - 2 ^ (int_bits - 1).

(** [s.size()] of a string or vector. *)
Definition size {A} (l : list A) : Z := Z.of_nat (length l).

End Machine.
Import Machine.

(** ** Outcomes *)

Inductive outcome (A : Type) : Type :=
| Done (a : A)
| Exited
| Undefined.
Arguments Done {A} a.
Arguments Exited {A}.
Arguments Undefined {A}.

Global Instance outcome_ret : MRet outcome := fun A a => Done a.
Global Instance outcome_bind : MBind outcome := fun A B f m =>
  match m with
  | Done a => f a
  | Exited => Exited
  | Undefined => Undefined
  end.
Global Instance outcome_fmap : FMap outcome := fun A B f m =>
  match m with
  | Done a => Done (f a)
  | Exited => Exited
  | Undefined => Undefined
  end.

(** [for (i = start; count iterations; i++) body] with a state. *)
Fixpoint for_loop {S : Type} (count : nat) (i : Z)
    (body : Z -> S -> outcome S) (s : S) : outcome S :=
  match count with
  | O => Done s
  | Datatypes.S count' => s' ← body i s; for_loop count' (Z.succ i) body s'
  end.

(** [for (const auto& x : xs) body] with a state. *)
Fixpoint for_each {A S : Type} (body : S -> A -> outcome S) (xs : list A)
    (s : S) : outcome S :=
  match xs with
  | [] => Done s
  | x :: xs' => s' ← body s x; for_each body xs' s'
  end.

(** ** letterbox.h / letterbox.cpp *)

Definition kNumWalls : Z := 4.
Definition kMinWordLength : Z := 3.

Record LetterBox : Type := mkLetterBox {
  letterWalls : list (list ascii);
  letterToWall : gmap ascii nat;
  letters : gset ascii
}.

(** [letters[idx]] on a [const std::string &]: the character at [idx], the
    terminating zero at [idx == size()], undefined beyond. *)
Definition string_at (s : list ascii) (idx : Z) : outcome ascii :=
  if (0 <=? idx) && (idx <? size s) then
    match s !! Z.to_nat idx with Some c => Done c | None => Undefined end
  else if idx =? size s then Done Ascii.zero
  else Undefined.

(** State of the constructor inside the loop over one wall: the wall under
    construction and the members built so far. *)
Definition wall_body (input : list ascii) (wallNum lettersPerWord : Z)
    (i : Z) (st : list ascii * LetterBox) : outcome (list ascii * LetterBox) :=
  let '(p_wall, this) := st in
  let idx := to_size_t (to_uint (wallNum * lettersPerWord) + i) in
  c ← string_at input idx;
  let p_wall := p_wall ++ [c] in
  let this_letters := {[ c ]} ∪ letters this in
  let this_map :=
    match letterToWall this !! c with
    | None => <[ c := Z.to_nat wallNum ]> (letterToWall this)
    | Some _ => letterToWall this
    end in
  Done (p_wall, mkLetterBox (letterWalls this) this_map this_letters).

Definition walls_body (input : list ascii) (lettersPerWord : Z)
    (wallNum : Z) (this : LetterBox) : outcome LetterBox :=
  '(p_wall, this) ← for_loop (Z.to_nat lettersPerWord) 0
                      (wall_body input wallNum lettersPerWord) ([], this);
  Done (mkLetterBox (letterWalls this ++ [p_wall]) (letterToWall this)
          (letters this)).

(** [LetterBox::LetterBox(const std::string &letters)] *)
Definition LetterBox_new (input : list ascii) : outcome LetterBox :=
  let lettersPerWord := to_uint (size input / kNumWalls) in
  for_loop (Z.to_nat kNumWalls) 0 (walls_body input lettersPerWord)
    (mkLetterBox [] ∅ ∅).

Definition getLetters (lb : LetterBox) : gset ascii := letters lb.

(** [getWall]: dereferences [find(letter)] without a test. *)
Definition getWall (lb : LetterBox) (letter : ascii) : outcome nat :=
  match letterToWall lb !! letter with
  | Some w => Done w
  | None => Undefined
  end.

Definition onSameWall (lb : LetterBox) (letter1 letter2 : ascii) : bool :=
  match letterToWall lb !! letter1 with
  | None => false
  | Some w1 =>
    match letterToWall lb !! letter2 with
    | None => false
    | Some w2 => bool_decide (w1 = w2)
    end
  end.

Definition contains (lb : LetterBox) (letter : ascii) : bool :=
  bool_decide (letter ∈ letters lb).

(** [word[i]] for an index the loop guard keeps below [word.length()]. *)
Definition char_at (word : list ascii) (i : nat) : ascii :=
  nth i word Ascii.zero.

Fixpoint canMakeWord_loop (lb : LetterBox) (word : list ascii)
    (count : nat) (i : nat) : bool :=
  match count with
  | O => true
  | Datatypes.S count' =>
    if negb (contains lb (char_at word i))
       || ((0 <? i)%nat && onSameWall lb (char_at word (i - 1)) (char_at word i))
    then false
    else canMakeWord_loop lb word count' (Datatypes.S i)
  end.

Definition canMakeWord (lb : LetterBox) (word : list ascii) : bool :=
  if size word <? kMinWordLength then false
  else canMakeWord_loop lb word (length word) 0.

Definition numLetters (lb : LetterBox) : Z := Z.of_nat (base.size (letters lb)).

(** ** word.h *)

Record Word : Type := mkWord {
  content : list ascii;
  nUniqueLetters : Z
}.

(** [Word::Word(const std::string &word)] *)
Definition Word_new (word : list ascii) : Word :=
  let letters : gset ascii := foldl (fun letters ch => {[ ch ]} ∪ letters) ∅ word in
  mkWord word (Z.of_nat (base.size letters)).

Definition Word_size (w : Word) : Z := size (content w).

(** [operator==]: by text only. *)
Definition Word_eqb (lhs rhs : Word) : bool :=
  bool_decide (content lhs = content rhs).

(** [char Word::operator[](int index) const]; the comparison of the [int]
    with [content.length()] converts the index to [size_t]. *)
Definition Word_at (w : Word) (index : Z) : outcome ascii :=
  if (index <? 0) || (size (content w) <=? to_size_t index) then Exited
  else string_at (content w) (to_size_t index).

(** ** letterboxedsolver.cpp *)

Abbreviation WordTable := (gmap ascii (list Word)).
Abbreviation Solution := (list (list ascii)).

(** [std::unordered_set<Word>::insert]: nothing happens when an equal word
    is present. *)
Definition unordered_set_insert (w : Word) (s : list Word) : list Word :=
  if existsb (Word_eqb w) s then s else s ++ [w].

(** [buildFilteredWordList]; [dict] holds the lines [getline] reads from
    the dictionary file, [wordsStartingWith[key]] creates an empty set
    for a key that is absent. *)
Definition buildFilteredWordList (dict : list (list ascii)) (letterBox : LetterBox)
    (wordsStartingWith : WordTable) : WordTable :=
  foldl (fun (tbl : WordTable) word =>
           if negb (canMakeWord letterBox word) then tbl
           else
             let key := char_at word 0 in
             <[ key := unordered_set_insert (Word_new word) (default [] (tbl !! key)) ]> tbl)
        wordsStartingWith dict.

(** [v[idx] = x] on a [std::vector]. *)
Definition vector_set {A} (v : list A) (idx : Z) (x : A) : outcome (list A) :=
  if (0 <=? idx) && (idx <? size v) then Done (<[ Z.to_nat idx := x ]> v)
  else Undefined.

(** [for (char ch : word.content) remainingCopy.erase(ch);] *)
Definition erase_all (remaining : gset ascii) (word : list ascii) : gset ascii :=
  foldl (fun remainingCopy ch => remainingCopy ∖ {[ ch ]}) remaining word.

(** [generateSolutionsRec]. The vector [result] and the shared vector
    [solutions] are passed by reference: both are threaded through the
    calls as the state. The lock only makes each [push_back] atomic. *)
Fixpoint generateSolutionsRec (letterBox : LetterBox) (nWords : nat) (last : ascii)
    (remaining : gset ascii) (result : Solution) (solutions : list Solution)
    (wordsStartingWith : WordTable) {struct nWords}
    : outcome (Solution * list Solution) :=
  match nWords with
  | O =>
    if decide (remaining = ∅) then Done (result, solutions ++ [result])
    else Done (result, solutions)
  | Datatypes.S nWords' =>
    match wordsStartingWith !! last with
    | None => Done (result, solutions)
    | Some words =>
      for_each (fun '(result, solutions) word =>
          if (nWords =? 1)%nat && (Z.of_nat (base.size remaining) >? nUniqueLetters word)
          then Done (result, solutions)
          else
            let remainingCopy := erase_all remaining (content word) in
            result ← vector_set result (to_size_t (size result - Z.of_nat nWords))
                       (content word);
            last' ← Word_at word (to_int (to_size_t (Word_size word - 1)));
            generateSolutionsRec letterBox nWords' last' remainingCopy result
              solutions wordsStartingWith)
        words (result, solutions)
    end
  end.

(** The same function with the pruning line removed. *)
Fixpoint generateSolutionsRec_noprune (letterBox : LetterBox) (nWords : nat) (last : ascii)
    (remaining : gset ascii) (result : Solution) (solutions : list Solution)
    (wordsStartingWith : WordTable) {struct nWords}
    : outcome (Solution * list Solution) :=
  match nWords with
  | O =>
    if decide (remaining = ∅) then Done (result, solutions ++ [result])
    else Done (result, solutions)
  | Datatypes.S nWords' =>
    match wordsStartingWith !! last with
    | None => Done (result, solutions)
    | Some words =>
      for_each (fun '(result, solutions) word =>
            let remainingCopy := erase_all remaining (content word) in
            result ← vector_set result (to_size_t (size result - Z.of_nat nWords))
                       (content word);
            last' ← Word_at word (to_int (to_size_t (Word_size word - 1)));
            generateSolutionsRec_noprune letterBox nWords' last' remainingCopy result
              solutions wordsStartingWith)
        words (result, solutions)
    end
  end.

(** The body of one thread of [generateSolutions]: the solutions the
    thread appends to [solutions], in its own order. *)
Definition generateSolutions_thread (letterBox : LetterBox) (nWords : nat)
    (wordsStartingWith : WordTable) (ch : ascii) : outcome (list Solution) :=
  let remaining := getLetters letterBox in
  let result : Solution := replicate nWords [] in
  snd <$> generateSolutionsRec letterBox nWords ch remaining result []
            wordsStartingWith.

Definition generateSolutions_thread_noprune (letterBox : LetterBox) (nWords : nat)
    (wordsStartingWith : WordTable) (ch : ascii) : outcome (list Solution) :=
  let remaining := getLetters letterBox in
  let result : Solution := replicate nWords [] in
  snd <$> generateSolutionsRec_noprune letterBox nWords ch remaining result []
            wordsStartingWith.

(** The order in which the threads take the lock: [sched] names the thread
    that appends next; threads that still hold solutions when [sched] is
    used up append them in the order of their start. *)
Fixpoint interleave {A} (sched : list nat) (pending : list (list A)) : list A :=
  match sched with
  | [] => concat pending
  | t :: sched' =>
    match pending !! t with
    | Some (x :: xs) => x :: interleave sched' (<[ t := xs ]> pending)
    | _ => interleave sched' pending
    end
  end.

(** [generateSolutions]: one thread per letter of the puzzle, all joined at
    the end. A thread that reaches [exit(0)] ends the process. *)
Definition generateSolutions (sched : list nat) (letterBox : LetterBox) (nWords : nat)
    (wordsStartingWith : WordTable) (solutions : list Solution)
    : outcome (list Solution) :=
  appended ← mapM (generateSolutions_thread letterBox nWords wordsStartingWith)
               (elements (getLetters letterBox));
  Done (solutions ++ interleave sched appended).

Definition generateSolutions_noprune (sched : list nat) (letterBox : LetterBox)
    (nWords : nat) (wordsStartingWith : WordTable) (solutions : list Solution)
    : outcome (list Solution) :=
  appended ← mapM (generateSolutions_thread_noprune letterBox nWords wordsStartingWith)
               (elements (getLetters letterBox));
  Done (solutions ++ interleave sched appended).

(** [toupper] in the C locale. *)
Definition toupper (c : ascii) : ascii :=
  let n := nat_of_ascii c in
  if (97 <=? n)%nat && (n <=? 122)%nat then ascii_of_nat (n - 32) else c.

(** [getLettersFromUser]; [lines] are the lines the successive [getline]
    calls read. [None]: the loop has not ended on these lines. *)
Fixpoint getLettersFromUser (lines : list (list ascii)) : option (list ascii) :=
  match lines with
  | [] => None
  | input :: lines' =>
    if negb (size input mod kNumWalls =? 0) then getLettersFromUser lines'
    else Some (map toupper input)
  end.

Definition minWords : Z := 1.
Definition maxWords (letterBox : LetterBox) : Z :=
  to_uint (numLetters letterBox / kMinWordLength).

(** The loop condition of [getNumWordsFromUser]: the [int n] is compared
    with two [unsigned int], so it is converted to [unsigned int]. *)
Definition wordCount_rejected (letterBox : LetterBox) (n : Z) : bool :=
  (to_uint n <? minWords) || (to_uint n >? maxWords letterBox).

(** [getNumWordsFromUser]; [inputs] are the values the successive
    [std::cin >> n] store in [n]. [None]: the loop has not ended. *)
Fixpoint getNumWordsFromUser (letterBox : LetterBox) (inputs : list Z) : option Z :=
  match inputs with
  | [] => None
  | n :: inputs' =>
    if wordCount_rejected letterBox n then getNumWordsFromUser letterBox inputs'
    else Some (to_uint n)
  end.

(** The part of [main] up to the search: the letters, the puzzle, the
    catalog, the word count, then [generateSolutions]. [None]: one of the
    two input loops has not ended. *)
Definition main_search (sched : list nat) (dict letterLines : list (list ascii))
    (numbers : list Z) : option (outcome (list Solution)) :=
  match getLettersFromUser letterLines with
  | None => None
  | Some letters =>
    match LetterBox_new letters with
    | Done letterBox =>
      let wordsStartingWith := buildFilteredWordList dict letterBox ∅ in
      match getNumWordsFromUser letterBox numbers with
      | None => None
      | Some nWords =>
        Some (generateSolutions sched letterBox (Z.to_nat nWords) wordsStartingWith [])
      end
    | Exited => Some Exited
    | Undefined => Some Undefined
    end
  end.

(** ** Fixtures *)

Definition str (s : string) : list ascii := String.list_ascii_of_string s.

Definition ABCDEFGH : list ascii := str "ABCDEFGH".

(** A small dictionary for the puzzle ABCDEFGH. *)
Definition dict8 : list (list ascii) :=
  [str "ACEG"; str "GBDFH"; str "AB"; str "ACA"; str "ACEG"].

(** ** letterboxedsolver.cpp: the dictionary name and the output file *)

Definition DEFAULT_DICT : list ascii := str "dictionary.txt".

(** The files the program may open: the lines of a file that opens as an
    input stream, [None] for a name that does not open. *)
Abbreviation Files := (list ascii -> option (list (list ascii))).

(** [fileExists]: whether [std::ifstream(filename)] opens. *)
Definition fileExists (files : Files) (filename : list ascii) : bool :=
  bool_decide (is_Some (files filename)).

(** [getDictionaryNameFromUser]; [lines] are the lines the successive
    [getline] calls read. [None]: the loop has not ended on these lines. *)
Fixpoint getDictionaryNameFromUser (files : Files)
    (lines : list (list ascii)) : option (list ascii) :=
  match lines with
  | [] => None
  | dictionaryFilename :: lines' =>
    if negb (bool_decide (dictionaryFilename = []))
       && negb (fileExists files dictionaryFilename)
    then getDictionaryNameFromUser files lines'
    else Some (if negb (bool_decide (dictionaryFilename = []))
               then dictionaryFilename else DEFAULT_DICT)
  end.

(** [buildFilteredWordList] from a file name: [getline] reads the lines of
    a file that opens, and nothing from a stream that did not open. *)
Definition buildFilteredWordList_file (files : Files)
    (dictFilename : list ascii) (letterBox : LetterBox) (wordsStartingWith : WordTable)
    : WordTable :=
  buildFilteredWordList (default [] (files dictFilename)) letterBox wordsStartingWith.

(** [writeSolutionsToFile]: the characters written to a stream that
    opened; [std::endl] writes a line feed. *)
Definition writeSolutionsToFile (solutions : list Solution) : list ascii :=
  foldl (fun out solution =>
           foldl (fun out word => out ++ word ++ [" "%char]) out solution
           ++ ["010"%char])
        [] solutions.

(** The dictionary [dict8] with its lines in another order, each once. *)
Definition dict8' : list (list ascii) :=
  [str "ACA"; str "AB"; str "GBDFH"; str "ACEG"].

(** No file opens. *)
Definition no_files : Files := fun _ => None.

(** ** word.h: the order of words *)

(** [operator<] of [std::string]: lexicographic, characters compared as
    unsigned. *)
Fixpoint string_ltb (lhs rhs : list ascii) : bool :=
  match lhs, rhs with
  | _, [] => false
  | [], _ :: _ => true
  | a :: lhs', b :: rhs' =>
    if (nat_of_ascii a <? nat_of_ascii b)%nat then true
    else if (nat_of_ascii b <? nat_of_ascii a)%nat then false
    else string_ltb lhs' rhs'
  end.

(** [operator<] on two words. *)
Definition Word_ltb (lhs rhs : Word) : bool := string_ltb (content lhs) (content rhs).

(** * Vocabulary of the properties *)

(** What one iteration of the inner loop does to the members. *)
Definition add_letter (wallNum : nat) (this : LetterBox) (c : ascii) : LetterBox :=
  mkLetterBox (letterWalls this)
    (match letterToWall this !! c with
     | None => <[ c := wallNum ]> (letterToWall this)
     | Some _ => letterToWall this
     end)
    ({[ c ]} ∪ letters this).

(** What one iteration of the outer loop does, given the letters read. *)
Definition add_wall (this : LetterBox) (wallNum : nat) (wall : list ascii) : LetterBox :=
  let this' := foldl (add_letter wallNum) this wall in
  mkLetterBox (letterWalls this' ++ [wall]) (letterToWall this') (letters this').

(** The letters the loop over wall [wallNum] reads. *)
Definition wall_segment (input : list ascii) (lettersPerWord wallNum : Z) : list ascii :=
  take (Z.to_nat lettersPerWord)
    (drop (Z.to_nat (to_uint (wallNum * lettersPerWord))) input).

Definition lettersPerWord_of (input : list ascii) : Z :=
  to_uint (size input / kNumWalls).

(** The puzzle built from four walls. *)
Definition four_walls (s0 s1 s2 s3 : list ascii) : LetterBox :=
  add_wall (add_wall (add_wall (add_wall (mkLetterBox [] ∅ ∅) 0 s0) 1 s1) 2 s2) 3 s3.

(** The three ways a word fails, as the loop tests them. *)
Definition too_short (word : list ascii) : Prop := size word < kMinWordLength.
Definition has_foreign_letter (lb : LetterBox) (word : list ascii) : Prop :=
  exists c, c ∈ word /\ contains lb c = false.
Definition has_same_wall_pair (lb : LetterBox) (word : list ascii) : Prop :=
  exists i a b, word !! i = Some a /\ word !! Datatypes.S i = Some b
                /\ onSameWall lb a b = true.


(** [2 * 2^31] letters [a], then as many letters [b]: a wall has
    [2 ^ 31] letters, and [2 * 2^31] wraps to 0 as an [unsigned int]. *)
Definition wrapping_input (a b : ascii) (m : nat) : list ascii :=
  replicate (2 * m) a ++ replicate (2 * m) b.


(** The set stored under a letter; empty when the letter is no key. *)
Definition bucket (tbl : WordTable) (c : ascii) : list Word := default [] (tbl !! c).

(** [tbl] is a catalog of the dictionary [dict] for the puzzle [lb]: under
    each letter, once each, the words of [dict] that [canMakeWord] accepts
    and that start with the letter; no key holds an empty set. The order
    inside a set is left open. *)
Definition catalog_of (lb : LetterBox) (dict : list (list ascii)) (tbl : WordTable) : Prop :=
  forall c,
    (tbl !! c <> Some []) /\
    NoDup (content <$> bucket tbl c) /\
    (forall W, W ∈ bucket tbl c <->
       exists word, W = Word_new word /\ word ∈ dict /\
                    canMakeWord lb word = true /\ char_at word 0 = c).

(** The chain letter of a word, as [generateSolutionsRec] reads it. *)
Definition Word_last (w : Word) : outcome ascii :=
  Word_at w (to_int (to_size_t (Word_size w - 1))).

(** The test of the pruning line. *)
Definition pruned (nWords : nat) (remaining : gset ascii) (w : Word) : bool :=
  (nWords =? 1)%nat && (Z.of_nat (base.size remaining) >? nUniqueLetters w).

(** [generateSolutionsRec] and [generateSolutionsRec_noprune] in one:
    [prune] tells whether the pruning line is there. *)
Fixpoint searchRec (prune : bool) (nWords : nat) (last : ascii)
    (remaining : gset ascii) (result : Solution) (solutions : list Solution)
    (tbl : WordTable) {struct nWords} : outcome (Solution * list Solution) :=
  match nWords with
  | O =>
    if decide (remaining = ∅) then Done (result, solutions ++ [result])
    else Done (result, solutions)
  | Datatypes.S nWords' =>
    match tbl !! last with
    | None => Done (result, solutions)
    | Some words =>
      for_each (fun '(result, solutions) word =>
          if prune && pruned nWords remaining word then Done (result, solutions)
          else
            result ← vector_set result (to_size_t (size result - Z.of_nat nWords))
                       (content word);
            last' ← Word_last word;
            searchRec prune nWords' last' (erase_all remaining (content word)) result
              solutions tbl)
        words (result, solutions)
    end
  end.

(** The solutions a call appends, from the words [chosen] before it: no
    vector is shared between the branches. *)
Fixpoint solutions_from (prune : bool) (tbl : WordTable) (nWords : nat) (last : ascii)
    (remaining : gset ascii) (chosen : Solution) {struct nWords}
    : outcome (list Solution) :=
  match nWords with
  | O => Done (if decide (remaining = ∅) then [chosen] else [])
  | Datatypes.S nWords' =>
    match tbl !! last with
    | None => Done []
    | Some words =>
      for_each (fun found word =>
          if prune && pruned nWords remaining word then Done found
          else
            last' ← Word_last word;
            more ← solutions_from prune tbl nWords' last'
                     (erase_all remaining (content word)) (chosen ++ [content word]);
            Done (found ++ more))
        words []
    end
  end.

(** [result] has room for [nWords] more words after the words [chosen]. *)
Definition fits (chosen : Solution) (nWords : nat) (result : Solution) : Prop :=
  length result = (length chosen + nWords)%nat /\
  take (length chosen) result = chosen /\
  Z.of_nat (length result) < 2 ^ 64.

(** The call [imp] appends to [solutions] what [pure] lists, and ends as
    [pure] ends. *)
Definition appends (chosen : Solution) (nWords : nat) (solutions : list Solution)
    (pure : outcome (list Solution)) (imp : outcome (Solution * list Solution)) : Prop :=
  match pure with
  | Done found => exists result', fits chosen nWords result' /\
                                  imp = Done (result', solutions ++ found)
  | Exited => imp = Exited
  | Undefined => imp = Undefined
  end.

(** Consecutive words chain: the last letter of a word is the first letter
    of the next. *)
Definition chained (sol : Solution) : Prop :=
  forall i a b, sol !! i = Some a -> sol !! Datatypes.S i = Some b ->
    exists c, last a = Some c /\ head b = Some c.

(** The letters of the words are the letters of the puzzle. *)
Definition covers (lb : LetterBox) (sol : Solution) : Prop :=
  (list_to_set (concat sol) : gset ascii) = getLetters lb.

(** The state of a branch: the words chosen chain, the next word has to
    start with the last letter of the last one, and [remaining] holds
    the letters of the puzzle that no chosen word has. *)
Definition branch_state (lb : LetterBox) (start : ascii) (remaining : gset ascii) (chosen : Solution)
    : Prop :=
  chained chosen /\
  (forall a, last chosen = Some a -> last a = Some start) /\
  remaining = getLetters lb ∖ list_to_set (concat chosen) /\
  (list_to_set (concat chosen) : gset ascii) ⊆ getLetters lb.

Definition good_solution (lb : LetterBox) (n : nat) (sol : Solution) : Prop :=
  length sol = n /\ chained sol /\ covers lb sol.

(** The members of a puzzle agree with each other. *)
Definition consistent (lb : LetterBox) : Prop :=
  (forall c, c ∈ getLetters lb <-> exists wall, wall ∈ letterWalls lb /\ c ∈ wall) /\
  (forall c, is_Some (letterToWall lb !! c) <-> c ∈ getLetters lb) /\
  (forall c w, letterToWall lb !! c = Some w ->
     exists wall, letterWalls lb !! w = Some wall /\ c ∈ wall /\
       forall w' wall', (w' < w)%nat -> letterWalls lb !! w' = Some wall' -> c ∉ wall').
(** A solution for the puzzle [lb] over the dictionary [dict], as the
    game asks for it: [nWords] lines of the dictionary that [canMakeWord]
    accepts, chained, with all the letters of the puzzle. *)
Definition valid_solution (lb : LetterBox) (dict : list (list ascii)) (nWords : nat)
    (sol : Solution) : Prop :=
  length sol = nWords /\
  Forall (fun word => word ∈ dict /\ canMakeWord lb word = true) sol /\
  chained sol /\ covers lb sol.

(** The words chain, from a word that starts with [start]. *)
Fixpoint chain_from (start : ascii) (sol : Solution) : Prop :=
  match sol with
  | [] => True
  | word :: sol' =>
    head word = Some start /\ exists c, last word = Some c /\ chain_from c sol'
  end.

(** The line [writeSolutionsToFile] writes for one solution. *)
Definition written_line (solution : Solution) : list ascii :=
  concat (map (fun word => word ++ [" "%char]) solution) ++ ["010"%char].

(** A word without a space and without a line feed. *)
Definition plain (word : list ascii) : Prop :=
  Forall (fun c => c <> " "%char /\ c <> "010"%char) word.

(** A lower-case letter of the C locale. *)
Definition islower (c : ascii) : bool :=
  (97 <=? nat_of_ascii c)%nat && (nat_of_ascii c <=? 122)%nat.

(** Two runs end the same way, and with the same solutions up to their
    order. *)
Definition same_solutions (run1 run2 : outcome (list Solution)) : Prop :=
  match run1, run2 with
  | Done sols1, Done sols2 =>
    sols1 ≡ₚ sols2 /\ (forall sol, sol ∈ sols1 <-> sol ∈ sols2)
  | Exited, Exited => True
  | Undefined, Undefined => True
  | _, _ => False
  end.

(** A branch of [generateSolutionsRec]: from the call with budget [nWords],
    letter [start], uncovered set [remaining] and the words [chosen], the
    recursion arrives at budget 0 with the words [final] and the uncovered
    set [uncovered]. *)
Inductive reaches (tbl : WordTable) :
    nat -> ascii -> gset ascii -> Solution -> Solution -> gset ascii -> Prop :=
| reaches_end start remaining chosen :
    reaches tbl 0 start remaining chosen chosen remaining
| reaches_word nWords start remaining chosen words W c final uncovered :
    tbl !! start = Some words ->
    W ∈ words ->
    pruned (Datatypes.S nWords) remaining W = false ->
    Word_last W = Done c ->
    reaches tbl nWords c (erase_all remaining (content W)) (chosen ++ [content W])
      final uncovered ->
    reaches tbl (Datatypes.S nWords) start remaining chosen final uncovered.

(** [n] copies of [block], then [tail]. *)
Definition cycle_word (block : list ascii) (n : nat) (tail : list ascii) : list ascii :=
  concat (replicate n block) ++ tail.

(** Every two adjacent characters satisfy [P]. *)
Definition adjacent (P : ascii -> ascii -> Prop) (l : list ascii) : Prop :=
  forall i a b, l !! i = Some a -> l !! Datatypes.S i = Some b -> P a b.

Fixpoint adjacentb (p : ascii -> ascii -> bool) (l : list ascii) : bool :=
  match l with
  | a :: (b :: _) as l' => p a b && adjacentb p l'
  | _ => true
  end.

Definition lb8 : LetterBox :=
  four_walls (str "AB") (str "CD") (str "EF") (str "GH").

(** [2 ^ 30] times AC, then A: [2 ^ 31 + 1] characters. *)
Definition word_beyond_int : list ascii :=
  cycle_word (str "AC") (Z.to_nat (2 ^ 30)) (str "A").

(** [2 ^ 29] times ACEGBDFH, then C: [2 ^ 32 + 1] characters. *)
Definition word_beyond_uint : list ascii :=
  cycle_word (str "ACEGBDFH") (Z.to_nat (2 ^ 29)) (str "C").

(** * Properties *)

(** ** Machine integers *)

Lemma to_uint_small z : 0 <= z < 2 ^ 32 -> to_uint z = z.
Proof. intros H. unfold to_uint, int_bits. apply Z.mod_small. lia. Qed.

Lemma to_uint_le z : 0 <= z -> 0 <= to_uint z <= z.
Proof.
  intros H. unfold to_uint, int_bits. split.
  - apply Z.mod_pos_bound. lia.
  - apply Z.mod_le; lia.
Qed.

Lemma to_uint_range z : 0 <= to_uint z < 2 ^ 32.
Proof. unfold to_uint, int_bits. apply Z.mod_pos_bound. lia. Qed.

Lemma to_size_t_small z : 0 <= z < 2 ^ 64 -> to_size_t z = z.
Proof. intros H. unfold to_size_t, size_bits. apply Z.mod_small. lia. Qed.

Lemma to_int_small z : 0 <= z < 2 ^ 31 -> to_int z = z.
Proof.
  intros H. unfold to_int, int_bits.
  rewrite Z.mod_small by lia.
  change (32 - 1) with 31. destruct (Z.ltb_spec z (2 ^ 31)); lia.
Qed.

Lemma size_nonneg {A} (l : list A) : 0 <= size l.
Proof. unfold size. lia. Qed.

(** ** The constructor of [LetterBox] *)

Section Constructor.

Lemma string_at_lookup (s : list ascii) (i : nat) c :
  s !! i = Some c -> string_at s (Z.of_nat i) = Done c.
Proof.
  intros H. unfold string_at.
  pose proof (lookup_lt_Some _ _ _ H) as Hlt.
  unfold size.
  destruct (Z.leb_spec 0 (Z.of_nat i)); [|lia].
  destruct (Z.ltb_spec (Z.of_nat i) (Z.of_nat (length s))); [|lia].
  simpl. rewrite Nat2Z.id, H. reflexivity.
Qed.

Lemma wall_body_step input wallNum lettersPerWord i (n : nat) c p_wall this :
  input !! n = Some c ->
  to_uint (wallNum * lettersPerWord) + i = Z.of_nat n ->
  Z.of_nat n < 2 ^ 64 ->
  wall_body input wallNum lettersPerWord i (p_wall, this)
  = Done (p_wall ++ [c], add_letter (Z.to_nat wallNum) this c).
Proof.
  intros Hc Hn Hlt. unfold wall_body. rewrite Hn.
  rewrite to_size_t_small by lia.
  rewrite (string_at_lookup _ _ _ Hc). reflexivity.
Qed.

Lemma wall_loop input wallNum lettersPerWord off :
  off = to_uint (wallNum * lettersPerWord) ->
  forall count (i : nat) p_wall this,
    (Z.to_nat off + i + count <= length input)%nat ->
    Z.of_nat (i + count) <= 2 ^ 32 ->
    for_loop count (Z.of_nat i) (wall_body input wallNum lettersPerWord) (p_wall, this)
    = Done (p_wall ++ take count (drop (Z.to_nat off + i) input),
            foldl (add_letter (Z.to_nat wallNum)) this
              (take count (drop (Z.to_nat off + i) input))).
Proof.
  intros Hoff. induction count as [|count IH]; intros i p_wall this Hlen Hsz.
  - simpl. rewrite take_0, app_nil_r. reflexivity.
  - assert (Hoff0 : 0 <= off < 2 ^ 32) by (rewrite Hoff; apply to_uint_range).
    destruct (lookup_lt_is_Some_2 input (Z.to_nat off + i)) as [c Hc]; [lia|].
    cbn [for_loop].
    rewrite (wall_body_step _ _ _ _ _ _ _ _ Hc) by lia.
    cbn [mbind outcome_bind].
    rewrite <- Nat2Z.inj_succ.
    rewrite IH by lia.
    rewrite (drop_S _ _ _ Hc).
    replace (Z.to_nat off + Datatypes.S i)%nat
      with (Datatypes.S (Z.to_nat off + i)) by lia.
    cbn [take foldl]. rewrite <- app_assoc. reflexivity.
Qed.

Lemma walls_body_segment input lettersPerWord wallNum this :
  0 <= lettersPerWord < 2 ^ 32 ->
  to_uint (wallNum * lettersPerWord) + lettersPerWord <= size input ->
  walls_body input lettersPerWord wallNum this
  = Done (add_wall this (Z.to_nat wallNum) (wall_segment input lettersPerWord wallNum)).
Proof.
  intros HL Hfit. unfold walls_body, size in *.
  pose proof (to_uint_range (wallNum * lettersPerWord)) as Hr.
  pose proof (wall_loop input wallNum lettersPerWord _ eq_refl
                (Z.to_nat lettersPerWord) 0 [] this) as Hloop.
  change (Z.of_nat 0) with 0 in Hloop. rewrite Hloop by lia.
  cbn [mbind outcome_bind]. unfold add_wall, wall_segment.
  rewrite Nat.add_0_r. reflexivity.
Qed.

Lemma lettersPerWord_fits input wallNum :
  0 <= wallNum < 4 ->
  to_uint (wallNum * lettersPerWord_of input) + lettersPerWord_of input <= size input.
Proof.
  intros Hw. unfold lettersPerWord_of, kNumWalls.
  pose proof (size_nonneg input) as H0.
  assert (Hq : 0 <= size input / 4) by (apply Z.div_pos; lia).
  pose proof (to_uint_le _ Hq) as [HL0 HL].
  assert (Hm : 4 * (size input / 4) <= size input)
    by (apply Z.mul_div_le; lia).
  set (L := to_uint (size input / 4)) in *.
  assert (0 <= wallNum * L) by nia.
  pose proof (to_uint_le (wallNum * L) ltac:(lia)) as [_ Hle].
  nia.
Qed.

(** The constructor never reads outside the string: it is the four
    [add_wall] steps over the four segments. *)
Lemma LetterBox_new_walls input :
  let L := lettersPerWord_of input in
  LetterBox_new input
  = Done (add_wall (add_wall (add_wall (add_wall (mkLetterBox [] ∅ ∅)
            0 (wall_segment input L 0)) 1 (wall_segment input L 1))
            2 (wall_segment input L 2)) 3 (wall_segment input L 3)).
Proof.
  intros L. unfold LetterBox_new. fold (lettersPerWord_of input). fold L.
  assert (HL : 0 <= L < 2 ^ 32) by apply to_uint_range.
  change (Z.to_nat kNumWalls) with 4%nat.
  cbn [for_loop].
  rewrite (walls_body_segment input L 0) by (first [apply lettersPerWord_fits; lia | exact HL]).
  cbn [mbind outcome_bind].
  rewrite (walls_body_segment input L (Z.succ 0)) by (first [apply lettersPerWord_fits; lia | exact HL]).
  cbn [mbind outcome_bind].
  rewrite (walls_body_segment input L (Z.succ (Z.succ 0)))
    by (first [apply lettersPerWord_fits; lia | exact HL]).
  cbn [mbind outcome_bind].
  rewrite (walls_body_segment input L (Z.succ (Z.succ (Z.succ 0))))
    by (first [apply lettersPerWord_fits; lia | exact HL]).
  cbn [mbind outcome_bind]. reflexivity.
Qed.

End Constructor.

Section Walls.

Lemma add_letters_walls w seg this :
  letterWalls (foldl (add_letter w) this seg) = letterWalls this.
Proof. revert this. induction seg as [|c seg IH]; intros this; [done|]. simpl. by rewrite IH. Qed.

Lemma add_letters_letters w seg this :
  letters (foldl (add_letter w) this seg) = letters this ∪ list_to_set seg.
Proof.
  revert this. induction seg as [|c seg IH]; intros this; simpl.
  - set_solver.
  - rewrite IH. simpl. set_solver.
Qed.

Lemma add_letters_map w seg this c :
  letterToWall (foldl (add_letter w) this seg) !! c
  = match letterToWall this !! c with
    | Some x => Some x
    | None => if decide (c ∈ seg) then Some w else None
    end.
Proof.
  revert this. induction seg as [|d seg IH]; intros this; simpl.
  - destruct (letterToWall this !! c); [done|].
    destruct (decide (c ∈ [])) as [Hin|]; [|done]. by apply elem_of_nil in Hin.
  - rewrite IH. simpl.
    destruct (letterToWall this !! d) eqn:Hd.
    + destruct (letterToWall this !! c) eqn:Hc; [done|].
      assert (c ≠ d) by congruence.
      destruct (decide (c ∈ seg)), (decide (c ∈ d :: seg)); set_solver.
    + destruct (decide (c = d)) as [->|Hne].
      * rewrite lookup_insert_eq, Hd.
        destruct (decide (d ∈ d :: seg)); set_solver.
      * rewrite lookup_insert_ne by done.
        destruct (letterToWall this !! c); [done|].
        destruct (decide (c ∈ seg)), (decide (c ∈ d :: seg)); set_solver.
Qed.

Lemma add_wall_walls this w seg :
  letterWalls (add_wall this w seg) = letterWalls this ++ [seg].
Proof. unfold add_wall. simpl. by rewrite add_letters_walls. Qed.

Lemma add_wall_letters this w seg :
  letters (add_wall this w seg) = letters this ∪ list_to_set seg.
Proof. unfold add_wall. simpl. by rewrite add_letters_letters. Qed.

Lemma add_wall_map this w seg c :
  letterToWall (add_wall this w seg) !! c
  = match letterToWall this !! c with
    | Some x => Some x
    | None => if decide (c ∈ seg) then Some w else None
    end.
Proof. unfold add_wall. simpl. by rewrite add_letters_map. Qed.

Lemma four_walls_walls s0 s1 s2 s3 :
  letterWalls (four_walls s0 s1 s2 s3) = [s0; s1; s2; s3].
Proof. unfold four_walls. by rewrite !add_wall_walls. Qed.

Lemma four_walls_letters s0 s1 s2 s3 :
  letters (four_walls s0 s1 s2 s3) = list_to_set (s0 ++ s1 ++ s2 ++ s3).
Proof.
  unfold four_walls. rewrite !add_wall_letters. simpl.
  rewrite !list_to_set_app_L. set_solver.
Qed.

Lemma four_walls_map s0 s1 s2 s3 c :
  letterToWall (four_walls s0 s1 s2 s3) !! c
  = if decide (c ∈ s0) then Some 0%nat
    else if decide (c ∈ s1) then Some 1%nat
    else if decide (c ∈ s2) then Some 2%nat
    else if decide (c ∈ s3) then Some 3%nat
    else None.
Proof.
  unfold four_walls. rewrite !add_wall_map. simpl. rewrite lookup_empty.
  repeat (destruct (decide _); [done|]). done.
Qed.

Lemma LetterBox_new_four_walls input :
  let L := lettersPerWord_of input in
  LetterBox_new input
  = Done (four_walls (wall_segment input L 0) (wall_segment input L 1)
            (wall_segment input L 2) (wall_segment input L 3)).
Proof. apply LetterBox_new_walls. Qed.

(** A string of pairwise distinct characters has at most 256 of them. *)
Lemma NoDup_ascii_length (l : list ascii) : NoDup l -> (length l <= 256)%nat.
Proof.
  intros Hnd.
  assert (Hnd' : NoDup (nat_of_ascii <$> l)).
  { apply NoDup_fmap_2; [|done].
    intros a b Hab. rewrite <- (ascii_nat_embedding a), <- (ascii_nat_embedding b).
    by rewrite Hab. }
  assert (Hsub : (nat_of_ascii <$> l) ⊆ seq 0 256).
  { intros n Hn. apply list_elem_of_fmap in Hn as (c & -> & _).
    apply elem_of_seq. pose proof (nat_ascii_bounded c). lia. }
  pose proof (submseteq_length _ _ (NoDup_submseteq _ _ Hnd' Hsub)) as Hlen.
  rewrite length_fmap, length_seq in Hlen. done.
Qed.

Lemma four_chunks (input : list ascii) (k : nat) :
  length input = (4 * k)%nat ->
  input = take k input ++ take k (drop k input)
          ++ take k (drop (2 * k) input) ++ take k (drop (3 * k) input).
Proof.
  intros Hlen.
  rewrite <- (take_drop k input) at 1. f_equal.
  rewrite <- (take_drop k (drop k input)) at 1. f_equal.
  rewrite drop_drop.
  rewrite <- (take_drop k (drop (k + k) input)) at 1.
  replace (k + k)%nat with (2 * k)%nat by lia. f_equal.
  rewrite drop_drop. replace (2 * k + k)%nat with (3 * k)%nat by lia.
  symmetry. apply take_ge. rewrite length_drop. lia.
Qed.

Lemma wall_segment_chunk input (k : nat) (w : Z) :
  0 <= w -> w * Z.of_nat k < 2 ^ 32 ->
  wall_segment input (Z.of_nat k) w = take k (drop (Z.to_nat w * k) input).
Proof.
  intros Hw Hsmall. unfold wall_segment.
  rewrite to_uint_small by lia.
  rewrite Nat2Z.id. f_equal. f_equal. lia.
Qed.

Lemma lettersPerWord_of_small (input : list ascii) :
  Z.of_nat (length input / 4) < 2 ^ 32 ->
  lettersPerWord_of input = Z.of_nat (length input / 4).
Proof.
  intros Hk. unfold lettersPerWord_of, size, kNumWalls.
  change 4 with (Z.of_nat 4). rewrite <- Nat2Z.inj_div.
  apply to_uint_small. lia.
Qed.

Lemma chunks_take (l : list ascii) (k : nat) :
  take k l ++ take k (drop k l) ++ take k (drop (2 * k) l) ++ take k (drop (3 * k) l)
  = take (4 * k) l.
Proof.
  rewrite !app_assoc, !take_take_drop.
  replace (k + k)%nat with (2 * k)%nat by lia. rewrite take_take_drop.
  replace (2 * k + k)%nat with (3 * k)%nat by lia. rewrite take_take_drop.
  f_equal. lia.
Qed.

End Walls.

(** ** [canMakeWord] *)

Section CanMakeWord.

Variable lb : LetterBox.

Lemma char_at_lookup (word : list ascii) i c :
  word !! i = Some c -> char_at word i = c.
Proof. intros H. unfold char_at. by rewrite nth_lookup, H. Qed.

Lemma canMakeWord_loop_true word count i :
  (i + count = length word)%nat ->
  canMakeWord_loop lb word count i = true <->
  (forall j c, (i <= j)%nat -> word !! j = Some c ->
     contains lb c = true /\
     (forall p, word !! (j - 1)%nat = Some p -> (0 < j)%nat -> onSameWall lb p c = false)).
Proof.
  revert i. induction count as [|count IH]; intros i Hlen; simpl.
  - split; [|done]. intros _ j c Hj Hc.
    apply lookup_lt_Some in Hc. lia.
  - destruct (lookup_lt_is_Some_2 word i) as [c Hc]; [lia|].
    rewrite (char_at_lookup _ _ _ Hc).
    destruct (contains lb c) eqn:Hcont; simpl.
    + destruct (Nat.ltb_spec 0 i) as [Hpos|Hzero]; simpl.
      * destruct (lookup_lt_is_Some_2 word (i - 1)) as [p Hp]; [lia|].
        rewrite (char_at_lookup _ _ _ Hp).
        destruct (onSameWall lb p c) eqn:Hsame.
        -- split; [done|]. intros H.
           destruct (H i c (Nat.le_refl _) Hc) as [_ H']. by rewrite (H' p Hp Hpos) in Hsame.
        -- rewrite IH by lia. split.
           ++ intros H j d Hj Hd. destruct (decide (j = i)) as [->|Hne].
              ** assert (d = c) by congruence. subst d. split; [done|].
                 intros q Hq _. congruence.
              ** apply H; [lia|done].
           ++ intros H j d Hj Hd. apply H; [lia|done].
      * rewrite IH by lia. split.
        -- intros H j d Hj Hd. destruct (decide (j = i)) as [->|Hne].
           ++ assert (d = c) by congruence. subst d. split; [done|]. intros; lia.
           ++ apply H; [lia|done].
        -- intros H j d Hj Hd. apply H; [lia|done].
    + split; [done|]. intros H.
      destruct (H i c (Nat.le_refl _) Hc) as [H' _]. congruence.
Qed.

(** [canMakeWord] accepts exactly the words with none of the three
    defects. *)
Lemma canMakeWord_true_iff word :
  canMakeWord lb word = true <->
  ~ too_short word /\ ~ has_foreign_letter lb word /\ ~ has_same_wall_pair lb word.
Proof.
  unfold canMakeWord, too_short, has_foreign_letter, has_same_wall_pair.
  destruct (Z.ltb_spec (size word) kMinWordLength) as [Hs|Hs].
  - split; [done|]. intros [H _]. lia.
  - rewrite canMakeWord_loop_true by lia. split.
    + intros H. split; [lia|]. split.
      * intros (c & Hin & Hc). apply list_elem_of_lookup in Hin as [j Hj].
        destruct (H j c ltac:(lia) Hj) as [H' _]. congruence.
      * intros (i & a & b & Ha & Hb & Hab).
        destruct (H (Datatypes.S i) b ltac:(lia) Hb) as [_ H'].
        rewrite (H' a) in Hab; [done| |lia].
        by replace (Datatypes.S i - 1)%nat with i by lia.
    + intros (_ & Hf & Hp) j c _ Hc. split.
      * destruct (contains lb c) eqn:Hcont; [done|].
        exfalso. apply Hf. exists c. split; [|done].
        apply list_elem_of_lookup. eauto.
      * intros p Hpl Hpos. destruct (onSameWall lb p c) eqn:Hsame; [|done].
        exfalso. apply Hp. exists (j - 1)%nat, p, c.
        replace (Datatypes.S (j - 1)) with j by lia. done.
Qed.

End CanMakeWord.

(** The four cases of [canMakeWord], with the letter set and the walls as
    [contains] and [onSameWall] answer for them, on every record. *)
Lemma canMakeWord_tests (lb : LetterBox) (word : list ascii) :
  (too_short word -> canMakeWord lb word = false) /\
  (has_foreign_letter lb word -> canMakeWord lb word = false) /\
  (has_same_wall_pair lb word -> canMakeWord lb word = false) /\
  (~ too_short word /\ ~ has_foreign_letter lb word /\ ~ has_same_wall_pair lb word ->
   canMakeWord lb word = true).
Proof.
  pose proof (canMakeWord_true_iff lb word) as H.
  destruct (canMakeWord lb word).
  - destruct (proj1 H eq_refl) as (H1 & H2 & H3).
    repeat split; try done; intros; tauto.
  - repeat split; try done. intros Hs. by apply H.
Qed.

(** The constructor ends normally on every string. *)
Lemma LetterBox_new_total (input : list ascii) :
  exists lb, LetterBox_new input = Done lb.
Proof. eexists. apply LetterBox_new_four_walls. Qed.

(** With [k] the quarter of the length, rounded down, and small enough for
    [3 * k] to fit an [unsigned int], the walls are the first four chunks
    of [k] letters. *)
Lemma LetterBox_new_quarters (input : list ascii) :
  let k := (length input / 4)%nat in
  Z.of_nat k <= 1431655765 ->
  LetterBox_new input
  = Done (four_walls (take k input) (take k (drop k input))
            (take k (drop (2 * k) input)) (take k (drop (3 * k) input))).
Proof.
  intros k Hk.
  pose proof (lettersPerWord_of_small input ltac:(fold k; lia)) as HL. fold k in HL.
  rewrite LetterBox_new_four_walls. rewrite HL.
  rewrite !wall_segment_chunk by lia.
  change (Z.to_nat 0) with 0%nat. change (Z.to_nat 1) with 1%nat.
  change (Z.to_nat 2) with 2%nat. change (Z.to_nat 3) with 3%nat.
  rewrite Nat.mul_0_l.
  rewrite drop_0, Nat.mul_1_l. reflexivity.
Qed.

Lemma LetterBox_new_chunks (input : list ascii) (k : nat) :
  length input = (4 * k)%nat -> Z.of_nat k <= 1431655765 ->
  LetterBox_new input
  = Done (four_walls (take k input) (take k (drop k input))
            (take k (drop (2 * k) input)) (take k (drop (3 * k) input))).
Proof.
  intros Hlen Hk.
  assert (Hq : (length input / 4)%nat = k).
  { rewrite Hlen, Nat.mul_comm. apply Nat.div_mul. lia. }
  rewrite <- Hq in *. apply LetterBox_new_quarters. done.
Qed.

(** C4. For a string of [4 * k] pairwise distinct letters, [k >= 1], the
    constructed puzzle has 4 walls of [k] letters each; every letter of the
    string is mapped to one wall, lies on that wall and on no other; the
    letters of the puzzle are those of the string, and every letter of a
    wall is one of them. *)
Theorem LetterBox_walls_partition (input : list ascii) (k : nat) :
  NoDup input -> length input = (4 * k)%nat -> (1 <= k)%nat ->
  exists lb,
    LetterBox_new input = Done lb /\
    length (letterWalls lb) = 4%nat /\
    Forall (fun wall => length wall = k) (letterWalls lb) /\
    (forall c, c ∈ input ->
       exists w wall,
         letterToWall lb !! c = Some w /\ letterWalls lb !! w = Some wall /\ c ∈ wall /\
         forall w' wall', letterWalls lb !! w' = Some wall' -> c ∈ wall' -> w' = w) /\
    (forall c, c ∈ getLetters lb <-> c ∈ input) /\
    (forall wall c, wall ∈ letterWalls lb -> c ∈ wall -> c ∈ input).
Proof.
  intros Hnd Hlen Hk.
  pose proof (NoDup_ascii_length _ Hnd) as H256.
  eexists. split; [apply (LetterBox_new_chunks input k Hlen); lia|].
  pose proof (four_chunks input k Hlen) as Hchunks.
  set (s0 := take k input) in *. set (s1 := take k (drop k input)) in *.
  set (s2 := take k (drop (2 * k) input)) in *.
  set (s3 := take k (drop (3 * k) input)) in *.
  assert (Hl0 : length s0 = k) by (unfold s0; rewrite length_take; lia).
  assert (Hl1 : length s1 = k) by (unfold s1; rewrite length_take, length_drop; lia).
  assert (Hl2 : length s2 = k) by (unfold s2; rewrite length_take, length_drop; lia).
  assert (Hl3 : length s3 = k) by (unfold s3; rewrite length_take, length_drop; lia).
  assert (Hin : forall c, c ∈ input <-> c ∈ s0 \/ c ∈ s1 \/ c ∈ s2 \/ c ∈ s3).
  { intros c. rewrite Hchunks at 1. rewrite !elem_of_app. tauto. }
  rewrite Hchunks in Hnd.
  apply NoDup_app in Hnd as (_ & H01 & Hnd).
  apply NoDup_app in Hnd as (_ & H12 & Hnd).
  apply NoDup_app in Hnd as (_ & H23 & _).
  rewrite four_walls_walls. unfold getLetters. rewrite four_walls_letters.
  split; [done|]. split; [by repeat constructor|]. split; [|split].
  - intros c Hc. rewrite four_walls_map.
    assert (Hcases : forall w' wall', [s0; s1; s2; s3] !! w' = Some wall' ->
              (w' = 0%nat /\ wall' = s0) \/ (w' = 1%nat /\ wall' = s1) \/
              (w' = 2%nat /\ wall' = s2) \/ (w' = 3%nat /\ wall' = s3)).
    { intros [|[|[|[|w']]]] wall' Hw; simpl in Hw; naive_solver. }
    apply Hin in Hc.
    destruct (decide (c ∈ s0)) as [Hc0|Hc0].
    { exists 0%nat, s0. repeat split; try done.
      intros w' wall' Hw Hcw. apply Hcases in Hw. set_solver. }
    destruct (decide (c ∈ s1)) as [Hc1|Hc1].
    { exists 1%nat, s1. repeat split; try done.
      intros w' wall' Hw Hcw. apply Hcases in Hw. set_solver. }
    destruct (decide (c ∈ s2)) as [Hc2|Hc2].
    { exists 2%nat, s2. repeat split; try done.
      intros w' wall' Hw Hcw. apply Hcases in Hw. set_solver. }
    destruct (decide (c ∈ s3)) as [Hc3|Hc3]; [|tauto].
    exists 3%nat, s3. repeat split; try done.
    intros w' wall' Hw Hcw. apply Hcases in Hw. set_solver.
  - intros c. rewrite elem_of_list_to_set, <- Hchunks. done.
  - intros wall c Hw Hc. apply Hin. set_solver.
Qed.


(** C10 (within the range of [unsigned int]). The constructor ends normally
    on every string. When a quarter of the length is at most 1431655765, the
    letters of the puzzle are those of the first [4 * (length / 4)]
    characters: the characters after them are left out, and a string
    shorter than 4 gives the empty puzzle. *)
Theorem LetterBox_new_letters (input : list ascii) :
  exists lb,
    LetterBox_new input = Done lb /\
    (size input / 4 <= 1431655765 ->
     getLetters lb = list_to_set (take (4 * (length input / 4)) input)) /\
    (size input < 4 -> getLetters lb = ∅).
Proof.
  assert (Hq : size input / 4 = Z.of_nat (length input / 4)).
  { unfold size. change 4 with (Z.of_nat 4). by rewrite <- Nat2Z.inj_div. }
  destruct (Z.le_gt_cases (size input / 4) 1431655765) as [Hb|Hb].
  - eexists. split; [apply LetterBox_new_quarters; lia|].
    unfold getLetters. rewrite four_walls_letters, chunks_take.
    split; [done|]. intros Hlt.
    assert (Hz : (length input / 4 = 0)%nat).
    { apply Nat.div_small. unfold size in Hlt. lia. }
    rewrite Hz. simpl. done.
  - destruct (LetterBox_new_total input) as [lb Hlb]. exists lb.
    split; [done|]. split; [intros; lia|]. intros Hlt.
    rewrite Z.div_small in Hb by (pose proof (size_nonneg input); lia). lia.
Qed.

(** ** Strings longer than an [unsigned int] can count *)

Section Wrap.

Variables (a b : ascii) (m : nat).
Hypothesis Hm : Z.of_nat m = 2 ^ 31.
Hypothesis Hab : a <> b.

Lemma wrapping_lettersPerWord : lettersPerWord_of (wrapping_input a b m) = Z.of_nat m.
Proof.
  unfold lettersPerWord_of, size, wrapping_input, kNumWalls.
  rewrite length_app, !length_replicate.
  replace (Z.of_nat (2 * m + 2 * m)) with (Z.of_nat m * 4) by lia.
  rewrite Z.div_mul by lia. apply to_uint_small. lia.
Qed.

Lemma wrapping_segment_letters (j : nat) x :
  (j + m <= 2 * m)%nat -> x ∈ take m (drop j (wrapping_input a b m)) -> x = a.
Proof.
  intros Hj Hx. apply elem_of_take in Hx as (i & Hi & Hlt).
  rewrite lookup_drop in Hi. unfold wrapping_input in Hi.
  rewrite lookup_app_l in Hi by (rewrite length_replicate; lia).
  apply lookup_replicate in Hi. tauto.
Qed.

Lemma wrapping_offset (w : Z) :
  0 <= w < 4 ->
  exists j : nat, Z.to_nat (to_uint (w * Z.of_nat m)) = j /\ (j + m <= 2 * m)%nat.
Proof.
  intros Hw. rewrite Hm.
  assert (Hcases : w = 0 \/ w = 1 \/ w = 2 \/ w = 3) by lia.
  destruct Hcases as [-> | [-> | [-> | ->]]].
  - exists 0%nat. split; [reflexivity|lia].
  - exists m. split; [|lia]. assert (to_uint (1 * 2 ^ 31) = Z.of_nat m) as ->
      by (rewrite Hm; reflexivity). lia.
  - exists 0%nat. split; [reflexivity|lia].
  - exists m. split; [|lia]. assert (to_uint (3 * 2 ^ 31) = Z.of_nat m) as ->
      by (rewrite Hm; reflexivity). lia.
Qed.

Lemma wrapping_wall_letters (w : Z) x :
  0 <= w < 4 -> x ∈ wall_segment (wrapping_input a b m) (Z.of_nat m) w -> x = a.
Proof.
  intros Hw. unfold wall_segment.
  destruct (wrapping_offset w Hw) as (j & -> & Hj).
  rewrite Nat2Z.id. by apply wrapping_segment_letters.
Qed.

Lemma wrapping_puzzle :
  exists lb,
    LetterBox_new (wrapping_input a b m) = Done lb /\
    b ∈ take (4 * (length (wrapping_input a b m) / 4)) (wrapping_input a b m) /\
    b ∉ getLetters lb.
Proof.
  eexists. split; [apply LetterBox_new_four_walls|]. split.
  - assert (Hlen : length (wrapping_input a b m) = (m * 4)%nat).
    { unfold wrapping_input. rewrite length_app, !length_replicate. lia. }
    rewrite Hlen, Nat.div_mul by lia.
    rewrite take_ge by lia.
    unfold wrapping_input. apply elem_of_app. right.
    apply elem_of_replicate. split; [done|lia].
  - unfold getLetters. rewrite four_walls_letters, wrapping_lettersPerWord.
    rewrite elem_of_list_to_set, !elem_of_app.
    intros [H | [H | [H | H]]]; apply wrapping_wall_letters in H; (lia || congruence).
Qed.

End Wrap.


(** C10, counterexample. On the string of [2 ^ 32] letters A followed by
    [2 ^ 32] letters B, the letter B is among the first
    [4 * (length / 4)] characters and is not a letter of the puzzle. *)
Lemma LetterBox_new_wraps :
  exists lb,
    LetterBox_new (wrapping_input "A" "B" (Z.to_nat (2 ^ 31))) = Done lb /\
    "B"%char ∈ take (4 * (length (wrapping_input "A" "B" (Z.to_nat (2 ^ 31))) / 4))
                 (wrapping_input "A" "B" (Z.to_nat (2 ^ 31))) /\
    "B"%char ∉ getLetters lb.
Proof.
  apply wrapping_puzzle.
  - apply Z2Nat.id. lia.
  - discriminate.
Qed.

(** ** The catalog *)

Section Catalog.

Variable lb : LetterBox.

Lemma existsb_Word_eqb (W : Word) (s : list Word) :
  existsb (Word_eqb W) s = true <-> exists V, V ∈ s /\ content V = content W.
Proof.
  rewrite existsb_exists. split.
  - intros (V & Hin & Heq). exists V. split; [by apply list_elem_of_In|].
    unfold Word_eqb in Heq. by apply bool_decide_eq_true in Heq.
  - intros (V & Hin & Heq). exists V. split; [by apply list_elem_of_In|].
    unfold Word_eqb. by apply bool_decide_eq_true.
Qed.

Lemma unordered_set_insert_elem (W V : Word) (s : list Word) :
  V ∈ unordered_set_insert W s <->
  V ∈ s \/ (V = W /\ ~ exists U, U ∈ s /\ content U = content W).
Proof.
  unfold unordered_set_insert.
  destruct (existsb (Word_eqb W) s) eqn:He.
  - apply existsb_Word_eqb in He. split; [tauto|]. intros [H|[_ H]]; [done|tauto].
  - assert (Hn : ~ exists U, U ∈ s /\ content U = content W).
    { intros H. apply existsb_Word_eqb in H. congruence. }
    rewrite elem_of_app, list_elem_of_singleton. tauto.
Qed.

Lemma unordered_set_insert_NoDup (W : Word) (s : list Word) :
  NoDup (content <$> s) -> NoDup (content <$> unordered_set_insert W s).
Proof.
  intros Hnd. unfold unordered_set_insert.
  destruct (existsb (Word_eqb W) s) eqn:He; [done|].
  rewrite fmap_app. apply NoDup_app. split; [done|]. split.
  - intros x Hx Hx'. simpl in Hx'. apply list_elem_of_singleton in Hx'. subst x.
    apply list_elem_of_fmap in Hx as (U & HU & Hin).
    assert (existsb (Word_eqb W) s = true); [|congruence].
    apply existsb_Word_eqb. exists U. by split.
  - simpl. apply NoDup_singleton.
Qed.

Lemma unordered_set_insert_nonempty (W : Word) (s : list Word) :
  unordered_set_insert W s <> [].
Proof.
  unfold unordered_set_insert. destruct (existsb (Word_eqb W) s) eqn:He.
  - destruct s; [done|done].
  - by destruct s.
Qed.

Lemma bucket_insert_eq (tbl : WordTable) k v : bucket (<[ k := v ]> tbl) k = v.
Proof. unfold bucket. by rewrite lookup_insert_eq. Qed.

Lemma bucket_insert_ne (tbl : WordTable) k c v :
  c <> k -> bucket (<[ k := v ]> tbl) c = bucket tbl c.
Proof. intros H. unfold bucket. by rewrite lookup_insert_ne. Qed.

Lemma buildFilteredWordList_snoc dict word tbl :
  buildFilteredWordList (dict ++ [word]) lb tbl
  = let tbl' := buildFilteredWordList dict lb tbl in
    if negb (canMakeWord lb word) then tbl'
    else <[ char_at word 0 :=
              unordered_set_insert (Word_new word) (bucket tbl' (char_at word 0)) ]> tbl'.
Proof. unfold buildFilteredWordList. by rewrite foldl_snoc. Qed.

(** [buildFilteredWordList], started on the empty table, builds a
    catalog of the dictionary. *)
Lemma buildFilteredWordList_catalog dict :
  catalog_of lb dict (buildFilteredWordList dict lb ∅).
Proof.
  induction dict as [|word dict IH] using rev_ind.
  - intros c. unfold bucket. simpl. rewrite lookup_empty. simpl.
    split; [done|]. split; [constructor|].
    intros W. split.
    + intros H. by apply elem_of_nil in H.
    + intros (w & _ & H & _). by apply elem_of_nil in H.
  - rewrite buildFilteredWordList_snoc. cbv zeta.
    set (tbl := buildFilteredWordList dict lb ∅) in *.
    destruct (canMakeWord lb word) eqn:Hcan; simpl.
    + intros c. destruct (IH c) as (Hne & Hnd & Hel).
      destruct (decide (c = char_at word 0)) as [->|Hc].
      * rewrite !bucket_insert_eq, lookup_insert_eq.
        split; [intros [= H]; by apply unordered_set_insert_nonempty in H|].
        split; [by apply unordered_set_insert_NoDup|].
        intros W. rewrite unordered_set_insert_elem, Hel. split.
        -- intros [(w & -> & Hw & Hcw & Hk) | [-> _]].
           ++ exists w. rewrite elem_of_app. tauto.
           ++ exists word. rewrite elem_of_app, list_elem_of_singleton. tauto.
        -- intros (w & -> & Hw & Hcw & Hk).
           apply elem_of_app in Hw as [Hw | Hw].
           ++ left. by exists w.
           ++ apply list_elem_of_singleton in Hw. subst w.
              destruct (existsb (Word_eqb (Word_new word))
                          (bucket tbl (char_at word 0))) eqn:He.
              ** apply existsb_Word_eqb in He as (U & HU & Hcont).
                 left. apply Hel in HU as (u & -> & Hu). simpl in Hcont. subst u.
                 by exists word.
              ** right. split; [done|]. intros H. apply existsb_Word_eqb in H. congruence.
      * rewrite !bucket_insert_ne, lookup_insert_ne by done.
        split; [done|]. split; [done|].
        intros W. rewrite Hel. split.
        -- intros (w & -> & Hw & Hcw & Hk). exists w. rewrite elem_of_app. tauto.
        -- intros (w & -> & Hw & Hcw & Hk). exists w.
           apply elem_of_app in Hw as [Hw | Hw]; [done|].
           apply list_elem_of_singleton in Hw. subst w. done.
    + intros c. destruct (IH c) as (Hne & Hnd & Hel).
      split; [done|]. split; [done|].
      intros W. rewrite Hel. split.
      * intros (w & -> & Hw & Hcw & Hk). exists w. rewrite elem_of_app. tauto.
      * intros (w & -> & Hw & Hcw & Hk). exists w.
        apply elem_of_app in Hw as [Hw | Hw]; [done|].
        apply list_elem_of_singleton in Hw. subst w. congruence.
Qed.

End Catalog.

Lemma canMakeWord_length (lb : LetterBox) (word : list ascii) :
  canMakeWord lb word = true -> (3 <= length word)%nat.
Proof.
  unfold canMakeWord, size, kMinWordLength.
  destruct (Z.ltb_spec (Z.of_nat (length word)) 3); [done|lia].
Qed.

(** C6. In the table [buildFilteredWordList] builds from the empty table,
    a word of the dictionary is stored under its first letter exactly when
    [canMakeWord] accepts it; a word stored under a letter is a word of the
    dictionary, built by the constructor of [Word], and starts with that
    letter; no set holds two words with the same text. *)
Theorem buildFilteredWordList_spec (dict : list (list ascii)) (lb : LetterBox) :
  let tbl := buildFilteredWordList dict lb ∅ in
  (forall word, word ∈ dict ->
     (exists W, W ∈ bucket tbl (char_at word 0) /\ content W = word)
     <-> canMakeWord lb word = true) /\
  (forall c W, W ∈ bucket tbl c ->
     content W ∈ dict /\ head (content W) = Some c /\ W = Word_new (content W)) /\
  (forall c, NoDup (content <$> bucket tbl c)).
Proof.
  intros tbl. pose proof (buildFilteredWordList_catalog lb dict) as Hcat. fold tbl in Hcat.
  split; [|split].
  - intros word Hin. destruct (Hcat (char_at word 0)) as (_ & _ & Hel). split.
    + intros (W & HW & <-). apply Hel in HW as (w & -> & _ & Hcan & _). done.
    + intros Hcan. exists (Word_new word). split; [|done].
      apply Hel. by exists word.
  - intros c W HW. destruct (Hcat c) as (_ & _ & Hel).
    apply Hel in HW as (w & -> & Hw & Hcan & Hc). simpl.
    split; [done|]. split; [|done].
    apply canMakeWord_length in Hcan. unfold char_at in Hc.
    destruct w; simpl in *; [lia|congruence].
  - intros c. by destruct (Hcat c) as (_ & Hnd & _).
Qed.

(** ** The search as a function of the words chosen so far *)

Section Search.

Variable tbl : WordTable.

Lemma for_each_ext {A S} (f g : S -> A -> outcome S) xs s :
  (forall s x, f s x = g s x) -> for_each f xs s = for_each g xs s.
Proof.
  intros Hfg. revert s. induction xs as [|x xs IH]; intros s; simpl; [done|].
  rewrite Hfg. destruct (g s x); simpl; [apply IH|done|done].
Qed.

Lemma generateSolutionsRec_searchRec lb nWords last remaining result solutions :
  generateSolutionsRec lb nWords last remaining result solutions tbl
  = searchRec true nWords last remaining result solutions tbl.
Proof.
  revert last remaining result solutions.
  induction nWords as [|n IH]; intros last remaining result solutions; [done|].
  cbn [generateSolutionsRec searchRec]. destruct (tbl !! last); [|done].
  apply for_each_ext. intros [r s] w. unfold pruned. cbn [andb].
  destruct (_ && _); [done|].
  destruct (vector_set _ _ _); cbn [mbind outcome_bind]; [|done|done].
  unfold Word_last. destruct (Word_at _ _); cbn [mbind outcome_bind]; [|done|done].
  apply IH.
Qed.

Lemma generateSolutionsRec_noprune_searchRec lb nWords last remaining result solutions :
  generateSolutionsRec_noprune lb nWords last remaining result solutions tbl
  = searchRec false nWords last remaining result solutions tbl.
Proof.
  revert last remaining result solutions.
  induction nWords as [|n IH]; intros last remaining result solutions; [done|].
  cbn [generateSolutionsRec_noprune searchRec]. destruct (tbl !! last); [|done].
  apply for_each_ext. intros [r s] w. cbn [andb].
  destruct (vector_set _ _ _); cbn [mbind outcome_bind]; [|done|done].
  unfold Word_last. destruct (Word_at _ _); cbn [mbind outcome_bind]; [|done|done].
  apply IH.
Qed.

Lemma fits_vector_set chosen n result word :
  fits chosen (Datatypes.S n) result ->
  vector_set result (to_size_t (size result - Z.of_nat (Datatypes.S n))) word
  = Done (<[ length chosen := word ]> result)
  /\ fits (chosen ++ [word]) n (<[ length chosen := word ]> result).
Proof.
  intros (Hlen & Htake & Hsz). unfold vector_set, size.
  assert (Hidx : Z.of_nat (length result) - Z.of_nat (Datatypes.S n)
                 = Z.of_nat (length chosen)) by lia.
  rewrite Hidx, to_size_t_small by lia.
  destruct (Z.leb_spec 0 (Z.of_nat (length chosen))); [|lia].
  destruct (Z.ltb_spec (Z.of_nat (length chosen)) (Z.of_nat (length result))); [|lia].
  simpl. rewrite Nat2Z.id. split; [done|].
  unfold fits. rewrite length_insert, length_app. simpl.
  split; [lia|]. split; [|done].
  replace (length chosen + 1)%nat with (Datatypes.S (length chosen)) by lia.
  rewrite (take_S_r _ _ word) by (apply list_lookup_insert_eq; lia).
  rewrite take_insert_ge by lia. by rewrite Htake.
Qed.

Lemma fits_shorter chosen word n result :
  fits (chosen ++ [word]) n result -> fits chosen (Datatypes.S n) result.
Proof.
  intros (Hlen & Htake & Hsz). rewrite length_app in *. simpl in *.
  split; [lia|]. split; [|done].
  transitivity (take (length chosen) (take (length chosen + 1) result)).
  - rewrite take_take. f_equal. lia.
  - rewrite Htake. apply take_app_length.
Qed.

(** The shared vector [result] does not leak between the branches: a call
    appends exactly what [solutions_from] lists. *)
Lemma searchRec_appends prune nWords :
  forall last remaining chosen result solutions,
    fits chosen nWords result ->
    appends chosen nWords solutions
      (solutions_from prune tbl nWords last remaining chosen)
      (searchRec prune nWords last remaining result solutions tbl).
Proof.
  induction nWords as [|n IH]; intros last remaining chosen result solutions Hfits.
  - assert (result = chosen) as ->.
    { destruct Hfits as (Hlen & Htake & _). rewrite <- Htake. symmetry.
      apply take_ge. lia. }
    cbn [solutions_from searchRec appends].
    destruct (decide (remaining = ∅)); exists chosen;
      (split; [done|]); [done|by rewrite app_nil_r].
  - cbn [solutions_from searchRec].
    destruct (tbl !! last) as [words|]; cycle 1.
    { exists result. split; [done|]. by rewrite app_nil_r. }
    rewrite <- (app_nil_r solutions) at 2.
    generalize (@nil Solution) as found. revert result Hfits.
    induction words as [|w words IHw]; intros result Hfits found.
    + cbn [for_each appends]. by exists result.
    + cbn [for_each].
      destruct (prune && pruned (Datatypes.S n) remaining w).
      { cbn [mbind outcome_bind]. by apply IHw. }
      destruct (fits_vector_set chosen n result (content w) Hfits) as [-> Hfits1].
      cbn [mbind outcome_bind].
      destruct (Word_last w) as [last'| |]; cbn [mbind outcome_bind]; [|done|done].
      pose proof (IH last' (erase_all remaining (content w)) (chosen ++ [content w])
                    _ (solutions ++ found) Hfits1) as Hrec.
      destruct (solutions_from prune tbl n last' _ _) as [more| |];
        cbn [appends] in Hrec; cbn [mbind outcome_bind].
      * destruct Hrec as (result2 & Hfits2 & ->). cbn [mbind outcome_bind].
        rewrite <- app_assoc. apply IHw. by eapply fits_shorter.
      * by rewrite Hrec.
      * by rewrite Hrec.
Qed.

End Search.

(** ** Words *)

Lemma erase_all_difference (remaining : gset ascii) (word : list ascii) :
  erase_all remaining word = remaining ∖ list_to_set word.
Proof.
  unfold erase_all. revert remaining.
  induction word as [|c word IH]; intros remaining; simpl.
  - set_solver.
  - rewrite IH. set_solver.
Qed.

Lemma Word_new_unique (word : list ascii) :
  nUniqueLetters (Word_new word)
  = Z.of_nat (base.size (list_to_set word : gset ascii)).
Proof.
  unfold Word_new. simpl. f_equal. f_equal.
  assert (H : forall (acc : gset ascii),
             foldl (fun letters ch => {[ ch ]} ∪ letters) acc word
             = acc ∪ list_to_set word).
  { induction word as [|c word IH]; intros acc; simpl.
    - set_solver.
    - rewrite IH. set_solver. }
  rewrite H. set_solver.
Qed.

(** A word of 1 to [2 ^ 31] characters: the index [size - 1] fits an
    [int], and the chain letter is the last character. *)
Lemma Word_last_short (w : Word) :
  0 < Word_size w <= 2 ^ 31 ->
  exists c, last (content w) = Some c /\ Word_last w = Done c.
Proof.
  intros Hsz. unfold Word_last, Word_at, Word_size, size in *.
  rewrite (to_size_t_small (_ - 1)) by lia.
  rewrite to_int_small by lia.
  rewrite to_size_t_small by lia.
  destruct (Z.ltb_spec (Z.of_nat (length (content w)) - 1) 0); [lia|].
  destruct (Z.leb_spec (Z.of_nat (length (content w)))
              (Z.of_nat (length (content w)) - 1)); [lia|].
  simpl.
  destruct (lookup_lt_is_Some_2 (content w) (length (content w) - 1)) as [c Hc]; [lia|].
  exists c. split.
  - rewrite last_lookup. rewrite <- Hc. f_equal. lia.
  - replace (Z.of_nat (length (content w)) - 1)
      with (Z.of_nat (length (content w) - 1)) by lia.
    by apply string_at_lookup.
Qed.

(** A word of more than [2 ^ 31] and at most [2 ^ 32] characters: the
    index [size - 1] is negative as an [int], and the access exits. *)
Lemma Word_last_exits (w : Word) :
  2 ^ 31 < Word_size w <= 2 ^ 32 -> Word_last w = Exited.
Proof.
  intros Hsz. unfold Word_last, Word_at, Word_size, size in *.
  rewrite (to_size_t_small (_ - 1)) by lia.
  assert (Hneg : to_int (Z.of_nat (length (content w)) - 1) < 0).
  { unfold to_int, int_bits. rewrite Z.mod_small by lia.
    change (32 - 1) with 31.
    destruct (Z.ltb_spec (Z.of_nat (length (content w)) - 1) (2 ^ 31)); lia. }
  destruct (Z.ltb_spec (to_int (Z.of_nat (length (content w)) - 1)) 0); [done|lia].
Qed.

(** A word of [2 ^ 32 + 1] characters: the index [size - 1] is 0 as an
    [int], and the chain letter is the first character. *)
Lemma Word_last_wraps (w : Word) c :
  Word_size w = 2 ^ 32 + 1 -> head (content w) = Some c -> Word_last w = Done c.
Proof.
  intros Hsz Hc. unfold Word_last. rewrite Hsz.
  replace (to_int (to_size_t (2 ^ 32 + 1 - 1))) with 0 by reflexivity.
  unfold Word_at, Word_size in *. rewrite Hsz.
  replace (to_size_t 0) with (Z.of_nat 0) by reflexivity.
  simpl. apply string_at_lookup. by rewrite <- head_lookup.
Qed.

(** ** Solutions *)

Lemma chained_snoc (chosen : Solution) (word : list ascii) :
  chained chosen ->
  (forall a, last chosen = Some a -> exists c, last a = Some c /\ head word = Some c) ->
  chained (chosen ++ [word]).
Proof.
  intros Hch Hlink i a b Ha Hb.
  destruct (decide (Datatypes.S i < length chosen)%nat) as [Hlt|Hge].
  - rewrite lookup_app_l in Ha by lia. rewrite lookup_app_l in Hb by lia.
    by eapply Hch.
  - assert (Hi : Datatypes.S i = length chosen).
    { apply lookup_lt_Some in Hb. rewrite length_app in Hb. simpl in Hb. lia. }
    rewrite lookup_app_l in Ha by lia.
    rewrite Hi, lookup_app_r in Hb by lia. rewrite Nat.sub_diag in Hb.
    injection Hb as <-. apply Hlink.
    rewrite last_lookup. rewrite <- Ha. f_equal. lia.
Qed.

Section Sound.

Variables (lb : LetterBox) (dict : list (list ascii)) (tbl : WordTable).
Hypothesis Hcat : catalog_of lb dict tbl.
Hypothesis Hshort : forall word, word ∈ dict -> size word <= 2 ^ 31.

Lemma lookup_bucket start words W :
  tbl !! start = Some words -> W ∈ words -> W ∈ bucket tbl start.
Proof. intros Hl HW. unfold bucket. by rewrite Hl. Qed.

(** What the search uses of a word of the catalog. *)
Lemma catalog_word start W :
  W ∈ bucket tbl start ->
  W = Word_new (content W) /\
  head (content W) = Some start /\
  (list_to_set (content W) : gset ascii) ⊆ getLetters lb /\
  exists c, last (content W) = Some c /\ Word_last W = Done c.
Proof.
  intros HW. destruct (Hcat start) as (_ & _ & Hel).
  apply Hel in HW as (w & -> & Hw & Hcan & Hc). simpl.
  pose proof (canMakeWord_length _ _ Hcan) as Hlen.
  split; [done|]. split; [|split].
  - unfold char_at in Hc. destruct w; simpl in *; [lia|congruence].
  - apply canMakeWord_true_iff in Hcan as (_ & Hforeign & _).
    intros c Hin. apply elem_of_list_to_set in Hin.
    destruct (contains lb c) eqn:Hcont.
    + unfold contains in Hcont. by apply bool_decide_eq_true in Hcont.
    + exfalso. apply Hforeign. by exists c.
  - apply (Word_last_short (Word_new w)). unfold Word_size. simpl.
    pose proof (Hshort w Hw). unfold size in *. lia.
Qed.

Lemma branch_state_snoc start remaining chosen W :
  branch_state lb start remaining chosen ->
  W ∈ bucket tbl start ->
  forall c, last (content W) = Some c ->
  branch_state lb c (erase_all remaining (content W)) (chosen ++ [content W]).
Proof.
  intros (Hch & Hlast & Hrem & Hsub) HW c Hc.
  destruct (catalog_word _ _ HW) as (_ & Hhead & Hletters & _).
  split; [|split; [|split]].
  - apply chained_snoc; [done|]. intros a Ha. exists start. split; [by apply Hlast|done].
  - intros a Ha. rewrite last_snoc in Ha. by injection Ha as <-.
  - rewrite erase_all_difference, Hrem, concat_app, list_to_set_app_L. simpl.
    rewrite app_nil_r. set_solver.
  - rewrite concat_app, list_to_set_app_L. simpl. rewrite app_nil_r. set_solver.
Qed.

(** On a catalog of short words no call exits, and every solution listed
    has the length asked for, chains, and covers the puzzle. *)
Lemma solutions_from_sound prune nWords :
  forall start remaining chosen,
    branch_state lb start remaining chosen ->
    exists found,
      solutions_from prune tbl nWords start remaining chosen = Done found /\
      Forall (good_solution lb (length chosen + nWords)) found.
Proof.
  induction nWords as [|n IH]; intros start remaining chosen Hst.
  - cbn [solutions_from]. eexists. split; [done|].
    destruct (decide (remaining = ∅)) as [Hempty|]; [|constructor].
    constructor; [|constructor].
    destruct Hst as (Hch & _ & Hrem & Hsub).
    split; [lia|]. split; [done|]. unfold covers.
    apply set_eq. intros x. split; [apply Hsub|]. intros Hx.
    destruct (decide (x ∈ (list_to_set (concat chosen) : gset ascii))) as [|Hn]; [done|].
    assert (Hr : x ∈ remaining) by (rewrite Hrem; by apply elem_of_difference).
    rewrite Hempty in Hr. by apply not_elem_of_empty in Hr.
  - cbn [solutions_from].
    destruct (tbl !! start) as [words|] eqn:Hlook; [|by exists []].
    assert (Hin : forall W, W ∈ words -> W ∈ bucket tbl start)
      by (intros W; by apply lookup_bucket).
    assert (Hnil : Forall (good_solution lb (length chosen + Datatypes.S n)) [])
      by constructor.
    revert Hnil. generalize (@nil Solution) as found.
    clear Hlook. induction words as [|W words IHw]; intros found Hfound.
    + by exists found.
    + cbn [for_each].
      destruct (prune && pruned (Datatypes.S n) remaining W).
      { cbn [mbind outcome_bind]. apply IHw; [|done].
        intros V HV. apply Hin. by right. }
      assert (HW : W ∈ bucket tbl start) by (apply Hin; by left).
      destruct (catalog_word _ _ HW) as (_ & _ & _ & c & Hc & ->).
      cbn [mbind outcome_bind].
      destruct (IH c _ _ (branch_state_snoc _ _ _ _ Hst HW c Hc)) as (more & -> & Hmore).
      cbn [mbind outcome_bind]. apply IHw.
      * intros V HV. apply Hin. by right.
      * apply Forall_app. split; [done|].
        rewrite length_app in Hmore. simpl in Hmore.
        by replace (length chosen + Datatypes.S n)%nat
          with (length chosen + 1 + n)%nat by lia.
Qed.

(** The pruning line changes nothing: a word it skips has fewer distinct
    letters than there are letters left to cover. *)
Lemma solutions_from_prune nWords :
  forall start remaining chosen,
    solutions_from true tbl nWords start remaining chosen
    = solutions_from false tbl nWords start remaining chosen.
Proof.
  induction nWords as [|n IH]; intros start remaining chosen; [done|].
  cbn [solutions_from].
  destruct (tbl !! start) as [words|] eqn:Hlook; [|done].
  assert (Hin : forall W, W ∈ words -> W ∈ bucket tbl start)
    by (intros W; by apply lookup_bucket).
  clear Hlook. generalize (@nil Solution) as found.
  induction words as [|W words IHw]; intros found; [done|].
  cbn [for_each andb].
  assert (HW : W ∈ bucket tbl start) by (apply Hin; by left).
  assert (Hrest : forall V, V ∈ words -> V ∈ bucket tbl start)
    by (intros V HV; apply Hin; by right).
  destruct (pruned (Datatypes.S n) remaining W) eqn:Hp.
  - destruct (catalog_word _ _ HW) as (HWnew & _ & _ & c & Hc & ->).
    cbn [mbind outcome_bind].
    unfold pruned in Hp. apply andb_true_iff in Hp as [Hone Hsize].
    apply Nat.eqb_eq in Hone. injection Hone as ->.
    cbn [solutions_from].
    rewrite decide_False; cycle 1.
    { rewrite erase_all_difference. rewrite HWnew, Word_new_unique in Hsize.
      simpl in Hsize. intros Hempty.
      assert (Hsub : remaining ⊆ list_to_set (content W)) by set_solver.
      apply subseteq_size in Hsub. lia. }
    cbn [mbind outcome_bind]. rewrite app_nil_r. by apply IHw.
  - destruct (Word_last W); cbn [mbind outcome_bind]; [|done|done].
    rewrite IH.
    destruct (solutions_from false tbl n _ _ _); cbn [mbind outcome_bind]; [|done|done].
    by apply IHw.
Qed.

End Sound.

(** ** Threads *)

Lemma interleave_Permutation {A} (sched : list nat) (pending : list (list A)) :
  interleave sched pending ≡ₚ concat pending.
Proof.
  revert pending. induction sched as [|t sched IH]; intros pending; [done|].
  cbn [interleave].
  destruct (pending !! t) as [[|x xs]|] eqn:Ht; [apply IH| |apply IH].
  rewrite IH.
  pose proof (lookup_lt_Some _ _ _ Ht) as Hlt.
  rewrite insert_take_drop by done.
  rewrite <- (take_drop_middle pending t (x :: xs) Ht) at 3.
  rewrite !concat_app. simpl.
  by rewrite Permutation_middle.
Qed.

Lemma mapM_outcome_Done {A B} (f : A -> outcome B) (P : B -> Prop) (l : list A) :
  (forall x, x ∈ l -> exists y, f x = Done y /\ P y) ->
  exists ys, mapM f l = Done ys /\ Forall P ys.
Proof.
  induction l as [|x l IH]; intros Hf.
  - exists []. by split.
  - destruct (Hf x ltac:(by left)) as (y & Hy & HP).
    destruct IH as (ys & Hys & HPs); [intros z Hz; apply Hf; by right|].
    exists (y :: ys). simpl. rewrite Hy. cbn [mbind outcome_bind].
    rewrite Hys. cbn [mbind outcome_bind]. split; [done|by constructor].
Qed.

Lemma mapM_outcome_Exited {A B} (f : A -> outcome B) (l : list A) x :
  x ∈ l -> f x = Exited -> (forall z, z ∈ l -> f z <> Undefined) ->
  mapM f l = Exited.
Proof.
  induction l as [|z l IH]; intros Hin Hx Hdef.
  - by apply elem_of_nil in Hin.
  - simpl. destruct (f z) eqn:Hz; cbn [mbind outcome_bind]; [|done|].
    + apply elem_of_cons in Hin as [->|Hin]; [congruence|].
      rewrite IH; [done|done|done|]. intros u Hu. apply Hdef. by right.
    + exfalso. by apply (Hdef z); [left|].
Qed.

Lemma mapM_outcome_ext {A B} (f g : A -> outcome B) (l : list A) :
  (forall x, x ∈ l -> f x = g x) -> mapM f l = mapM g l.
Proof.
  induction l as [|x l IH]; intros Hfg; [done|].
  simpl. rewrite (Hfg x) by (by left). rewrite IH; [done|].
  intros z Hz. apply Hfg. by right.
Qed.

Section Threads.

Variables (lb : LetterBox) (tbl : WordTable) (nWords : nat).
Hypothesis HnWords : Z.of_nat nWords < 2 ^ 32.

Lemma fits_start : fits [] nWords (replicate nWords []).
Proof.
  unfold fits. rewrite length_replicate. simpl. split; [done|]. split; [done|lia].
Qed.

(** What a thread appends is what [solutions_from] lists from no word
    chosen. *)
Lemma generateSolutions_thread_solutions ch :
  generateSolutions_thread lb nWords tbl ch
  = solutions_from true tbl nWords ch (getLetters lb) [].
Proof.
  unfold generateSolutions_thread. rewrite generateSolutionsRec_searchRec.
  pose proof (searchRec_appends tbl true nWords ch (getLetters lb) []
                (replicate nWords []) [] fits_start) as H.
  destruct (solutions_from true tbl nWords ch (getLetters lb) []); cbn [appends] in H.
  - destruct H as (r & _ & ->). done.
  - by rewrite H.
  - by rewrite H.
Qed.

Lemma generateSolutions_thread_noprune_solutions ch :
  generateSolutions_thread_noprune lb nWords tbl ch
  = solutions_from false tbl nWords ch (getLetters lb) [].
Proof.
  unfold generateSolutions_thread_noprune. rewrite generateSolutionsRec_noprune_searchRec.
  pose proof (searchRec_appends tbl false nWords ch (getLetters lb) []
                (replicate nWords []) [] fits_start) as H.
  destruct (solutions_from false tbl nWords ch (getLetters lb) []); cbn [appends] in H.
  - destruct H as (r & _ & ->). done.
  - by rewrite H.
  - by rewrite H.
Qed.

End Threads.

(** C8. Two runs of [generateSolutions] on the same puzzle, catalog and
    word count, whatever the order in which their threads append, end the
    same way and with the same solutions up to their order. *)
Theorem generateSolutions_deterministic (sched1 sched2 : list nat) (lb : LetterBox)
    (nWords : nat) (tbl : WordTable) (solutions : list Solution) :
  same_solutions (generateSolutions sched1 lb nWords tbl solutions)
                 (generateSolutions sched2 lb nWords tbl solutions).
Proof.
  unfold generateSolutions, same_solutions.
  destruct (mapM _ _) as [appended| |]; cbn [mbind outcome_bind]; [|done|done].
  assert (Hp : solutions ++ interleave sched1 appended
               ≡ₚ solutions ++ interleave sched2 appended).
  { by rewrite !interleave_Permutation. }
  split; [done|]. intros sol. by rewrite Hp.
Qed.

(** ** Branches *)

Section Branches.

Variable tbl : WordTable.

Lemma reaches_0 start remaining chosen final uncovered :
  reaches tbl 0 start remaining chosen final uncovered <->
  final = chosen /\ uncovered = remaining.
Proof.
  split.
  - inversion 1; by subst.
  - intros [-> ->]. constructor.
Qed.

(** A call lists the final words of its branches that arrive at budget 0
    with nothing left to cover, and nothing else. *)
Lemma solutions_from_reaches nWords :
  forall start remaining chosen found,
    solutions_from true tbl nWords start remaining chosen = Done found ->
    forall sol, sol ∈ found <-> reaches tbl nWords start remaining chosen sol ∅.
Proof.
  induction nWords as [|n IH]; intros start remaining chosen found Hrun sol.
  - cbn [solutions_from] in Hrun. injection Hrun as <-. rewrite reaches_0.
    destruct (decide (remaining = ∅)) as [->|Hne].
    + rewrite list_elem_of_singleton. tauto.
    + split; [intros H; by apply elem_of_nil in H|]. intros [_ H]. congruence.
  - cbn [solutions_from] in Hrun.
    destruct (tbl !! start) as [words|] eqn:Hlook; cycle 1.
    { injection Hrun as <-. split; [intros H; by apply elem_of_nil in H|].
      inversion 1; congruence. }
    assert (Hloop : forall ws found0 found1,
      for_each (fun found word =>
          if true && pruned (Datatypes.S n) remaining word then Done found
          else
            last' ← Word_last word;
            more ← solutions_from true tbl n last'
                     (erase_all remaining (content word)) (chosen ++ [content word]);
            Done (found ++ more)) ws found0 = Done found1 ->
      (sol ∈ found1 <->
       sol ∈ found0 \/
       exists W c, W ∈ ws /\ pruned (Datatypes.S n) remaining W = false /\
                   Word_last W = Done c /\
                   reaches tbl n c (erase_all remaining (content W))
                     (chosen ++ [content W]) sol ∅)).
    { induction ws as [|W ws IHw]; intros found0 found1 Hloop.
      - cbn [for_each] in Hloop. injection Hloop as <-. split; [tauto|].
        intros [H|(W & c & H & _)]; [done|]. by apply elem_of_nil in H.
      - cbn [for_each andb] in Hloop.
        destruct (pruned (Datatypes.S n) remaining W) eqn:Hp.
        + cbn [mbind outcome_bind] in Hloop. rewrite (IHw _ _ Hloop). split.
          * intros [H|(V & c & HV & H)]; [tauto|]. right. exists V, c.
            split; [by right|done].
          * intros [H|(V & c & HV & HpV & H)]; [tauto|].
            apply elem_of_cons in HV as [->|HV]; [congruence|].
            right. by exists V, c.
        + destruct (Word_last W) as [c| |] eqn:Hlast;
            cbn [mbind outcome_bind] in Hloop; [|done|done].
          destruct (solutions_from true tbl n c _ _) as [more| |] eqn:Hmore;
            cbn [mbind outcome_bind] in Hloop; [|done|done].
          rewrite (IHw _ _ Hloop), elem_of_app, (IH _ _ _ _ Hmore sol). split.
          * intros [[H|H]|(V & d & HV & H)]; [tauto| |].
            -- right. exists W, c. split; [by left|done].
            -- right. exists V, d. split; [by right|done].
          * intros [H|(V & d & HV & HpV & HlV & H)]; [tauto|].
            apply elem_of_cons in HV as [->|HV].
            -- left. right. by replace c with d by congruence.
            -- right. by exists V, d. }
    rewrite (Hloop _ _ _ Hrun). split.
    + intros [H|(W & c & HW & Hp & Hl & Hr)]; [by apply elem_of_nil in H|].
      by eapply reaches_word.
    + inversion 1 as [|? ? ? ? ws W c ? ? Hl HW Hp Hlast Hr]; subst.
      right. exists W, c. split; [congruence|done].
Qed.

End Branches.

(** ** The whole search *)

Lemma mapM_outcome_Forall2 {A B} (f : A -> outcome B) (l : list A) ys :
  mapM f l = Done ys -> Forall2 (fun x y => f x = Done y) l ys.
Proof.
  revert ys. induction l as [|x l IH]; intros ys; simpl.
  - intros [= <-]. constructor.
  - destruct (f x) as [y| |] eqn:Hy; cbn [mbind outcome_bind]; [|done|done].
    destruct (mapM f l) as [ys'| |]; cbn [mbind outcome_bind]; [|done|done].
    intros [= <-]. constructor; [done|]. by apply IH.
Qed.

Lemma elem_of_interleave {A} (sched : list nat) (pending : list (list A)) x :
  x ∈ interleave sched pending <-> exists xs, xs ∈ pending /\ x ∈ xs.
Proof.
  rewrite (interleave_Permutation sched pending).
  induction pending as [|ys pending IH]; simpl.
  - split; [intros H; by apply elem_of_nil in H|].
    intros (xs & H & _). by apply elem_of_nil in H.
  - rewrite elem_of_app, IH. split.
    + intros [H|(xs & H1 & H2)]; [exists ys; split; [by left|done]|].
      exists xs. split; [by right|done].
    + intros (xs & H1 & H2). apply elem_of_cons in H1 as [->|H1]; [by left|].
      right. by exists xs.
Qed.

Section WholeSearch.

Variables (lb : LetterBox) (dict : list (list ascii)) (tbl : WordTable).
Variable nWords : nat.
Hypothesis Hcat : catalog_of lb dict tbl.
Hypothesis Hshort : forall word, word ∈ dict -> size word <= 2 ^ 31.
Hypothesis HnWords : Z.of_nat nWords < 2 ^ 32.

Lemma branch_state_start ch : branch_state lb ch (getLetters lb) [].
Proof.
  split; [|split; [|split]].
  - intros i a b Ha. by rewrite lookup_nil in Ha.
  - intros a Ha. done.
  - simpl. set_solver.
  - simpl. set_solver.
Qed.

Lemma generateSolutions_threads sched solutions :
  generateSolutions sched lb nWords tbl solutions
  = (appended ← mapM (fun ch => solutions_from true tbl nWords ch (getLetters lb) [])
                 (elements (getLetters lb));
     Done (solutions ++ interleave sched appended)).
Proof.
  unfold generateSolutions.
  rewrite (mapM_outcome_ext _
             (fun ch => solutions_from true tbl nWords ch (getLetters lb) [])); [done|].
  intros ch _. by apply generateSolutions_thread_solutions.
Qed.

Lemma generateSolutions_noprune_threads sched solutions :
  generateSolutions_noprune sched lb nWords tbl solutions
  = (appended ← mapM (fun ch => solutions_from false tbl nWords ch (getLetters lb) [])
                 (elements (getLetters lb));
     Done (solutions ++ interleave sched appended)).
Proof.
  unfold generateSolutions_noprune.
  rewrite (mapM_outcome_ext _
             (fun ch => solutions_from false tbl nWords ch (getLetters lb) [])); [done|].
  intros ch _. by apply generateSolutions_thread_noprune_solutions.
Qed.

Lemma generateSolutions_good sched solutions :
  exists appended,
    generateSolutions sched lb nWords tbl solutions = Done (solutions ++ appended) /\
    (forall sol, sol ∈ appended ->
       length sol = nWords /\ chained sol /\ covers lb sol) /\
    (forall sol, sol ∈ appended <->
       exists ch, ch ∈ getLetters lb /\
                  reaches tbl nWords ch (getLetters lb) [] sol ∅).
Proof.
  rewrite generateSolutions_threads.
  destruct (mapM_outcome_Done
              (fun ch => solutions_from true tbl nWords ch (getLetters lb) [])
              (Forall (good_solution lb nWords)) (elements (getLetters lb)))
    as (appended & Hrun & Hgood).
  { intros ch _.
    destruct (solutions_from_sound lb dict tbl Hcat Hshort true nWords ch _ []
                (branch_state_start ch)) as (found & Hfound & Hg).
    by exists found. }
  rewrite Hrun. cbn [mbind outcome_bind].
  exists (interleave sched appended). split; [done|]. split.
  - intros sol Hsol. apply elem_of_interleave in Hsol as (found & Hf & Hsol).
    rewrite Forall_forall in Hgood. specialize (Hgood found Hf).
    rewrite Forall_forall in Hgood. by apply Hgood.
  - intros sol. rewrite elem_of_interleave.
    apply mapM_outcome_Forall2 in Hrun. split.
    + intros (found & Hf & Hsol).
      apply list_elem_of_lookup in Hf as [i Hi].
      destruct (Forall2_lookup_r _ _ _ _ _ Hrun Hi) as (ch & Hch & Hfound).
      exists ch. split.
      * apply elem_of_elements. by eapply list_elem_of_lookup_2.
      * by apply (solutions_from_reaches tbl nWords _ _ _ _ Hfound).
    + intros (ch & Hch & Hreach).
      apply elem_of_elements, list_elem_of_lookup in Hch as [i Hi].
      destruct (Forall2_lookup_l _ _ _ _ _ Hrun Hi) as (found & Hf & Hfound).
      exists found. split; [by eapply list_elem_of_lookup_2|].
      by apply (solutions_from_reaches tbl nWords _ _ _ _ Hfound).
Qed.

Lemma generateSolutions_prune sched solutions :
  generateSolutions sched lb nWords tbl solutions
  = generateSolutions_noprune sched lb nWords tbl solutions.
Proof.
  rewrite generateSolutions_threads, generateSolutions_noprune_threads.
  rewrite (mapM_outcome_ext _
             (fun ch => solutions_from false tbl nWords ch (getLetters lb) [])); [done|].
  intros ch _. by eapply solutions_from_prune.
Qed.

End WholeSearch.

(** ** Words longer than an [int] can index *)

Section Cyclic.

Lemma adjacentb_adjacent p l :
  adjacentb p l = true -> adjacent (fun a b => p a b = true) l.
Proof.
  induction l as [|a [|b l] IH]; intros H i x y Hx Hy.
  - by rewrite lookup_nil in Hx.
  - destruct i; simpl in Hy; by rewrite ?lookup_nil in Hy.
  - cbn [adjacentb] in H. apply andb_true_iff in H as [Hab H].
    destruct i as [|i]; simpl in Hx, Hy.
    + congruence.
    + by apply (IH H i).
Qed.

Lemma adjacent_app P l1 l2 :
  adjacent P (l1 ++ l2) <->
  adjacent P l1 /\ adjacent P l2 /\
  (forall a b, last l1 = Some a -> head l2 = Some b -> P a b).
Proof.
  split.
  - intros H. split; [|split].
    + intros i a b Ha Hb. apply (H i); by apply lookup_app_l_Some.
    + intros i a b Ha Hb. apply (H (length l1 + i)%nat).
      * by rewrite lookup_app_r, Nat.add_comm, Nat.add_sub by lia.
      * replace (Datatypes.S (length l1 + i)) with (length l1 + Datatypes.S i)%nat by lia.
        by rewrite lookup_app_r, Nat.add_comm, Nat.add_sub by lia.
    + intros a b Ha Hb. rewrite last_lookup in Ha. rewrite head_lookup in Hb.
      assert (length l1 <> 0)%nat by (destruct l1; simpl in *; [done|lia]).
      apply (H (pred (length l1))).
      * by apply lookup_app_l_Some.
      * replace (Datatypes.S (pred (length l1))) with (length l1) by lia.
        by rewrite lookup_app_r, Nat.sub_diag by lia.
  - intros (H1 & H2 & H12) i a b Ha Hb.
    destruct (decide (Datatypes.S i < length l1)%nat).
    + rewrite lookup_app_l in Ha, Hb by lia. by apply (H1 i).
    + destruct (decide (Datatypes.S i = length l1)) as [Heq|Hne].
      * rewrite lookup_app_l in Ha by lia. rewrite lookup_app_r in Hb by lia.
        apply H12.
        -- rewrite last_lookup. rewrite <- Ha. f_equal. lia.
        -- rewrite head_lookup. rewrite <- Hb. f_equal. lia.
      * rewrite lookup_app_r in Ha, Hb by lia.
        apply (H2 (i - length l1)%nat); [done|].
        rewrite <- Hb. f_equal. lia.
Qed.

Variables (block tail : list ascii) (first : ascii).
Hypothesis Hblock : head block = Some first.

Lemma cycle_word_S n :
  cycle_word block (Datatypes.S n) tail = block ++ cycle_word block n tail.
Proof. unfold cycle_word. simpl. by rewrite app_assoc. Qed.

Lemma cycle_word_length n :
  length (cycle_word block n tail) = (n * length block + length tail)%nat.
Proof.
  induction n as [|n IH]; [done|].
  rewrite cycle_word_S, length_app, IH. lia.
Qed.

Lemma cycle_word_elem n x :
  n <> 0%nat -> x ∈ cycle_word block n tail <-> x ∈ block ++ tail.
Proof.
  induction n as [|[|n] IH]; intros Hn; [done| |].
  - unfold cycle_word. simpl. by rewrite app_nil_r.
  - rewrite cycle_word_S, elem_of_app, IH by done. rewrite elem_of_app. tauto.
Qed.

Lemma cycle_word_head n :
  n <> 0%nat -> head (cycle_word block n tail) = Some first.
Proof.
  destruct n as [|n]; [done|]. intros _. rewrite cycle_word_S.
  destruct block; [done|]. done.
Qed.

Lemma cycle_word_last n c :
  last tail = Some c -> last (cycle_word block n tail) = Some c.
Proof.
  intros Hc. unfold cycle_word. rewrite last_app. by rewrite Hc.
Qed.

Lemma cycle_word_adjacent P n :
  adjacent P (block ++ block ++ tail) -> adjacent P (cycle_word block n tail).
Proof.
  intros H. apply adjacent_app in H as (Hb & H & Hbb).
  apply adjacent_app in H as (_ & Ht & Hbt).
  induction n as [|n IH].
  - unfold cycle_word. simpl. done.
  - rewrite cycle_word_S. apply adjacent_app. split; [done|]. split; [done|].
    intros a b Ha Hh. destruct n as [|n].
    + unfold cycle_word in Hh. simpl in Hh. by apply Hbt.
    + rewrite cycle_word_head in Hh by done. injection Hh as <-.
      apply Hbb; [done|]. destruct block; [done|]. done.
Qed.

(** [canMakeWord] on a cyclic word, from tests on one block and the
    tail. *)
Lemma canMakeWord_cycle lb n :
  n <> 0%nat ->
  (3 <= n * length block + length tail)%nat ->
  forallb (contains lb) (block ++ tail) = true ->
  adjacentb (fun a b => negb (onSameWall lb a b)) (block ++ block ++ tail) = true ->
  canMakeWord lb (cycle_word block n tail) = true.
Proof.
  intros Hn Hlen Hcont Hadj. apply canMakeWord_true_iff. split; [|split].
  - unfold too_short, size, kMinWordLength. rewrite cycle_word_length. lia.
  - intros (c & Hc & Hforeign). apply cycle_word_elem in Hc; [|done].
    rewrite forallb_forall in Hcont. apply list_elem_of_In, Hcont in Hc. congruence.
  - intros (i & a & b & Ha & Hb & Hsame).
    apply adjacentb_adjacent in Hadj.
    pose proof (cycle_word_adjacent _ n Hadj i a b Ha Hb) as H. simpl in H.
    by rewrite Hsame in H.
Qed.

Lemma cycle_word_letters n :
  n <> 0%nat ->
  (list_to_set (cycle_word block n tail) : gset ascii) = list_to_set (block ++ tail).
Proof.
  intros Hn. apply set_eq. intros x.
  rewrite !elem_of_list_to_set. by apply cycle_word_elem.
Qed.

End Cyclic.

(** ** The claims on the search *)

(** X1 (C1 for words an [int] can index). Over the catalog that
    [buildFilteredWordList] builds from a dictionary whose words have at most
    [2 ^ 31] characters, [generateSolutions] with the budget [nWords] ends
    normally; every solution it appends has exactly [nWords] words, its
    consecutive words chain, and the letters of its words are the letters of
    the puzzle; and the solutions appended are the final words of the
    branches that arrive at budget 0 with an empty uncovered set, from the
    start of some thread, and no others. *)
Theorem generateSolutions_sound (sched : list nat) (lb : LetterBox)
    (dict : list (list ascii)) (nWords : nat) (solutions : list Solution) :
  (forall word, word ∈ dict -> size word <= 2 ^ 31) ->
  Z.of_nat nWords < 2 ^ 32 ->
  let tbl := buildFilteredWordList dict lb ∅ in
  exists appended,
    generateSolutions sched lb nWords tbl solutions = Done (solutions ++ appended) /\
    (forall sol, sol ∈ appended ->
       length sol = nWords /\ chained sol /\ covers lb sol) /\
    (forall sol, sol ∈ appended <->
       exists ch, ch ∈ getLetters lb /\
                  reaches tbl nWords ch (getLetters lb) [] sol ∅).
Proof.
  intros Hshort Hn tbl.
  apply (generateSolutions_good lb dict tbl nWords); [|done|done].
  apply buildFilteredWordList_catalog.
Qed.

(** The budget 0 is the only place where a solution is appended, and it is
    appended there exactly when nothing is left to cover. *)
Lemma generateSolutionsRec_terminal lb start remaining result solutions tbl :
  generateSolutionsRec lb 0 start remaining result solutions tbl
  = Done (result, if decide (remaining = ∅) then solutions ++ [result] else solutions).
Proof. simpl. by destruct (decide (remaining = ∅)). Qed.

(** X2 (C3 for words an [int] can index). On a catalog of a dictionary whose
    words have at most [2 ^ 31] characters, from every state of the search
    in which [result] has room for the words to come, [generateSolutionsRec]
    and the same function without the pruning line end the same way and
    leave the same vector of solutions; so do the two whole searches. *)
Theorem prune_changes_nothing (lb : LetterBox) (dict : list (list ascii))
    (tbl : WordTable) :
  catalog_of lb dict tbl ->
  (forall word, word ∈ dict -> size word <= 2 ^ 31) ->
  (forall nWords start remaining chosen result solutions,
     fits chosen nWords result ->
     snd <$> generateSolutionsRec lb nWords start remaining result solutions tbl
     = snd <$> generateSolutionsRec_noprune lb nWords start remaining result solutions tbl) /\
  (forall sched nWords solutions,
     Z.of_nat nWords < 2 ^ 32 ->
     generateSolutions sched lb nWords tbl solutions
     = generateSolutions_noprune sched lb nWords tbl solutions).
Proof.
  intros Hcat Hshort. split.
  - intros nWords start remaining chosen result solutions Hfits.
    rewrite generateSolutionsRec_searchRec, generateSolutionsRec_noprune_searchRec.
    pose proof (searchRec_appends tbl true nWords start remaining chosen result
                  solutions Hfits) as Ht.
    pose proof (searchRec_appends tbl false nWords start remaining chosen result
                  solutions Hfits) as Hf.
    rewrite (solutions_from_prune lb dict tbl Hcat Hshort) in Ht.
    destruct (solutions_from false tbl nWords start remaining chosen);
      cbn [appends] in Ht, Hf.
    + destruct Ht as (r1 & _ & ->). destruct Hf as (r2 & _ & ->). done.
    + by rewrite Ht, Hf.
    + by rewrite Ht, Hf.
  - intros sched nWords solutions Hn. by eapply generateSolutions_prune.
Qed.

(** X3 (C9 for words an [int] can index). On a catalog of a dictionary whose
    words have at most [2 ^ 31] characters, every word has at least
    [kMinWordLength] characters, the index [word.size() - 1] passed to
    [Word::operator[]] is within bounds and the access returns the last
    character; no search reaches the exit of [Word::operator[]]. *)
Theorem Word_index_in_bounds (lb : LetterBox) (dict : list (list ascii))
    (tbl : WordTable) :
  catalog_of lb dict tbl ->
  (forall word, word ∈ dict -> size word <= 2 ^ 31) ->
  (forall c W, W ∈ bucket tbl c ->
     kMinWordLength <= Word_size W /\
     0 <= to_int (to_size_t (Word_size W - 1)) < Word_size W /\
     exists ch, last (content W) = Some ch /\
                Word_at W (to_int (to_size_t (Word_size W - 1))) = Done ch) /\
  (forall sched nWords solutions,
     Z.of_nat nWords < 2 ^ 32 ->
     exists sols, generateSolutions sched lb nWords tbl solutions = Done sols).
Proof.
  intros Hcat Hshort. split.
  - intros c W HW.
    destruct (catalog_word lb dict tbl Hcat Hshort c W HW) as (_ & _ & _ & ch & Hch & Hlast).
    destruct (Hcat c) as (_ & _ & Hel).
    apply Hel in HW as (w & -> & Hw & Hcan & _).
    pose proof (canMakeWord_length _ _ Hcan) as Hlen.
    pose proof (Hshort w Hw) as Hs.
    unfold Word_size, size, kMinWordLength in *. simpl in *.
    split; [lia|]. split.
    + rewrite to_size_t_small, to_int_small by lia. lia.
    + by exists ch.
  - intros sched nWords solutions Hn.
    destruct (generateSolutions_good lb dict tbl nWords Hcat Hshort Hn sched solutions)
      as (appended & Hrun & _).
    by eexists.
Qed.

(** ** A dictionary of one word *)

Lemma interleave_nil {A} (sched : list nat) (pending : list (list A)) :
  Forall (fun xs => xs = []) pending -> interleave sched pending = [].
Proof.
  intros Hnil. destruct (interleave sched pending) as [|x rest] eqn:Hi; [done|].
  assert (Hx : x ∈ interleave sched pending) by (rewrite Hi; by left).
  apply elem_of_interleave in Hx as (xs & Hxs & Hx).
  rewrite Forall_forall in Hnil. rewrite (Hnil xs Hxs) in Hx.
  by apply elem_of_nil in Hx.
Qed.

Lemma mapM_outcome_single {A B} `{EqDecision A} (f : A -> outcome (list B)) l a x :
  NoDup l -> a ∈ l -> f a = Done [x] ->
  (forall z, z ∈ l -> z <> a -> f z = Done []) ->
  exists ys, mapM f l = Done ys /\ concat ys = [x].
Proof.
  induction l as [|z l IH]; intros Hnd Hin Ha Hrest.
  - by apply elem_of_nil in Hin.
  - apply NoDup_cons in Hnd as [Hz Hnd]. destruct (decide (z = a)) as [->|Hne].
    + destruct (mapM_outcome_Done f (fun ys => ys = []) l) as (ys & Hys & Hnil).
      { intros u Hu. exists []. split; [|done]. apply Hrest; [by right|].
        intros ->. done. }
      exists ([x] :: ys). simpl. rewrite Ha. cbn [mbind outcome_bind].
      rewrite Hys. cbn [mbind outcome_bind]. split; [done|].
      f_equal. clear -Hnil. induction Hnil as [|? ? -> ? IH]; [done|]. done.
    + apply elem_of_cons in Hin as [->|Hin]; [done|].
      destruct IH as (ys & Hys & Hcat); [done|done|done| |].
      { intros u Hu. apply Hrest. by right. }
      exists ([] :: ys). simpl. rewrite (Hrest z) by (by left || done).
      cbn [mbind outcome_bind]. rewrite Hys. cbn [mbind outcome_bind]. done.
Qed.

Section OneWord.

Variables (lb : LetterBox) (w : list ascii) (a : ascii).
Hypothesis Hcan : canMakeWord lb w = true.
Hypothesis Hhead : head w = Some a.
Hypothesis Ha : a ∈ getLetters lb.

Let one_word_table : WordTable := buildFilteredWordList [w] lb ∅.

Lemma one_word_table_eq : one_word_table = {[ a := [Word_new w] ]}.
Proof.
  unfold one_word_table, buildFilteredWordList. cbn [foldl].
  rewrite Hcan. cbn [negb]. rewrite lookup_empty. cbn [default].
  assert (char_at w 0 = a) as ->.
  { unfold char_at. destruct w; simpl in *; congruence. }
  unfold unordered_set_insert. cbn [existsb app]. apply insert_empty.
Qed.

Lemma one_word_lookup : one_word_table !! a = Some [Word_new w].
Proof. rewrite one_word_table_eq. apply lookup_singleton_eq. Qed.

Lemma one_word_lookup_ne ch : ch <> a -> one_word_table !! ch = None.
Proof. intros H. rewrite one_word_table_eq. by apply lookup_singleton_ne. Qed.

Lemma no_word_solutions prune n ch remaining chosen :
  ch <> a ->
  solutions_from prune one_word_table (Datatypes.S n) ch remaining chosen = Done [].
Proof. intros H. cbn [solutions_from]. by rewrite one_word_lookup_ne. Qed.

(** The word is tried and its last index does not fit an [int]: the
    thread of its first letter exits, and the process with it. *)
Section Exit.

Hypothesis Hexit : Word_last (Word_new w) = Exited.

Lemma exit_solutions prune n remaining chosen :
  prune && pruned (Datatypes.S n) remaining (Word_new w) = false ->
  solutions_from prune one_word_table (Datatypes.S n) a remaining chosen = Exited.
Proof.
  intros Hp. cbn [solutions_from]. rewrite one_word_lookup. cbn [for_each].
  rewrite Hp, Hexit. done.
Qed.

Lemma exit_threads prune n :
  prune && pruned (Datatypes.S n) (getLetters lb) (Word_new w) = false ->
  mapM (fun ch => solutions_from prune one_word_table (Datatypes.S n) ch
                    (getLetters lb) [])
    (elements (getLetters lb)) = Exited.
Proof.
  intros Hp. apply (mapM_outcome_Exited _ _ a).
  - by apply elem_of_elements.
  - by apply exit_solutions.
  - intros ch _. destruct (decide (ch = a)) as [->|Hne].
    + by rewrite exit_solutions.
    + by rewrite no_word_solutions.
Qed.

Lemma exit_generateSolutions sched n solutions :
  Z.of_nat (Datatypes.S n) < 2 ^ 32 ->
  pruned (Datatypes.S n) (getLetters lb) (Word_new w) = false ->
  generateSolutions sched lb (Datatypes.S n) one_word_table solutions = Exited.
Proof.
  intros Hn Hp. rewrite generateSolutions_threads by done.
  rewrite exit_threads; [done|]. by rewrite Hp.
Qed.



End Exit.

(** The word has every letter of the puzzle and [2 ^ 32 + 1] characters:
    its chain letter is read at index 0, and the word is chained to
    itself. *)
Section Wrapped.

Hypothesis Hwrap : Word_last (Word_new w) = Done a.
Hypothesis Hall : (list_to_set w : gset ascii) = getLetters lb.

Lemma wrapped_solutions :
  solutions_from true one_word_table 2 a (getLetters lb) [] = Done [[w; w]].
Proof.
  cbn [solutions_from]. rewrite one_word_lookup. cbn [for_each].
  assert (Hp2 : pruned 2 (getLetters lb) (Word_new w) = false) by done.
  rewrite Hp2. cbn [andb]. rewrite Hwrap. cbn [mbind outcome_bind].
  rewrite one_word_lookup. cbn [for_each].
  assert (Hrem : erase_all (getLetters lb) (content (Word_new w)) = ∅).
  { rewrite erase_all_difference. simpl. rewrite Hall. set_solver. }
  rewrite Hrem.
  assert (Hp1 : pruned 1 ∅ (Word_new w) = false).
  { unfold pruned. rewrite size_empty. cbn [Nat.eqb andb].
    rewrite Word_new_unique, Z.gtb_ltb. apply Z.ltb_ge. lia. }
  rewrite Hp1. cbn [andb]. rewrite Hwrap. cbn [mbind outcome_bind].
  assert (Hrem' : erase_all ∅ (content (Word_new w)) = ∅).
  { rewrite erase_all_difference. set_solver. }
  rewrite Hrem'. rewrite decide_True by done. done.
Qed.

Lemma wrapped_generateSolutions sched :
  generateSolutions sched lb 2 one_word_table [] = Done [[w; w]].
Proof.
  rewrite generateSolutions_threads by done.
  destruct (mapM_outcome_single
              (fun ch => solutions_from true one_word_table 2 ch (getLetters lb) [])
              (elements (getLetters lb)) a [w; w])
    as (appended & -> & Hcat).
  - apply NoDup_elements.
  - by apply elem_of_elements.
  - apply wrapped_solutions.
  - intros ch _ Hne. by apply no_word_solutions.
  - cbn [mbind outcome_bind]. simpl. f_equal.
    pose proof (interleave_Permutation sched appended) as Hp.
    rewrite Hcat in Hp. symmetry in Hp.
    by apply Permutation_singleton_l in Hp.
Qed.

End Wrapped.

End OneWord.

(** ** The puzzle ABCDEFGH and two long words *)

Lemma LetterBox_new_lb8 : LetterBox_new ABCDEFGH = Done lb8.
Proof. by rewrite (LetterBox_new_chunks ABCDEFGH 2). Qed.

Lemma lb8_letters :
  getLetters lb8 = list_to_set (str "ABCDEFGH").
Proof. unfold getLetters, lb8. by rewrite four_walls_letters. Qed.

Lemma lb8_size : base.size (getLetters lb8) = 8%nat.
Proof. rewrite lb8_letters. vm_compute. reflexivity. Qed.

Lemma A_in_lb8 : "A"%char ∈ getLetters lb8.
Proof. rewrite lb8_letters. apply elem_of_list_to_set. by left. Qed.

Section BeyondInt.

Variable n30 : nat.
Hypothesis H30 : Z.of_nat n30 = 2 ^ 30.

Let w31 := cycle_word (str "AC") n30 (str "A").

Lemma w31_canMakeWord : canMakeWord lb8 w31 = true.
Proof.
  apply (canMakeWord_cycle _ _ "A"%char); [done|lia|simpl; lia| |].
  - vm_compute. reflexivity.
  - vm_compute. reflexivity.
Qed.

Lemma w31_head : head w31 = Some "A"%char.
Proof. apply cycle_word_head; [done|lia]. Qed.

Lemma w31_size : Word_size (Word_new w31) = 2 ^ 31 + 1.
Proof.
  unfold Word_size, size, w31. simpl content. rewrite cycle_word_length.
  cbn [length]. lia.
Qed.

Lemma w31_exits : Word_last (Word_new w31) = Exited.
Proof. apply Word_last_exits. rewrite w31_size. lia. Qed.


Lemma w31_search_exits sched :
  generateSolutions sched lb8 2 (buildFilteredWordList [w31] lb8 ∅) [] = Exited.
Proof.
  apply (exit_generateSolutions lb8 w31 "A"%char).
  - apply w31_canMakeWord.
  - apply w31_head.
  - apply A_in_lb8.
  - apply w31_exits.
  - done.
  - done.
Qed.



End BeyondInt.

Section BeyondUint.

Variable n29 : nat.
Hypothesis H29 : Z.of_nat n29 = 2 ^ 29.

Let w32 := cycle_word (str "ACEGBDFH") n29 (str "C").

Lemma w32_canMakeWord : canMakeWord lb8 w32 = true.
Proof.
  apply (canMakeWord_cycle _ _ "A"%char); [done|lia|simpl; lia| |].
  - vm_compute. reflexivity.
  - vm_compute. reflexivity.
Qed.

Lemma w32_head : head w32 = Some "A"%char.
Proof. apply cycle_word_head; [done|lia]. Qed.

Lemma w32_last : last w32 = Some "C"%char.
Proof. by apply cycle_word_last. Qed.

Lemma w32_size : Word_size (Word_new w32) = 2 ^ 32 + 1.
Proof.
  unfold Word_size, size, w32. simpl content. rewrite cycle_word_length.
  cbn [length]. lia.
Qed.

Lemma w32_letters : (list_to_set w32 : gset ascii) = getLetters lb8.
Proof.
  unfold w32. rewrite cycle_word_letters by lia. rewrite lb8_letters.
  vm_compute. reflexivity.
Qed.

Lemma w32_not_chained : ~ chained [w32; w32].
Proof.
  intros H. destruct (H 0%nat w32 w32 eq_refl eq_refl) as (c & Hl & Hh).
  rewrite w32_last in Hl. rewrite w32_head in Hh. congruence.
Qed.

Lemma w32_search sched :
  generateSolutions sched lb8 2 (buildFilteredWordList [w32] lb8 ∅) [] = Done [[w32; w32]].
Proof.
  apply (wrapped_generateSolutions lb8 w32 "A"%char).
  - apply w32_canMakeWord.
  - apply w32_head.
  - apply A_in_lb8.
  - apply Word_last_wraps; [apply w32_size|apply w32_head].
  - apply w32_letters.
Qed.

End BeyondUint.

Lemma pow30_nat : Z.of_nat (Z.to_nat (2 ^ 30)) = 2 ^ 30.
Proof. apply Z2Nat.id. lia. Qed.

Lemma pow29_nat : Z.of_nat (Z.to_nat (2 ^ 29)) = 2 ^ 29.
Proof. apply Z2Nat.id. lia. Qed.

(** C1, at a failing input. Puzzle ABCDEFGH, dictionary of the one word of
    [2 ^ 32 + 1] characters, two words asked for: the search appends the
    solution made of that word twice, although the word ends with C and
    starts with A. The index [2 ^ 32] of its last character is 0 as an
    [int]. *)
Lemma generateSolutions_chain_broken :
  LetterBox_new ABCDEFGH = Done lb8 /\
  forall sched,
    generateSolutions sched lb8 2 (buildFilteredWordList [word_beyond_uint] lb8 ∅) []
    = Done [[word_beyond_uint; word_beyond_uint]] /\
    ~ chained [word_beyond_uint; word_beyond_uint].
Proof.
  split; [apply LetterBox_new_lb8|]. intros sched. unfold word_beyond_uint. split.
  - apply w32_search. apply pow29_nat.
  - apply w32_not_chained. apply pow29_nat.
Qed.


(** C9, at a failing input. Puzzle ABCDEFGH, dictionary of the one word of
    [2 ^ 31 + 1] characters, two words asked for: [canMakeWord] accepts the
    word, the index [2 ^ 31] of its last character is negative as an [int],
    and the search ends in the exit of [Word::operator[]]. *)
Lemma search_reaches_exit :
  LetterBox_new ABCDEFGH = Done lb8 /\
  canMakeWord lb8 word_beyond_int = true /\
  Word_last (Word_new word_beyond_int) = Exited /\
  forall sched,
    generateSolutions sched lb8 2 (buildFilteredWordList [word_beyond_int] lb8 ∅) []
    = Exited.
Proof.
  split; [apply LetterBox_new_lb8|]. unfold word_beyond_int.
  split; [apply w31_canMakeWord; apply pow30_nat|].
  split; [apply w31_exits; apply pow30_nat|].
  intros sched. apply w31_search_exits. apply pow30_nat.
Qed.

(** ** The word count *)

Lemma numLetters_range (lb : LetterBox) : 0 <= numLetters lb <= 256.
Proof.
  unfold numLetters. split; [lia|].
  pose proof (NoDup_ascii_length (elements (letters lb)) (NoDup_elements _)) as H.
  unfold base.size, set_size. simpl. lia.
Qed.

Lemma maxWords_eq (lb : LetterBox) :
  maxWords lb = numLetters lb / kMinWordLength /\ 0 <= maxWords lb <= 85.
Proof.
  pose proof (numLetters_range lb) as Hr. unfold maxWords, kMinWordLength.
  assert (0 <= numLetters lb / 3 <= 85).
  { split; [apply Z.div_pos; lia|].
    assert (numLetters lb / 3 < 86) by (apply Z.div_lt_upper_bound; lia). lia. }
  rewrite to_uint_small by lia. done.
Qed.

(** The loop of [getNumWordsFromUser] goes past the values the test
    rejects and returns the first value it accepts. *)
Lemma getNumWordsFromUser_first (lb : LetterBox) (skipped : list Z) n (rest : list Z) :
  Forall (fun m => wordCount_rejected lb m = true) skipped ->
  wordCount_rejected lb n = false ->
  getNumWordsFromUser lb (skipped ++ n :: rest) = Some (to_uint n).
Proof.
  intros Hskipped Hn. induction Hskipped as [|m skipped Hm _ IH]; cbn [app getNumWordsFromUser].
  - by rewrite Hn.
  - by rewrite Hm.
Qed.

(** The test on an [int]: accepted exactly from 1 to the largest count. *)
Lemma wordCount_rejected_iff (lb : LetterBox) n :
  INT_MIN <= n <= INT_MAX ->
  wordCount_rejected lb n = false <-> 1 <= n <= maxWords lb.
Proof.
  intros Hint. destruct (maxWords_eq lb) as [_ Hrange].
  unfold INT_MIN, INT_MAX, int_bits in Hint. change (2 ^ (32 - 1)) with 2147483648 in Hint.
  unfold wordCount_rejected, minWords.
  assert (Hu : to_uint n = if decide (n < 0) then n + 2 ^ 32 else n).
  { unfold to_uint, int_bits. destruct (decide (n < 0)).
    - symmetry. apply (Z.mod_unique_pos n (2 ^ 32) (-1)); lia.
    - apply Z.mod_small. lia. }
  rewrite Hu. destruct (decide (n < 0)).
  - destruct (Z.ltb_spec (n + 2 ^ 32) 1); [cbn [orb]; split; [done|lia]|].
    destruct (Z.gtb_spec (n + 2 ^ 32) (maxWords lb)); cbn [orb]; split; (done || lia).
  - destruct (Z.ltb_spec n 1); [cbn [orb]; split; [done|lia]|].
    destruct (Z.gtb_spec n (maxWords lb)); cbn [orb]; split; (done || lia).
Qed.

(** C7. For a puzzle with at least [kMinWordLength] letters, the largest
    count [numLetters / kMinWordLength] is at least 1; the test of
    [getNumWordsFromUser] accepts an [int] exactly when it is between 1 and
    the largest count: it accepts the largest count, rejects that count
    plus one and every [int] below 1. [getNumWordsFromUser] goes past the
    values the test rejects and returns the first value the test accepts;
    it returns the largest count when that is typed; it never returns a
    count outside 1 and the largest count. [main] hands to
    [generateSolutions] the first accepted count, and no other. *)
Theorem wordCount_bounds (lb : LetterBox) :
  kMinWordLength <= numLetters lb ->
  maxWords lb = numLetters lb / kMinWordLength /\
  1 <= maxWords lb /\
  (forall n, INT_MIN <= n <= INT_MAX ->
     wordCount_rejected lb n = false <-> 1 <= n <= maxWords lb) /\
  wordCount_rejected lb (maxWords lb) = false /\
  wordCount_rejected lb (maxWords lb + 1) = true /\
  (forall n, INT_MIN <= n < 1 -> wordCount_rejected lb n = true) /\
  (forall skipped n rest,
     Forall (fun m => wordCount_rejected lb m = true) skipped ->
     1 <= n <= maxWords lb ->
     getNumWordsFromUser lb (skipped ++ n :: rest) = Some n) /\
  (forall rest, getNumWordsFromUser lb (maxWords lb :: rest) = Some (maxWords lb)) /\
  (forall n rest, n = maxWords lb + 1 \/ INT_MIN <= n < 1 ->
     getNumWordsFromUser lb (n :: rest) = getNumWordsFromUser lb rest) /\
  (forall inputs nWords, getNumWordsFromUser lb inputs = Some nWords ->
     1 <= nWords <= maxWords lb) /\
  (forall sched dict letterLines letters skipped n rest,
     getLettersFromUser letterLines = Some letters ->
     LetterBox_new letters = Done lb ->
     Forall (fun m => wordCount_rejected lb m = true) skipped ->
     1 <= n <= maxWords lb ->
     main_search sched dict letterLines (skipped ++ n :: rest)
     = Some (generateSolutions sched lb (Z.to_nat n) (buildFilteredWordList dict lb ∅) [])) /\
  (forall sched dict letterLines numbers run,
     main_search sched dict letterLines numbers = Some run ->
     exists letterBox nWords,
       1 <= nWords <= maxWords letterBox /\
       run = generateSolutions sched letterBox (Z.to_nat nWords)
               (buildFilteredWordList dict letterBox ∅) []).
Proof.
  intros Hmin. destruct (maxWords_eq lb) as [Hmax Hrange].
  assert (Hone : 1 <= maxWords lb).
  { rewrite Hmax. unfold kMinWordLength in *.
    apply Z.div_le_lower_bound; lia. }
  assert (Hint : forall n, 1 <= n <= maxWords lb -> INT_MIN <= n <= INT_MAX).
  { intros n Hn. unfold INT_MIN, INT_MAX, int_bits.
    change (2 ^ (32 - 1)) with 2147483648. lia. }
  assert (Hin : forall n, 1 <= n <= maxWords lb ->
            wordCount_rejected lb n = false /\ to_uint n = n).
  { intros n Hn. split; [by apply wordCount_rejected_iff; [apply Hint|]|].
    apply to_uint_small. lia. }
  assert (Hout : forall n, n = maxWords lb + 1 \/ INT_MIN <= n < 1 ->
            wordCount_rejected lb n = true).
  { intros n Hn.
    assert (Hn' : INT_MIN <= n <= INT_MAX).
    { unfold INT_MIN, INT_MAX, int_bits in *.
      change (2 ^ (32 - 1)) with 2147483648 in *. lia. }
    destruct (wordCount_rejected lb n) eqn:Hr; [done|].
    apply wordCount_rejected_iff in Hr; [lia|done]. }
  assert (Hfirst : forall skipped n rest,
            Forall (fun m => wordCount_rejected lb m = true) skipped ->
            1 <= n <= maxWords lb ->
            getNumWordsFromUser lb (skipped ++ n :: rest) = Some n).
  { intros skipped n rest Hskipped Hn. destruct (Hin n Hn) as [Hacc Hu].
    rewrite (getNumWordsFromUser_first lb skipped n rest Hskipped Hacc). by rewrite Hu. }
  assert (Hacc : forall letterBox inputs nWords,
            getNumWordsFromUser letterBox inputs = Some nWords ->
            1 <= nWords <= maxWords letterBox).
  { intros letterBox inputs. induction inputs as [|n inputs IH]; intros nWords; [done|].
    simpl. unfold wordCount_rejected, minWords.
    destruct (Z.ltb_spec (to_uint n) 1); [by apply IH|].
    destruct (Z.gtb_spec (to_uint n) (maxWords letterBox)); [by apply IH|].
    simpl. intros [= <-]. lia. }
  split; [done|]. split; [done|].
  split; [intros n Hn; by apply wordCount_rejected_iff|].
  split; [apply Hin; lia|].
  split; [apply Hout; by left|].
  split; [intros n Hn; apply Hout; by right|].
  split; [done|].
  split; [intros rest; apply (Hfirst [] (maxWords lb) rest); [constructor|lia]|].
  split; [intros n rest Hn; cbn [getNumWordsFromUser]; by rewrite (Hout n Hn)|].
  split; [apply Hacc|]. split.
  - intros sched dict letterLines letters skipped n rest Hletters Hnew Hskipped Hn.
    unfold main_search. by rewrite Hletters, Hnew, (Hfirst skipped n rest Hskipped Hn).
  - intros sched dict letterLines numbers run. unfold main_search.
    destruct (getLettersFromUser letterLines) as [input|]; [|done].
    destruct (LetterBox_new_total input) as [letterBox ->].
    destruct (getNumWordsFromUser letterBox numbers) as [nWords|] eqn:Hn; [|done].
    intros [= <-]. exists letterBox, nWords. split; [|done]. by eapply Hacc.
Qed.

(** C7, counterexample. The empty line, which [getLettersFromUser] returns,
    gives a puzzle of no letter: the largest count
    [numLetters / kMinWordLength] is 0, the test rejects it, and
    [getNumWordsFromUser] does not return it. *)
Lemma wordCount_maximum_rejected :
  exists lb,
    getLettersFromUser [[]] = Some [] /\
    LetterBox_new [] = Done lb /\
    maxWords lb = numLetters lb / kMinWordLength /\
    maxWords lb = 0 /\
    wordCount_rejected lb (maxWords lb) = true /\
    getNumWordsFromUser lb [maxWords lb] = None.
Proof.
  exists (four_walls [] [] [] []).
  split; [reflexivity|]. split; [by rewrite (LetterBox_new_chunks [] 0)|].
  split; [vm_compute; reflexivity|]. split; [vm_compute; reflexivity|].
  split; vm_compute; reflexivity.
Qed.

(** ** The properties at concrete inputs *)

Lemma dict8_short :
  forall word, word ∈ dict8 -> size word <= 2 ^ 31.
Proof.
  intros word Hw. unfold dict8 in Hw.
  repeat (apply elem_of_cons in Hw as [->|Hw]; [vm_compute; discriminate|]).
  by apply elem_of_nil in Hw.
Defined.

Example canMakeWord_examples :
  canMakeWord lb8 (str "ACEG") = true /\
  canMakeWord lb8 (str "AC") = false /\
  canMakeWord lb8 (str "ACX") = false /\
  canMakeWord lb8 (str "ABD") = false.
Proof. vm_compute. repeat split. Qed.

Example buildFilteredWordList_example :
  map_to_list (buildFilteredWordList dict8 lb8 ∅)
  = [("G"%char, [Word_new (str "GBDFH")]);
     ("A"%char, [Word_new (str "ACEG"); Word_new (str "ACA")])].
Proof. vm_compute. reflexivity. Qed.

Example generateSolutions_example :
  generateSolutions [] lb8 2 (buildFilteredWordList dict8 lb8 ∅) []
  = Done [[str "ACEG"; str "GBDFH"]].
Proof. vm_compute. reflexivity. Qed.

(** The fixture of the specification: letters ABCDEFGHIJKL, the words ABD,
    DGJ and JCK, two words asked for. ABD has A and B on one wall and is no
    word of the catalog; no two words cover the puzzle. *)
Example generateSolutions_fixture :
  (lb ← LetterBox_new (str "ABCDEFGHIJKL");
   generateSolutions [] lb 2
     (buildFilteredWordList [str "ABD"; str "DGJ"; str "JCK"] lb ∅) [])
  = Done [].
Proof. vm_compute. reflexivity. Qed.

Lemma LetterBox_walls_partition_witness :
  NoDup ABCDEFGH /\ length ABCDEFGH = (4 * 2)%nat /\ (1 <= 2)%nat /\
  exists lb,
    LetterBox_new ABCDEFGH = Done lb /\
    length (letterWalls lb) = 4%nat /\
    Forall (fun wall => length wall = 2%nat) (letterWalls lb) /\
    (forall c, c ∈ ABCDEFGH ->
       exists w wall,
         letterToWall lb !! c = Some w /\ letterWalls lb !! w = Some wall /\ c ∈ wall /\
         forall w' wall', letterWalls lb !! w' = Some wall' -> c ∈ wall' -> w' = w) /\
    (forall c, c ∈ getLetters lb <-> c ∈ ABCDEFGH) /\
    (forall wall c, wall ∈ letterWalls lb -> c ∈ wall -> c ∈ ABCDEFGH).
Proof.
  assert (Hnd : NoDup ABCDEFGH) by compute_done.
  split; [exact Hnd|]. split; [reflexivity|]. split; [lia|].
  apply (LetterBox_walls_partition ABCDEFGH 2 Hnd); [reflexivity|lia].
Defined.

Lemma lb8_numLetters : kMinWordLength <= numLetters lb8.
Proof. unfold numLetters. fold (getLetters lb8). rewrite lb8_size. vm_compute. discriminate. Defined.

Lemma wordCount_bounds_witness :
  kMinWordLength <= numLetters lb8 /\
  maxWords lb8 = numLetters lb8 / kMinWordLength /\
  maxWords lb8 = 2 /\
  wordCount_rejected lb8 (maxWords lb8) = false /\
  wordCount_rejected lb8 (maxWords lb8 + 1) = true /\
  (forall n, INT_MIN <= n < 1 -> wordCount_rejected lb8 n = true) /\
  getNumWordsFromUser lb8 ([3; 0; -1] ++ 2 :: [1]) = Some 2 /\
  (forall rest, getNumWordsFromUser lb8 (maxWords lb8 :: rest) = Some (maxWords lb8)) /\
  (forall sched dict,
     main_search sched dict [str "abc"; str "abcdEFGH"] ([3; 0; -1] ++ 2 :: [1])
     = Some (generateSolutions sched lb8 (Z.to_nat 2) (buildFilteredWordList dict lb8 ∅) [])).
Proof.
  assert (Hskipped : Forall (fun m => wordCount_rejected lb8 m = true) [3; 0; -1])
    by (repeat constructor).
  assert (Hmax : maxWords lb8 = 2) by (vm_compute; reflexivity).
  assert (Hn : 1 <= 2 <= maxWords lb8) by (rewrite Hmax; lia).
  assert (Hletters : getLettersFromUser [str "abc"; str "abcdEFGH"] = Some ABCDEFGH)
    by (vm_compute; reflexivity).
  split; [exact lb8_numLetters|].
  destruct (wordCount_bounds lb8 lb8_numLetters)
    as (H1 & _ & _ & H2 & H3 & H4 & H5 & H6 & _ & _ & H7 & _).
  split; [exact H1|]. split; [exact Hmax|]. split; [exact H2|]. split; [exact H3|].
  split; [exact H4|]. split; [exact (H5 [3; 0; -1] 2 [1] Hskipped Hn)|].
  split; [exact H6|].
  intros sched dict.
  exact (H7 sched dict _ ABCDEFGH [3; 0; -1] 2 [1] Hletters LetterBox_new_lb8 Hskipped Hn).
Defined.

Lemma generateSolutions_sound_witness :
  (forall word, word ∈ dict8 -> size word <= 2 ^ 31) /\
  Z.of_nat 2 < 2 ^ 32 /\
  exists appended,
    generateSolutions [] lb8 2 (buildFilteredWordList dict8 lb8 ∅) [] = Done ([] ++ appended) /\
    (forall sol, sol ∈ appended ->
       length sol = 2%nat /\ chained sol /\ covers lb8 sol) /\
    (forall sol, sol ∈ appended <->
       exists ch, ch ∈ getLetters lb8 /\
                  reaches (buildFilteredWordList dict8 lb8 ∅) 2 ch (getLetters lb8) [] sol ∅).
Proof.
  split; [exact dict8_short|]. split; [reflexivity|].
  apply (generateSolutions_sound [] lb8 dict8 2 []); [exact dict8_short|reflexivity].
Defined.

Lemma prune_changes_nothing_witness :
  catalog_of lb8 dict8 (buildFilteredWordList dict8 lb8 ∅) /\
  (forall word, word ∈ dict8 -> size word <= 2 ^ 31) /\
  forall sched nWords solutions,
    Z.of_nat nWords < 2 ^ 32 ->
    generateSolutions sched lb8 nWords (buildFilteredWordList dict8 lb8 ∅) solutions
    = generateSolutions_noprune sched lb8 nWords (buildFilteredWordList dict8 lb8 ∅) solutions.
Proof.
  split; [apply buildFilteredWordList_catalog|]. split; [exact dict8_short|].
  apply (prune_changes_nothing lb8 dict8 (buildFilteredWordList dict8 lb8 ∅)
           (buildFilteredWordList_catalog lb8 dict8) dict8_short).
Defined.

Lemma Word_index_in_bounds_witness :
  catalog_of lb8 dict8 (buildFilteredWordList dict8 lb8 ∅) /\
  (forall word, word ∈ dict8 -> size word <= 2 ^ 31) /\
  forall sched nWords solutions,
    Z.of_nat nWords < 2 ^ 32 ->
    exists sols,
      generateSolutions sched lb8 nWords (buildFilteredWordList dict8 lb8 ∅) solutions
      = Done sols.
Proof.
  split; [apply buildFilteredWordList_catalog|]. split; [exact dict8_short|].
  apply (Word_index_in_bounds lb8 dict8 (buildFilteredWordList dict8 lb8 ∅)
           (buildFilteredWordList_catalog lb8 dict8) dict8_short).
Defined.

(** * Further properties of the code *)

(** ** The puzzle, whatever the string *)

Lemma wall_segment_length input w :
  0 <= w < 4 ->
  Z.of_nat (length (wall_segment input (lettersPerWord_of input) w))
  = lettersPerWord_of input.
Proof.
  intros Hw. pose proof (lettersPerWord_fits input w Hw) as Hfit.
  pose proof (to_uint_range (w * lettersPerWord_of input)) as Hoff.
  assert (HL : 0 <= lettersPerWord_of input) by apply to_uint_range.
  unfold wall_segment, size in *. rewrite length_take, length_drop. lia.
Qed.

Lemma four_walls_lookup (s0 s1 s2 s3 : list ascii) (w : nat) wall :
  [s0; s1; s2; s3] !! w = Some wall ->
  (w = 0%nat /\ wall = s0) \/ (w = 1%nat /\ wall = s1) \/
  (w = 2%nat /\ wall = s2) \/ (w = 3%nat /\ wall = s3).
Proof. destruct w as [|[|[|[|w]]]]; simpl; naive_solver. Qed.

Lemma four_walls_consistent s0 s1 s2 s3 : consistent (four_walls s0 s1 s2 s3).
Proof.
  unfold consistent, getLetters.
  rewrite four_walls_walls, four_walls_letters. split; [|split].
  - intros c. rewrite elem_of_list_to_set, !elem_of_app. split.
    + intros [H|[H|[H|H]]]; eexists; (split; [|exact H]); set_solver.
    + intros (wall & Hw & Hc). set_solver.
  - intros c. rewrite four_walls_map, elem_of_list_to_set, !elem_of_app.
    repeat (destruct (decide _)); split; intros H; try (by eexists); try tauto.
    by destruct H.
  - intros c w. rewrite four_walls_map.
    repeat (destruct (decide _)); intros [= <-]; eexists; (split; [reflexivity|]);
      (split; [done|]); intros w' wall' Hlt Hl; apply four_walls_lookup in Hl;
      destruct Hl as [[-> ->]|[[-> ->]|[[-> ->]|[-> ->]]]]; (lia || done).
Qed.

(** X4. On every string the constructor ends normally with 4 walls of
    [size / 4] letters each (as an [unsigned int]); the letters of the
    puzzle are the letters on the walls, they are the keys of
    [letterToWall], and a letter is mapped to the first wall that holds it
    (a letter that comes again on a later wall keeps its first wall). *)
Theorem LetterBox_new_consistent (input : list ascii) :
  exists lb,
    LetterBox_new input = Done lb /\
    length (letterWalls lb) = 4%nat /\
    Forall (fun wall => Z.of_nat (length wall) = to_uint (size input / kNumWalls))
      (letterWalls lb) /\
    consistent lb.
Proof.
  eexists. split; [apply LetterBox_new_four_walls|].
  rewrite four_walls_walls. split; [done|]. split.
  - fold (lettersPerWord_of input).
    repeat constructor; apply wall_segment_length; lia.
  - apply four_walls_consistent.
Qed.

Lemma LetterBox_new_is_consistent input lb :
  LetterBox_new input = Done lb -> consistent lb.
Proof.
  rewrite LetterBox_new_four_walls. intros [= <-]. apply four_walls_consistent.
Qed.

Lemma onSameWall_self (input : list ascii) (lb : LetterBox) c :
  LetterBox_new input = Done lb -> onSameWall lb c c = contains lb c.
Proof.
  intros Hnew. apply LetterBox_new_is_consistent in Hnew as (_ & Hkeys & _).
  unfold onSameWall, contains. destruct (letterToWall lb !! c) as [w|] eqn:Hl.
  - rewrite bool_decide_eq_true_2 by done. symmetry. apply bool_decide_eq_true_2.
    apply Hkeys. by eexists.
  - symmetry. apply bool_decide_eq_false_2. intros Hc. apply Hkeys in Hc as [w Hw].
    congruence.
Qed.

(** X5. On a constructed puzzle, [getWall] is defined exactly on the
    letters [contains] accepts and gives a wall that holds the letter;
    [onSameWall] is false as soon as one letter is not in the puzzle, and a
    letter is on the same wall as itself exactly when it is in the puzzle. *)
Theorem LetterBox_queries (input : list ascii) (lb : LetterBox) :
  LetterBox_new input = Done lb ->
  forall c,
    (contains lb c = true ->
     exists w wall, getWall lb c = Done w /\ letterWalls lb !! w = Some wall /\ c ∈ wall) /\
    (contains lb c = false -> getWall lb c = Undefined) /\
    onSameWall lb c c = contains lb c /\
    (forall d, contains lb c = false \/ contains lb d = false ->
       onSameWall lb c d = false).
Proof.
  intros Hnew c. apply LetterBox_new_is_consistent in Hnew as (_ & Hkeys & Hfirst).
  assert (Hnone : forall x, contains lb x = false -> letterToWall lb !! x = None).
  { intros x Hx. unfold contains in Hx. apply bool_decide_eq_false in Hx.
    destruct (letterToWall lb !! x) eqn:Hl; [|done].
    exfalso. apply Hx, Hkeys. by eexists. }
  assert (Hsome : forall x, contains lb x = true -> is_Some (letterToWall lb !! x)).
  { intros x Hx. unfold contains in Hx. apply bool_decide_eq_true in Hx. by apply Hkeys. }
  split; [|split; [|split]].
  - intros Hc. destruct (Hsome c Hc) as [w Hw].
    destruct (Hfirst c w Hw) as (wall & Hwall & Hin & _).
    exists w, wall. unfold getWall. by rewrite Hw.
  - intros Hc. unfold getWall. by rewrite (Hnone c Hc).
  - unfold onSameWall. destruct (contains lb c) eqn:Hc.
    + destruct (Hsome c Hc) as [w ->]. by apply bool_decide_eq_true.
    + by rewrite (Hnone c Hc).
  - intros d [Hc|Hd]; unfold onSameWall.
    + by rewrite (Hnone c Hc).
    + rewrite (Hnone d Hd). by destruct (letterToWall lb !! c).
Qed.

Lemma onSameWall_sym (lb : LetterBox) a b : onSameWall lb a b = onSameWall lb b a.
Proof.
  unfold onSameWall.
  destruct (letterToWall lb !! a), (letterToWall lb !! b); try done.
  apply bool_decide_ext. split; congruence.
Qed.

(** X6. [onSameWall] is symmetric and transitive on every puzzle. *)
Theorem onSameWall_equivalence (lb : LetterBox) :
  (forall a b, onSameWall lb a b = onSameWall lb b a) /\
  (forall a b c, onSameWall lb a b = true -> onSameWall lb b c = true ->
     onSameWall lb a c = true).
Proof.
  split.
  - intros a b. apply onSameWall_sym.
  - intros a b c. unfold onSameWall.
    destruct (letterToWall lb !! a), (letterToWall lb !! b), (letterToWall lb !! c);
      try done.
    rewrite !bool_decide_eq_true. congruence.
Qed.

(** On a string of [4 * k] pairwise distinct letters the map from letters
    to walls answers for the walls themselves. *)
Lemma LetterBox_new_shared_wall (input : list ascii) (k : nat) (lb : LetterBox) :
  NoDup input -> length input = (4 * k)%nat ->
  LetterBox_new input = Done lb ->
  (forall a b, onSameWall lb a b = true <->
     exists wall, wall ∈ letterWalls lb /\ a ∈ wall /\ b ∈ wall) /\
  numLetters lb = Z.of_nat (4 * k).
Proof.
  intros Hnd Hlen Hnew.
  pose proof (NoDup_ascii_length _ Hnd) as H256.
  rewrite (LetterBox_new_chunks input k Hlen) in Hnew by lia.
  assert (lb = four_walls (take k input) (take k (drop k input))
                 (take k (drop (2 * k) input)) (take k (drop (3 * k) input))) as ->
    by congruence.
  clear Hnew. pose proof (four_chunks input k Hlen) as Hchunks.
  set (s0 := take k input) in *. set (s1 := take k (drop k input)) in *.
  set (s2 := take k (drop (2 * k) input)) in *.
  set (s3 := take k (drop (3 * k) input)) in *.
  pose proof Hnd as Hnd'. rewrite Hchunks in Hnd'.
  apply NoDup_app in Hnd' as (_ & H01 & Hnd').
  apply NoDup_app in Hnd' as (_ & H12 & Hnd').
  apply NoDup_app in Hnd' as (_ & H23 & _).
  split.
  - intros a b. unfold onSameWall. rewrite !four_walls_map, four_walls_walls. split.
    + repeat (destruct (decide _)); intros H; try done;
        apply bool_decide_eq_true in H; try done;
        eexists; (split; [|split; eassumption]); set_solver.
    + intros (wall & Hw & Ha & Hb).
      assert (Hcases : wall = s0 \/ wall = s1 \/ wall = s2 \/ wall = s3) by set_solver.
      destruct Hcases as [-> | [-> | [-> | ->]]];
        repeat (destruct (decide _)); try done; set_solver.
  - unfold numLetters. rewrite four_walls_letters, <- Hchunks.
    rewrite size_list_to_set by done. by rewrite Hlen.
Qed.

(** X7. On the puzzle of a string of [4 * k] pairwise distinct letters, two
    letters are on the same wall for [onSameWall] exactly when some wall
    holds both, and the puzzle has [4 * k] letters. *)
Theorem onSameWall_shared_wall (input : list ascii) (k : nat) (lb : LetterBox) :
  NoDup input -> length input = (4 * k)%nat ->
  LetterBox_new input = Done lb ->
  (forall a b, onSameWall lb a b = true <->
     exists wall, wall ∈ letterWalls lb /\ a ∈ wall /\ b ∈ wall) /\
  numLetters lb = Z.of_nat (4 * k).
Proof. apply LetterBox_new_shared_wall. Qed.

(** ** [canMakeWord] and the walls *)





(** ** Words the puzzle accepts *)

Lemma no_pair_adjacent lb word :
  ~ has_same_wall_pair lb word <-> adjacent (fun a b => onSameWall lb a b = false) word.
Proof.
  unfold has_same_wall_pair, adjacent. split.
  - intros H i a b Ha Hb. destruct (onSameWall lb a b) eqn:Hs; [|done].
    exfalso. apply H. by exists i, a, b.
  - intros H (i & a & b & Ha & Hb & Hs). by rewrite (H i a b Ha Hb) in Hs.
Qed.

Lemma no_foreign_Forall lb word :
  ~ has_foreign_letter lb word <-> Forall (fun c => contains lb c = true) word.
Proof.
  unfold has_foreign_letter. rewrite Forall_forall. split.
  - intros H c Hc. destruct (contains lb c) eqn:Hcont; [done|].
    exfalso. apply H. by exists c.
  - intros H (c & Hc & Hcont). by rewrite (H c Hc) in Hcont.
Qed.

Lemma canMakeWord_Forall_adjacent lb word :
  canMakeWord lb word = true <->
  (3 <= length word)%nat /\
  Forall (fun c => contains lb c = true) word /\
  adjacent (fun a b => onSameWall lb a b = false) word.
Proof.
  rewrite canMakeWord_true_iff, no_pair_adjacent, no_foreign_Forall.
  unfold too_short, size, kMinWordLength. split; intros (H1 & H2 & H3); (split; [lia|done]).
Qed.

Lemma adjacent_reverse (P : ascii -> ascii -> Prop) (l : list ascii) :
  (forall a b, P a b -> P b a) -> adjacent P l -> adjacent P (reverse l).
Proof.
  intros Hsym H i a b Ha Hb.
  pose proof (lookup_lt_Some _ _ _ Hb) as Hlt. rewrite length_reverse in Hlt.
  rewrite reverse_lookup in Ha by lia. rewrite reverse_lookup in Hb by lia.
  apply Hsym. apply (H (length l - Datatypes.S (Datatypes.S i))%nat); [done|].
  rewrite <- Ha. f_equal. lia.
Qed.

(** X8. [canMakeWord] reads a word the same in both directions: it accepts
    the reversed word exactly when it accepts the word. *)
Theorem canMakeWord_reverse (lb : LetterBox) (word : list ascii) :
  canMakeWord lb (reverse word) = canMakeWord lb word.
Proof.
  assert (Hsym : forall a b, onSameWall lb a b = false -> onSameWall lb b a = false).
  { intros a b H. by rewrite onSameWall_sym. }
  assert (Hdir : forall w, canMakeWord lb w = true -> canMakeWord lb (reverse w) = true).
  { intros w. rewrite !canMakeWord_Forall_adjacent, length_reverse.
    intros (Hlen & Hall & Hadj). split; [done|]. split.
    - rewrite Forall_forall in *. intros c Hc. apply Hall. by apply elem_of_reverse.
    - by apply adjacent_reverse. }
  destruct (canMakeWord lb word) eqn:Hw.
  - by apply Hdir.
  - destruct (canMakeWord lb (reverse word)) eqn:Hr; [|done].
    apply Hdir in Hr. rewrite reverse_involutive in Hr. congruence.
Qed.

(** X9. Two words of at least [kMinWordLength] letters written one after
    the other are accepted exactly when both are accepted and the last
    letter of the first is not on the wall of the first letter of the
    second. *)
Theorem canMakeWord_app (lb : LetterBox) (word1 word2 : list ascii) :
  kMinWordLength <= size word1 -> kMinWordLength <= size word2 ->
  canMakeWord lb (word1 ++ word2) = true <->
  canMakeWord lb word1 = true /\ canMakeWord lb word2 = true /\
  (forall a b, last word1 = Some a -> head word2 = Some b -> onSameWall lb a b = false).
Proof.
  unfold kMinWordLength, size. intros H1 H2.
  rewrite !canMakeWord_Forall_adjacent, length_app, Forall_app, adjacent_app.
  split.
  - intros (_ & [Ha Hb] & Hadj1 & Hadj2 & Hjoin). repeat split; (lia || done).
  - intros ((_ & Ha & Hadj1) & (_ & Hb & Hadj2) & Hjoin). repeat split; (lia || done).
Qed.

(** X10. A word that a constructed puzzle accepts has no letter twice in a
    row, and between 2 and [numLetters] distinct letters. *)
Theorem canMakeWord_distinct_letters (input : list ascii) (lb : LetterBox)
    (word : list ascii) :
  LetterBox_new input = Done lb ->
  canMakeWord lb word = true ->
  (forall i a b, word !! i = Some a -> word !! Datatypes.S i = Some b -> a <> b) /\
  2 <= nUniqueLetters (Word_new word) <= numLetters lb.
Proof.
  intros Hnew Hcan.
  apply canMakeWord_Forall_adjacent in Hcan as (Hlen & Hall & Hadj).
  rewrite Forall_forall in Hall.
  assert (Hneq : forall i a b, word !! i = Some a -> word !! Datatypes.S i = Some b -> a <> b).
  { intros i a b Ha Hb ->.
    pose proof (Hadj i b b Ha Hb) as Hs. cbv beta in Hs.
    rewrite (onSameWall_self input lb b Hnew), Hall in Hs; [done|].
    by eapply list_elem_of_lookup_2. }
  split; [done|]. rewrite Word_new_unique. unfold numLetters. split.
  - destruct word as [|a [|b word]]; simpl in Hlen; [lia|lia|].
    assert (Hab : a <> b) by (by apply (Hneq 0%nat)).
    assert (Hsub : ({[a; b]} : gset ascii) ⊆ list_to_set (a :: b :: word)) by set_solver.
    apply subseteq_size in Hsub. rewrite size_union in Hsub by set_solver.
    rewrite !size_singleton in Hsub. lia.
  - assert (Hsub : (list_to_set word : gset ascii) ⊆ letters lb).
    { intros c Hc. apply elem_of_list_to_set in Hc. apply Hall in Hc.
      unfold contains in Hc. by apply bool_decide_eq_true in Hc. }
    apply subseteq_size in Hsub. lia.
Qed.

(** ** [Word] *)

Lemma remove_dups_length_le (l : list ascii) : (length (remove_dups l) <= length l)%nat.
Proof.
  induction l as [|x l IH]; simpl; [done|].
  destruct (decide_rel elem_of x l); simpl; lia.
Qed.

Lemma remove_dups_length_eq (l : list ascii) :
  length (remove_dups l) = length l <-> NoDup l.
Proof.
  induction l as [|x l IH]; simpl.
  - split; [constructor|done].
  - pose proof (remove_dups_length_le l) as Hle.
    destruct (decide_rel elem_of x l) as [Hin|Hnin]; simpl.
    + split; [lia|]. intros Hnd. apply NoDup_cons in Hnd as [Hx _]. done.
    + rewrite NoDup_cons. split.
      * intros H. split; [done|]. apply IH. lia.
      * intros [_ H]. apply IH in H. lia.
Qed.

Lemma size_list_to_set_remove_dups (l : list ascii) :
  base.size (list_to_set l : gset ascii) = length (remove_dups l).
Proof.
  rewrite <- (size_list_to_set (C:=gset ascii) (remove_dups l)) by apply NoDup_remove_dups.
  f_equal. apply set_eq. intros x. by rewrite !elem_of_list_to_set, elem_of_remove_dups.
Qed.

(** X11. The constructor of [Word] counts the distinct characters of the
    text: the count is the length of the text without its repetitions, at
    most the length of the text and at most 256, equal to the length
    exactly when no character comes twice, and the same for two texts
    with the same characters in another order. *)
Theorem Word_new_count (word : list ascii) :
  content (Word_new word) = word /\
  nUniqueLetters (Word_new word) = Z.of_nat (length (remove_dups word)) /\
  0 <= nUniqueLetters (Word_new word) <= Z.min (Word_size (Word_new word)) 256 /\
  (nUniqueLetters (Word_new word) = Word_size (Word_new word) <-> NoDup word) /\
  (forall word', word ≡ₚ word' ->
     nUniqueLetters (Word_new word') = nUniqueLetters (Word_new word)).
Proof.
  split; [done|]. rewrite Word_new_unique, size_list_to_set_remove_dups.
  split; [done|]. unfold Word_size, size. change (content (Word_new word)) with word.
  pose proof (remove_dups_length_le word) as Hle.
  pose proof (NoDup_ascii_length _ (NoDup_remove_dups word)) as H256.
  split; [lia|]. split.
  - rewrite <- remove_dups_length_eq. lia.
  - intros word' Hp. rewrite Word_new_unique. rewrite <- size_list_to_set_remove_dups.
    do 2 f_equal. apply set_eq. intros x. rewrite !elem_of_list_to_set. by rewrite Hp.
Qed.

(** X12. [Word::operator[]] on an [int]: inside the text it returns the
    character at the index, outside (negative, or at or past the length) it
    exits; it never reads outside the text. *)
Theorem Word_at_bounds (w : Word) (index : Z) :
  INT_MIN <= index <= INT_MAX ->
  (0 <= index < Word_size w ->
   exists c, content w !! Z.to_nat index = Some c /\ Word_at w index = Done c) /\
  (index < 0 \/ Word_size w <= index -> Word_at w index = Exited).
Proof.
  unfold Word_at, INT_MIN, INT_MAX, int_bits, Word_size, size. intros Hint.
  change (2 ^ (32 - 1)) with 2147483648 in Hint. split.
  - intros Hin. rewrite to_size_t_small by lia.
    destruct (Z.ltb_spec index 0); [lia|].
    destruct (Z.leb_spec (Z.of_nat (length (content w))) index); [lia|]. simpl.
    destruct (lookup_lt_is_Some_2 (content w) (Z.to_nat index)) as [c Hc]; [lia|].
    exists c. split; [done|].
    rewrite <- (Z2Nat.id index) by lia. by apply string_at_lookup.
  - intros [Hneg|Hbig].
    + destruct (Z.ltb_spec index 0); [done|lia].
    + destruct (Z.ltb_spec index 0); [done|].
      rewrite to_size_t_small by lia.
      destruct (Z.leb_spec (Z.of_nat (length (content w))) index); [done|lia].
Qed.

Lemma nat_of_ascii_inj a b : nat_of_ascii a = nat_of_ascii b -> a = b.
Proof.
  intros H. rewrite <- (ascii_nat_embedding a), <- (ascii_nat_embedding b). by rewrite H.
Qed.

Lemma string_ltb_irrefl l : string_ltb l l = false.
Proof.
  induction l as [|a l IH]; simpl; [done|].
  destruct (Nat.ltb_spec (nat_of_ascii a) (nat_of_ascii a)); [lia|done].
Qed.

Lemma string_ltb_trans l1 l2 l3 :
  string_ltb l1 l2 = true -> string_ltb l2 l3 = true -> string_ltb l1 l3 = true.
Proof.
  revert l2 l3. induction l1 as [|a l1 IH]; intros [|b l2] [|c l3]; simpl; try done.
  destruct (Nat.ltb_spec (nat_of_ascii a) (nat_of_ascii b)),
           (Nat.ltb_spec (nat_of_ascii b) (nat_of_ascii a)),
           (Nat.ltb_spec (nat_of_ascii b) (nat_of_ascii c)),
           (Nat.ltb_spec (nat_of_ascii c) (nat_of_ascii b)),
           (Nat.ltb_spec (nat_of_ascii a) (nat_of_ascii c)),
           (Nat.ltb_spec (nat_of_ascii c) (nat_of_ascii a));
    try done; try lia.
  apply IH.
Qed.

Lemma string_ltb_total l1 l2 :
  string_ltb l1 l2 = false -> string_ltb l2 l1 = false -> l1 = l2.
Proof.
  revert l2. induction l1 as [|a l1 IH]; intros [|b l2]; simpl; try done.
  destruct (Nat.ltb_spec (nat_of_ascii a) (nat_of_ascii b)),
           (Nat.ltb_spec (nat_of_ascii b) (nat_of_ascii a)); try done; try lia.
  intros H1 H2. f_equal; [apply nat_of_ascii_inj; lia|by apply IH].
Qed.

(** X13. [operator<] and [operator==] of [Word] read the text only, and
    [operator<] is a strict total order for [operator==]: no word is below
    itself, the order is transitive, and of two words that are not equal
    one is below the other. Two words built by the constructor are equal
    for [operator==] exactly when they are the same word. *)
Theorem Word_order :
  (forall a, Word_ltb a a = false) /\
  (forall a b c, Word_ltb a b = true -> Word_ltb b c = true -> Word_ltb a c = true) /\
  (forall a b, Word_eqb a b = false -> Word_ltb a b = true \/ Word_ltb b a = true) /\
  (forall a b, Word_eqb a b = true -> Word_ltb a b = false /\ Word_ltb b a = false) /\
  (forall text1 text2,
     Word_eqb (Word_new text1) (Word_new text2) = true <-> Word_new text1 = Word_new text2).
Proof.
  unfold Word_ltb, Word_eqb. split; [|split; [|split; [|split]]].
  - intros a. apply string_ltb_irrefl.
  - intros a b c. apply string_ltb_trans.
  - intros a b Hne. apply bool_decide_eq_false in Hne.
    destruct (string_ltb (content a) (content b)) eqn:H1; [by left|].
    destruct (string_ltb (content b) (content a)) eqn:H2; [by right|].
    exfalso. apply Hne. by apply string_ltb_total.
  - intros a b Heq. apply bool_decide_eq_true in Heq. rewrite Heq.
    by rewrite string_ltb_irrefl.
  - intros text1 text2. rewrite bool_decide_eq_true. simpl. split.
    + by intros ->.
    + by intros [= ->].
Qed.

(** ** The catalog, again *)

Lemma catalog_lookup lb dict tbl c :
  catalog_of lb dict tbl ->
  is_Some (tbl !! c) <->
  exists word, word ∈ dict /\ canMakeWord lb word = true /\ head word = Some c.
Proof.
  intros Hcat. destruct (Hcat c) as (Hne & _ & Hel). split.
  - intros [ws Hws]. destruct ws as [|W ws]; [done|].
    assert (HW : W ∈ bucket tbl c) by (unfold bucket; rewrite Hws; by left).
    apply Hel in HW as (w & -> & Hw & Hcan & Hc). exists w.
    split; [done|]. split; [done|].
    apply canMakeWord_length in Hcan. unfold char_at in Hc.
    destruct w; simpl in *; [lia|congruence].
  - intros (w & Hw & Hcan & Hhead).
    assert (HW : Word_new w ∈ bucket tbl c).
    { apply Hel. exists w. repeat split; try done.
      unfold char_at. destruct w; simpl in *; congruence. }
    unfold bucket in HW. destruct (tbl !! c); [done|]. by apply elem_of_nil in HW.
Qed.

(** X14. The keys of the table that [buildFilteredWordList] builds are the
    first letters of the words of the dictionary that [canMakeWord]
    accepts; every key is a letter of the puzzle, and no key holds an empty
    set. A dictionary without an accepted word (an empty file, or one that
    does not open) leaves the table empty. *)
Theorem buildFilteredWordList_keys (dict : list (list ascii)) (lb : LetterBox) :
  let tbl := buildFilteredWordList dict lb ∅ in
  (forall c, is_Some (tbl !! c) <->
     exists word, word ∈ dict /\ canMakeWord lb word = true /\ head word = Some c) /\
  (forall c, is_Some (tbl !! c) -> contains lb c = true) /\
  (forall c, tbl !! c <> Some []) /\
  ((forall word, word ∈ dict -> canMakeWord lb word = false) -> tbl = ∅).
Proof.
  intros tbl. pose proof (buildFilteredWordList_catalog lb dict) as Hcat. fold tbl in Hcat.
  split; [intros c; by apply catalog_lookup|]. split; [|split].
  - intros c Hc. apply (catalog_lookup lb dict tbl c Hcat) in Hc as (w & _ & Hcan & Hhead).
    apply canMakeWord_Forall_adjacent in Hcan as (_ & Hall & _).
    rewrite Forall_forall in Hall. apply Hall.
    destruct w; simpl in Hhead; [done|]. injection Hhead as ->. by left.
  - intros c. by destruct (Hcat c).
  - intros Hnone. apply map_eq. intros c. rewrite lookup_empty.
    destruct (tbl !! c) eqn:Hl; [|done].
    assert (Hs : is_Some (tbl !! c)) by (by eexists).
    apply (catalog_lookup lb dict tbl c Hcat) in Hs as (w & Hw & Hcan & _).
    rewrite (Hnone w Hw) in Hcan. done.
Qed.

(** X15. Reading words again changes nothing: after the dictionary, a
    second list of lines that are all lines of the dictionary leaves the
    table as it is (the table is a reference the function adds to). *)
Theorem buildFilteredWordList_again (dict again : list (list ascii)) (lb : LetterBox) :
  (forall word, word ∈ again -> word ∈ dict) ->
  buildFilteredWordList again lb (buildFilteredWordList dict lb ∅)
  = buildFilteredWordList dict lb ∅.
Proof.
  pose proof (buildFilteredWordList_catalog lb dict) as Hcat.
  set (tbl := buildFilteredWordList dict lb ∅) in *.
  induction again as [|word again IH]; intros Hsub; [done|].
  unfold buildFilteredWordList. cbn [foldl]. fold (buildFilteredWordList again lb).
  assert (Hstep : (if negb (canMakeWord lb word) then tbl
                   else <[ char_at word 0 :=
                           unordered_set_insert (Word_new word)
                             (default [] (tbl !! char_at word 0)) ]> tbl) = tbl).
  { destruct (canMakeWord lb word) eqn:Hcan; [|done]. cbn [negb].
    destruct (Hcat (char_at word 0)) as (_ & _ & Hel).
    assert (HW : Word_new word ∈ bucket tbl (char_at word 0)).
    { apply Hel. exists word. repeat split; try done. apply Hsub. by left. }
    unfold bucket in HW. destruct (tbl !! char_at word 0) as [ws|] eqn:Hl;
      [|by apply elem_of_nil in HW].
    cbn [default id] in *. unfold unordered_set_insert.
    assert (Hex : existsb (Word_eqb (Word_new word)) ws = true).
    { apply existsb_Word_eqb. by exists (Word_new word). }
    rewrite Hex. by apply insert_id. }
  rewrite Hstep. apply IH. intros w Hw. apply Hsub. by right.
Qed.

(** X16. The table depends on the lines of the dictionary as a set: two
    dictionaries with the same lines, in any order and any number of
    times, give under every letter the same words, up to their order in
    the set. *)
Theorem buildFilteredWordList_same_lines (dict dict' : list (list ascii))
    (lb : LetterBox) :
  (forall word, word ∈ dict <-> word ∈ dict') ->
  forall c, bucket (buildFilteredWordList dict lb ∅) c
            ≡ₚ bucket (buildFilteredWordList dict' lb ∅) c.
Proof.
  intros Hsame c.
  destruct (buildFilteredWordList_catalog lb dict c) as (_ & Hnd & Hel).
  destruct (buildFilteredWordList_catalog lb dict' c) as (_ & Hnd' & Hel').
  apply NoDup_Permutation.
  - by apply NoDup_fmap_1 in Hnd.
  - by apply NoDup_fmap_1 in Hnd'.
  - intros W. rewrite Hel, Hel'. split; intros (w & -> & Hw & H); exists w;
      (split; [done|]); (split; [by apply Hsame|done]).
Qed.

(** ** The search, again *)

Lemma reaches_prefix tbl nWords start remaining chosen final uncovered :
  reaches tbl nWords start remaining chosen final uncovered ->
  chosen `prefix_of` final.
Proof.
  induction 1 as [|? ? ? ? ? ? ? ? ? _ _ _ _ _ IH]; [done|].
  etrans; [|exact IH]. by apply prefix_app_r.
Qed.

Lemma prefix_snoc_lookup {A} (l : list A) x k :
  (l ++ [x]) `prefix_of` k -> k !! length l = Some x.
Proof.
  intros [rest ->]. rewrite <- app_assoc. rewrite lookup_app_r by lia.
  by rewrite Nat.sub_diag.
Qed.

(** A call never lists a solution twice, when no set of the table holds a
    word twice. *)
Lemma solutions_from_NoDup (tbl : WordTable) nWords :
  (forall c, NoDup (content <$> bucket tbl c)) ->
  forall start remaining chosen found,
    solutions_from true tbl nWords start remaining chosen = Done found ->
    NoDup found.
Proof.
  intros Hnd. induction nWords as [|n IH]; intros start remaining chosen found Hrun.
  - cbn [solutions_from] in Hrun. injection Hrun as <-.
    destruct (decide (remaining = ∅)); [apply NoDup_singleton|apply NoDup_nil_2].
  - cbn [solutions_from] in Hrun.
    destruct (tbl !! start) as [words|] eqn:Hlook; cycle 1.
    { injection Hrun as <-. apply NoDup_nil_2. }
    assert (Hwords : NoDup (content <$> words)).
    { specialize (Hnd start). unfold bucket in Hnd. by rewrite Hlook in Hnd. }
    assert (Hloop : forall ws found0 found1,
      NoDup (content <$> ws) -> NoDup found0 ->
      (forall sol V, sol ∈ found0 -> V ∈ ws -> sol !! length chosen <> Some (content V)) ->
      for_each (fun found word =>
          if true && pruned (Datatypes.S n) remaining word then Done found
          else
            last' ← Word_last word;
            more ← solutions_from true tbl n last'
                     (erase_all remaining (content word)) (chosen ++ [content word]);
            Done (found ++ more)) ws found0 = Done found1 ->
      NoDup found1).
    { induction ws as [|W ws IHw]; intros found0 found1 Hws Hf0 Hsep Hloop.
      - cbn [for_each] in Hloop. by injection Hloop as <-.
      - cbn [for_each andb] in Hloop. rewrite fmap_cons in Hws.
        apply NoDup_cons in Hws as [HW Hws].
        destruct (pruned (Datatypes.S n) remaining W).
        + cbn [mbind outcome_bind] in Hloop. apply (IHw found0 found1 Hws Hf0); [|done].
          intros sol V Hsol HV. apply Hsep; [done|by right].
        + destruct (Word_last W) as [c| |];
            cbn [mbind outcome_bind] in Hloop; [|done|done].
          destruct (solutions_from true tbl n c _ _) as [more| |] eqn:Hmore;
            cbn [mbind outcome_bind] in Hloop; [|done|done].
          assert (Hat : forall sol, sol ∈ more -> sol !! length chosen = Some (content W)).
          { intros sol Hsol. apply prefix_snoc_lookup.
            apply (solutions_from_reaches tbl n _ _ _ _ Hmore) in Hsol.
            by eapply reaches_prefix. }
          apply (IHw (found0 ++ more) found1 Hws); [| |done].
          * apply NoDup_app. split; [done|]. split; [|by eapply IH].
            intros sol Hsol Hsol'. apply (Hsep sol W Hsol); [by left|by apply Hat].
          * intros sol V Hsol HV. apply elem_of_app in Hsol as [Hsol|Hsol].
            -- apply Hsep; [done|by right].
            -- rewrite (Hat sol Hsol). intros [= Heq]. apply HW.
               rewrite Heq. by apply list_elem_of_fmap_2. }
    apply (Hloop _ _ _ Hwords (NoDup_nil_2)) in Hrun; [done|].
    intros sol V Hsol. by apply elem_of_nil in Hsol.
Qed.

Lemma NoDup_concat_Forall2 {A B} (R : A -> list B -> Prop) (P : A -> B -> Prop) l ys :
  Forall2 R l ys -> NoDup l ->
  (forall x y, R x y -> NoDup y) ->
  (forall x y s, R x y -> s ∈ y -> P x s) ->
  (forall x x' s, P x s -> P x' s -> x = x') ->
  NoDup (concat ys).
Proof.
  intros HR Hl Hnd HP Hfun.
  assert (Hin : forall s, s ∈ concat ys -> exists x, x ∈ l /\ P x s).
  { clear Hl. induction HR as [|x y l ys Hxy _ IH]; intros s Hs; simpl in Hs.
    - by apply elem_of_nil in Hs.
    - apply elem_of_app in Hs as [Hs|Hs].
      + exists x. split; [by left|by eapply HP].
      + destruct (IH s Hs) as (x' & Hx' & HPx'). exists x'. split; [by right|done]. }
  revert Hl Hin. induction HR as [|x y l ys Hxy HR IH]; intros Hl Hin; simpl.
  - apply NoDup_nil_2.
  - apply NoDup_cons in Hl as [Hx Hl]. apply NoDup_app. split; [by eapply Hnd|].
    assert (Htail : forall s, s ∈ concat ys -> exists x', x' ∈ l /\ P x' s).
    { clear -HR HP. induction HR as [|x y l ys Hxy _ IH]; intros s Hs; simpl in Hs.
      - by apply elem_of_nil in Hs.
      - apply elem_of_app in Hs as [Hs|Hs].
        + exists x. split; [by left|by eapply HP].
        + destruct (IH s Hs) as (x' & Hx' & HPx'). exists x'. split; [by right|done]. }
    split; [|by apply IH].
    intros s Hs Hs'. destruct (Htail s Hs') as (x' & Hx' & HPx').
    assert (x = x') as <- by (eapply Hfun; [by eapply HP|done]). done.
Qed.

Lemma chained_chain_from (sol : Solution) :
  forall start,
    Forall (fun word => word <> []) sol -> chained sol ->
    (forall word, head sol = Some word -> head word = Some start) ->
    chain_from start sol.
Proof.
  induction sol as [|w sol IH]; intros start Hne Hch Hhead; [done|].
  apply Forall_cons in Hne as [Hw Hne]. cbn [chain_from].
  split; [by apply Hhead|].
  destruct (last w) as [c|] eqn:Hc; [|by apply last_None in Hc].
  exists c. split; [done|]. apply IH; [done| |].
  - intros i a b Ha Hb. by apply (Hch (Datatypes.S i) a b).
  - intros w' Hw'. destruct sol as [|w'' sol]; [done|]. injection Hw' as ->.
    destruct (Hch 0%nat w w' eq_refl eq_refl) as (c' & Hc' & Hh). congruence.
Qed.

Section Complete.

Variables (lb : LetterBox) (dict : list (list ascii)) (tbl : WordTable).
Hypothesis Hcat : catalog_of lb dict tbl.
Hypothesis Hshort : forall word, word ∈ dict -> size word <= 2 ^ 31.

(** The words a branch adds are accepted lines of the dictionary. *)
Lemma reaches_words nWords start remaining chosen final uncovered :
  reaches tbl nWords start remaining chosen final uncovered ->
  exists rest, final = chosen ++ rest /\ length rest = nWords /\
    Forall (fun word => word ∈ dict /\ canMakeWord lb word = true) rest.
Proof.
  induction 1 as [|n start remaining chosen words W c final uncovered
                   Hl HW _ _ _ (rest & -> & Hlen & Hall)].
  - exists []. by rewrite app_nil_r.
  - exists (content W :: rest). rewrite <- app_assoc. split; [done|].
    split; [simpl; lia|]. constructor; [|done].
    destruct (Hcat start) as (_ & _ & Hel).
    apply (lookup_bucket tbl start words W Hl), Hel in HW as (w & -> & Hw & Hcan & _).
    done.
Qed.

(** Every chain of accepted words that holds the letters still to cover
    is a branch of the search. *)
Lemma reaches_complete (rest : Solution) :
  forall start remaining chosen,
    Forall (fun word => word ∈ dict /\ canMakeWord lb word = true) rest ->
    chain_from start rest ->
    remaining ⊆ list_to_set (concat rest) ->
    reaches tbl (length rest) start remaining chosen (chosen ++ rest) ∅.
Proof.
  induction rest as [|w rest IH]; intros start remaining chosen Hall Hchain Hrem.
  - simpl in Hrem. assert (remaining = ∅) as -> by set_solver.
    rewrite app_nil_r. constructor.
  - apply Forall_cons in Hall as [[Hw Hcan] Hall].
    destruct Hchain as (Hhead & c & Hc & Hchain).
    destruct (Hcat start) as (_ & _ & Hel).
    assert (HW : Word_new w ∈ bucket tbl start).
    { apply Hel. exists w. repeat split; try done.
      unfold char_at. destruct w; simpl in *; congruence. }
    destruct (catalog_word lb dict tbl Hcat Hshort _ _ HW) as (_ & _ & _ & c' & Hc' & Hlast).
    change (content (Word_new w)) with w in Hc'.
    assert (c' = c) as -> by congruence.
    assert (Hl : exists words, tbl !! start = Some words /\ Word_new w ∈ words).
    { unfold bucket in HW. destruct (tbl !! start) as [words|]; [by exists words|].
      by apply elem_of_nil in HW. }
    destruct Hl as (words & Hl & Hin).
    cbn [length]. eapply (reaches_word tbl _ _ _ _ words (Word_new w) c); try done.
    + unfold pruned. destruct rest as [|w' rest]; [|done].
      cbn [length Nat.eqb andb]. rewrite Word_new_unique.
      simpl in Hrem. rewrite app_nil_r in Hrem.
      apply subseteq_size in Hrem. rewrite Z.gtb_ltb. apply Z.ltb_ge.
      change (content (Word_new w)) with w. lia.
    + change (content (Word_new w)) with w.
      replace (chosen ++ w :: rest) with ((chosen ++ [w]) ++ rest)
        by (by rewrite <- app_assoc).
      apply IH; [done|done|].
      rewrite erase_all_difference. simpl in Hrem.
      rewrite list_to_set_app_L in Hrem. set_solver.
Qed.

Lemma valid_solution_reaches nWords sol :
  (1 <= nWords)%nat ->
  valid_solution lb dict nWords sol ->
  exists ch, ch ∈ getLetters lb /\ reaches tbl nWords ch (getLetters lb) [] sol ∅.
Proof.
  intros Hn (Hlen & Hall & Hch & Hcov).
  destruct sol as [|w sol]; [simpl in Hlen; lia|].
  pose proof (Forall_inv Hall) as [Hw Hcan].
  pose proof (canMakeWord_length _ _ Hcan) as Hwlen.
  destruct w as [|ch w]; [simpl in Hwlen; unfold kMinWordLength, size in Hwlen;
                          simpl in Hwlen; lia|].
  exists ch. split.
  - rewrite <- Hcov. simpl. set_solver.
  - rewrite <- Hlen. apply (reaches_complete (( ch :: w) :: sol) ch (getLetters lb) []).
    + done.
    + apply chained_chain_from; [|done|by intros ? [= <-]].
      eapply Forall_impl; [exact Hall|]. intros x [_ Hx] ->. done.
    + by rewrite Hcov.
Qed.

Lemma reaches_first n ch remaining sol uncovered :
  reaches tbl (Datatypes.S n) ch remaining [] sol uncovered ->
  exists word, head sol = Some word /\ head word = Some ch.
Proof.
  inversion 1 as [|? ? ? ? words W c ? ? Hl HW _ _ Hr]; subst.
  apply reaches_prefix in Hr as [rest ->]. exists (content W). split; [done|].
  by destruct (catalog_word lb dict tbl Hcat Hshort ch W (lookup_bucket tbl _ _ _ Hl HW))
    as (_ & Hhead & _).
Qed.

(** The whole search appends the solutions of the game, each once. *)
Lemma generateSolutions_exact sched nWords solutions :
  (1 <= nWords)%nat -> Z.of_nat nWords < 2 ^ 32 ->
  exists appended,
    generateSolutions sched lb nWords tbl solutions = Done (solutions ++ appended) /\
    NoDup appended /\
    forall sol, sol ∈ appended <-> valid_solution lb dict nWords sol.
Proof.
  intros Hn Hn32.
  destruct (generateSolutions_good lb dict tbl nWords Hcat Hshort Hn32 sched solutions)
    as (appended & Hrun & Hgood & Hreach).
  exists appended. split; [done|]. split.
  - rewrite (generateSolutions_threads lb tbl nWords Hn32) in Hrun.
    destruct (mapM _ _) as [ys| |] eqn:Hys; cbn [mbind outcome_bind] in Hrun; [|done|done].
    injection Hrun as Happ. apply app_inv_head in Happ. subst appended.
    rewrite interleave_Permutation.
    apply mapM_outcome_Forall2 in Hys.
    eapply (NoDup_concat_Forall2 _
              (fun ch sol => exists word, head sol = Some word /\ head word = Some ch)
              _ _ Hys).
    + apply NoDup_elements.
    + intros ch found Hfound. eapply solutions_from_NoDup; [|exact Hfound].
      intros c. by destruct (Hcat c) as (_ & Hnd & _).
    + intros ch found sol Hfound Hsol.
      apply (solutions_from_reaches tbl nWords _ _ _ _ Hfound) in Hsol.
      destruct nWords as [|n]; [lia|]. by eapply reaches_first.
    + intros ch ch' sol (w & Hw & Hc) (w' & Hw' & Hc'). congruence.
  - intros sol. split.
    + intros Hsol. destruct (Hgood sol Hsol) as (Hlen & Hch & Hcov).
      apply Hreach in Hsol as (ch & _ & Hr).
      apply reaches_words in Hr as (rest & -> & _ & Hall). by repeat split.
    + intros Hvalid. apply Hreach. by apply valid_solution_reaches.
Qed.

End Complete.

(** X17. The search is exact. Over the catalog that [buildFilteredWordList]
    builds from a dictionary whose lines have at most [2 ^ 31] characters,
    [generateSolutions] with a budget of at least one word appends every
    solution of the game once and nothing else: a list of words is appended
    if and only if it has [nWords] words, each of them a line of the
    dictionary that [canMakeWord] accepts, its consecutive words chain, and
    the letters of its words are the letters of the puzzle. *)
Theorem generateSolutions_complete (sched : list nat) (lb : LetterBox)
    (dict : list (list ascii)) (nWords : nat) (solutions : list Solution) :
  (forall word, word ∈ dict -> size word <= 2 ^ 31) ->
  (1 <= nWords)%nat -> Z.of_nat nWords < 2 ^ 32 ->
  exists appended,
    generateSolutions sched lb nWords (buildFilteredWordList dict lb ∅) solutions
    = Done (solutions ++ appended) /\
    NoDup appended /\
    forall sol, sol ∈ appended <-> valid_solution lb dict nWords sol.
Proof.
  intros Hshort Hn Hn32.
  apply (generateSolutions_exact lb dict); [|done|done|done].
  apply buildFilteredWordList_catalog.
Qed.

(** X18. The solutions do not depend on how the dictionary is written: two
    dictionaries of lines of at most [2 ^ 31] characters with the same lines,
    in any order and any number of times, searched under any two orders of
    the threads, give the same solutions up to their order in the vector. *)
Theorem generateSolutions_same_lines (sched sched' : list nat) (lb : LetterBox)
    (dict dict' : list (list ascii)) (nWords : nat) :
  (forall word, word ∈ dict -> size word <= 2 ^ 31) ->
  (forall word, word ∈ dict <-> word ∈ dict') ->
  (1 <= nWords)%nat -> Z.of_nat nWords < 2 ^ 32 ->
  exists sols sols',
    generateSolutions sched lb nWords (buildFilteredWordList dict lb ∅) [] = Done sols /\
    generateSolutions sched' lb nWords (buildFilteredWordList dict' lb ∅) [] = Done sols' /\
    sols ≡ₚ sols'.
Proof.
  intros Hshort Hsame Hn Hn32.
  assert (Hshort' : forall word, word ∈ dict' -> size word <= 2 ^ 31)
    by (intros w Hw; by apply Hshort, Hsame).
  destruct (generateSolutions_exact lb dict _ (buildFilteredWordList_catalog lb dict)
              Hshort sched nWords [] Hn Hn32) as (sols & Hrun & Hnd & Hin).
  destruct (generateSolutions_exact lb dict' _ (buildFilteredWordList_catalog lb dict')
              Hshort' sched' nWords [] Hn Hn32) as (sols' & Hrun' & Hnd' & Hin').
  exists sols, sols'. split; [done|]. split; [done|].
  apply NoDup_Permutation; [done|done|].
  intros sol. rewrite Hin, Hin'. unfold valid_solution.
  split; intros (Hlen & Hall & Hrest); (split; [done|]); (split; [|done]);
    (eapply Forall_impl; [exact Hall|]); intros w [Hw Hcan]; (split; [|done]);
    by apply Hsame.
Qed.

Lemma generateSolutions_no_thread_finds sched lb nWords tbl solutions :
  (forall ch, ch ∈ getLetters lb -> generateSolutions_thread lb nWords tbl ch = Done []) ->
  generateSolutions sched lb nWords tbl solutions = Done solutions.
Proof.
  intros Hnone. unfold generateSolutions.
  destruct (mapM_outcome_Done (generateSolutions_thread lb nWords tbl)
              (fun found => found = []) (elements (getLetters lb)))
    as (appended & -> & Hnil).
  { intros ch Hch. exists []. split; [|done]. by apply Hnone, elem_of_elements. }
  cbn [mbind outcome_bind]. rewrite interleave_nil by done. by rewrite app_nil_r.
Qed.

(** X19. Where there is nothing to find, the search ends and leaves the
    vector of solutions as it was, under every order of the threads and
    whatever the table holds elsewhere: with a budget of no words; with a
    puzzle of no letters; and with a table that has no key among the
    letters of the puzzle, such as the table of an empty dictionary. *)
Theorem generateSolutions_nothing (sched : list nat) (lb : LetterBox)
    (tbl : WordTable) (solutions : list Solution) :
  generateSolutions sched lb 0 tbl solutions = Done solutions /\
  (forall nWords, getLetters lb = ∅ ->
     generateSolutions sched lb nWords tbl solutions = Done solutions) /\
  (forall nWords, (forall ch, ch ∈ getLetters lb -> tbl !! ch = None) ->
     generateSolutions sched lb nWords tbl solutions = Done solutions) /\
  (forall nWords, generateSolutions sched lb nWords ∅ solutions = Done solutions).
Proof.
  assert (Hzero : generateSolutions sched lb 0 tbl solutions = Done solutions).
  { apply generateSolutions_no_thread_finds. intros ch Hch.
    unfold generateSolutions_thread. cbn [generateSolutionsRec].
    rewrite decide_False by set_solver. done. }
  assert (Hkeys : forall tbl' nWords,
            (forall ch, ch ∈ getLetters lb -> tbl' !! ch = None) ->
            generateSolutions sched lb nWords tbl' solutions = Done solutions).
  { intros tbl' nWords Hnone. apply generateSolutions_no_thread_finds. intros ch Hch.
    unfold generateSolutions_thread. destruct nWords as [|n]; cbn [generateSolutionsRec].
    - rewrite decide_False by set_solver. done.
    - by rewrite (Hnone ch Hch). }
  split; [done|]. split; [|split].
  - intros nWords Hempty. apply Hkeys. intros ch Hch. rewrite Hempty in Hch.
    by apply not_elem_of_empty in Hch.
  - intros nWords. apply Hkeys.
  - intros nWords. apply Hkeys. intros ch _. apply lookup_empty.
Qed.

Lemma reaches_length tbl nWords start remaining chosen final uncovered :
  reaches tbl nWords start remaining chosen final uncovered ->
  length final = (length chosen + nWords)%nat.
Proof.
  induction 1 as [|? ? ? ? ? ? ? ? ? _ _ _ _ _ IH]; [lia|].
  rewrite IH, length_app. simpl. lia.
Qed.

(** X20. A call of [generateSolutionsRec] that ends only adds to the shared
    vector. From a state in which [result] holds the words [chosen] and has
    room for [nWords] more, whatever the table, the vector [solutions] is
    a prefix of the vector left, every solution added starts with the words
    [chosen] and has as many words as [result], and [result] is left with
    its length and with the words [chosen] in place. *)
Theorem generateSolutionsRec_frame (lb : LetterBox) (tbl : WordTable) (nWords : nat)
    (start : ascii) (remaining : gset ascii) (chosen result : Solution)
    (solutions : list Solution) (result' : Solution) (solutions' : list Solution) :
  fits chosen nWords result ->
  generateSolutionsRec lb nWords start remaining result solutions tbl
  = Done (result', solutions') ->
  fits chosen nWords result' /\
  solutions `prefix_of` solutions' /\
  Forall (fun sol => chosen `prefix_of` sol /\ length sol = length result)
    (drop (length solutions) solutions').
Proof.
  intros Hfits Hrun. rewrite generateSolutionsRec_searchRec in Hrun.
  pose proof (searchRec_appends tbl true nWords start remaining chosen result
                solutions Hfits) as Happ.
  destruct (solutions_from true tbl nWords start remaining chosen) as [found| |] eqn:Hfound;
    cbn [appends] in Happ; [|congruence|congruence].
  destruct Happ as (r & Hr & Heq). rewrite Heq in Hrun. injection Hrun as <- <-.
  split; [done|]. split; [by apply prefix_app_r|].
  rewrite drop_app_length. apply Forall_forall. intros sol Hsol.
  apply (solutions_from_reaches tbl nWords _ _ _ _ Hfound) in Hsol.
  split; [by eapply reaches_prefix|].
  apply reaches_length in Hsol. destruct Hfits as (Hlen & _). lia.
Qed.

(** ** The prompts *)

Lemma toupper_not_lower c : islower (toupper c) = false.
Proof. destruct c as [[] [] [] [] [] [] [] []]; reflexivity. Qed.

Lemma toupper_fixes c : islower c = false -> toupper c = c.
Proof. unfold toupper, islower. by intros ->. Qed.

Lemma map_toupper_fixes (input : list ascii) :
  Forall (fun c => islower c = false) input -> map toupper input = input.
Proof.
  induction 1 as [|c input Hc _ IH]; [done|].
  cbn [map]. by rewrite (toupper_fixes c Hc), IH.
Qed.

(** X21. [getLettersFromUser] returns the first line whose length is a
    multiple of [kNumWalls], the empty line included, with [toupper]
    applied to each character: the lines before it are all of another
    length, the result has the length of the line, holds no lower-case
    letter, and is the line itself when the line holds none. On lines that
    are all of another length the loop does not end. *)
Theorem getLettersFromUser_first (lines : list (list ascii)) :
  match getLettersFromUser lines with
  | Some letters =>
    exists skipped input rest,
      lines = skipped ++ input :: rest /\
      Forall (fun line => size line mod kNumWalls <> 0) skipped /\
      size input mod kNumWalls = 0 /\
      letters = map toupper input /\
      size letters = size input /\
      Forall (fun c => islower c = false) letters /\
      (Forall (fun c => islower c = false) input -> letters = input)
  | None => Forall (fun line => size line mod kNumWalls <> 0) lines
  end.
Proof.
  induction lines as [|line lines IH]; [constructor|].
  cbn [getLettersFromUser].
  destruct (Z.eqb_spec (size line mod kNumWalls) 0) as [Hz|Hnz]; cbn [negb].
  - exists [], line, lines. split; [done|]. split; [constructor|]. split; [done|].
    split; [done|]. split; [unfold size; by rewrite length_map|]. split.
    + apply Forall_forall. intros c Hc. apply list_elem_of_fmap in Hc as (c' & -> & _).
      apply toupper_not_lower.
    + apply map_toupper_fixes.
  - destruct (getLettersFromUser lines) as [letters|].
    + destruct IH as (skipped & input & rest & -> & Hsk & Hrest).
      exists (line :: skipped), input, rest. split; [done|]. split; [by constructor|done].
    + by constructor.
Qed.

(** X22. A puzzle with fewer than [kMinWordLength] distinct letters has no
    word count that [getNumWordsFromUser] accepts: the largest count is 0,
    the test rejects every value, and the loop does not end whatever is
    typed; [main] then never arrives at the search. The empty line, which
    [getLettersFromUser] returns, gives such a puzzle. *)
Theorem getNumWordsFromUser_small_puzzle (lb : LetterBox) :
  numLetters lb < kMinWordLength ->
  maxWords lb = 0 /\
  (forall n, wordCount_rejected lb n = true) /\
  (forall inputs, getNumWordsFromUser lb inputs = None) /\
  (forall sched dict letterLines numbers letters,
     getLettersFromUser letterLines = Some letters ->
     LetterBox_new letters = Done lb ->
     main_search sched dict letterLines numbers = None).
Proof.
  intros Hsmall. pose proof (numLetters_range lb) as Hrange.
  assert (Hmax : maxWords lb = 0).
  { unfold maxWords, kMinWordLength in *. rewrite Z.div_small by lia. done. }
  assert (Hrej : forall n, wordCount_rejected lb n = true).
  { intros n. unfold wordCount_rejected, minWords. rewrite Hmax.
    pose proof (to_uint_range n).
    destruct (Z.ltb_spec (to_uint n) 1); [done|].
    destruct (Z.gtb_spec (to_uint n) 0); [done|lia]. }
  assert (Hnone : forall inputs, getNumWordsFromUser lb inputs = None).
  { induction inputs as [|n inputs IH]; [done|]. cbn [getNumWordsFromUser].
    by rewrite Hrej. }
  split; [done|]. split; [done|]. split; [done|].
  intros sched dict letterLines numbers letters Hletters Hnew.
  unfold main_search. by rewrite Hletters, Hnew, Hnone.
Qed.

(** X23. [getDictionaryNameFromUser] returns a name for the first line that
    is empty or names a file that opens: the lines before it are not empty
    and name no file that opens; the name returned is never empty; it is
    the line itself, and then the file opens, or it is [DEFAULT_DICT] for
    the empty line, whether that file opens or not. On lines that are not
    empty and name no file that opens, the loop does not end. *)
Theorem getDictionaryNameFromUser_first (files : Files) (lines : list (list ascii)) :
  match getDictionaryNameFromUser files lines with
  | Some name =>
    name <> [] /\
    exists skipped line rest,
      lines = skipped ++ line :: rest /\
      Forall (fun line => line <> [] /\ files line = None) skipped /\
      ((line = [] /\ name = DEFAULT_DICT) \/
       (line <> [] /\ name = line /\ is_Some (files name)))
  | None => Forall (fun line => line <> [] /\ files line = None) lines
  end.
Proof.
  induction lines as [|line lines IH]; [constructor|].
  cbn [getDictionaryNameFromUser]. unfold fileExists.
  destruct (decide (line = [])) as [->|Hne].
  - rewrite bool_decide_eq_true_2 by done. cbn [negb andb]. split; [done|].
    exists [], [], lines. split; [done|]. split; [constructor|]. by left.
  - rewrite (bool_decide_eq_false_2 (line = [])) by done. cbn [negb andb].
    destruct (files line) as [content|] eqn:Hfile.
    + rewrite bool_decide_eq_true_2 by (by eexists). cbn [negb]. split; [done|].
      exists [], line, lines. split; [done|]. split; [constructor|]. right.
      split; [done|]. split; [done|]. rewrite Hfile. by eexists.
    + rewrite bool_decide_eq_false_2 by (by intros [? ?]). cbn [negb].
      destruct (getDictionaryNameFromUser files lines) as [name|].
      * destruct IH as (Hname & skipped & line' & rest & -> & Hsk & Hrest).
        split; [done|]. exists (line :: skipped), line', rest.
        split; [done|]. split; [by constructor|done].
      * by constructor.
Qed.

(** X24. The default dictionary is the only one [main] may fail to open:
    when the name that [getDictionaryNameFromUser] returned does not open,
    the name is [DEFAULT_DICT], [buildFilteredWordList] leaves the table
    as it was, and the search over the table built from nothing ends
    without a solution, whatever the puzzle and the word count. *)
Theorem dictionary_not_opened (files : Files) (lines : list (list ascii))
    (name : list ascii) (lb : LetterBox) :
  getDictionaryNameFromUser files lines = Some name ->
  files name = None ->
  name = DEFAULT_DICT /\
  (forall tbl, buildFilteredWordList_file files name lb tbl = tbl) /\
  (forall sched nWords solutions,
     generateSolutions sched lb nWords (buildFilteredWordList_file files name lb ∅) solutions
     = Done solutions).
Proof.
  intros Hname Hfile.
  assert (Hbuild : forall tbl, buildFilteredWordList_file files name lb tbl = tbl).
  { intros tbl. unfold buildFilteredWordList_file. by rewrite Hfile. }
  split; [|split; [done|]].
  - revert Hname. induction lines as [|line lines IH]; [done|].
    cbn [getDictionaryNameFromUser]. unfold fileExists.
    destruct (decide (line = [])) as [->|Hne].
    + rewrite bool_decide_eq_true_2 by done. cbn [negb andb]. by intros [= <-].
    + rewrite (bool_decide_eq_false_2 (line = [])) by done. cbn [negb andb].
      destruct (files line) as [content|] eqn:Hl.
      * rewrite bool_decide_eq_true_2 by (by eexists). cbn [negb].
        intros [= <-]. congruence.
      * rewrite bool_decide_eq_false_2 by (by intros [? ?]). cbn [negb]. apply IH.
  - intros sched nWords solutions. rewrite Hbuild.
    apply generateSolutions_no_thread_finds. intros ch Hch.
    unfold generateSolutions_thread. destruct nWords as [|n]; cbn [generateSolutionsRec].
    + rewrite decide_False by set_solver. done.
    + by rewrite lookup_empty.
Qed.

(** ** The output file *)

Lemma writeSolutionsToFile_lines (solutions : list Solution) :
  writeSolutionsToFile solutions = concat (map written_line solutions).
Proof.
  unfold writeSolutionsToFile.
  assert (Hinner : forall solution out,
            foldl (fun out word => out ++ word ++ [" "%char]) out solution
            = out ++ concat (map (fun word => word ++ [" "%char]) solution)).
  { induction solution as [|w solution IH]; intros out; simpl.
    - by rewrite app_nil_r.
    - rewrite IH. by rewrite <- !app_assoc. }
  assert (Houter : forall sols out,
            foldl (fun out solution =>
                     foldl (fun out word => out ++ word ++ [" "%char]) out solution
                     ++ ["010"%char]) out sols
            = out ++ concat (map written_line sols)).
  { induction sols as [|sol sols IH]; intros out; simpl.
    - by rewrite app_nil_r.
    - rewrite IH, Hinner. unfold written_line. by rewrite <- !app_assoc. }
  apply (Houter solutions []).
Qed.

Lemma plain_split (w1 : list ascii) :
  forall w2 x y, plain w1 -> plain w2 ->
    w1 ++ " "%char :: x = w2 ++ " "%char :: y -> w1 = w2 /\ x = y.
Proof.
  induction w1 as [|a w1 IH]; intros w2 x y H1 H2 Heq.
  - destruct w2 as [|b w2]; simpl in Heq; [by injection Heq as ->|].
    injection Heq as <- _. apply Forall_cons in H2 as [[H _] _]. done.
  - apply Forall_cons in H1 as [[Ha _] H1].
    destruct w2 as [|b w2]; simpl in Heq; [injection Heq as -> _; done|].
    injection Heq as -> Heq. apply Forall_cons in H2 as [_ H2].
    destruct (IH w2 x y H1 H2 Heq) as [-> ->]. done.
Qed.

Lemma written_line_inj (s1 : Solution) :
  forall s2 r1 r2, Forall plain s1 -> Forall plain s2 ->
    written_line s1 ++ r1 = written_line s2 ++ r2 -> s1 = s2 /\ r1 = r2.
Proof.
  assert (Hno : forall (w : list ascii) (s : Solution) r r',
            plain w ->
            written_line [] ++ r = written_line (w :: s) ++ r' -> False).
  { intros w s r r' Hw Heq. unfold written_line in Heq. simpl in Heq.
    destruct w as [|c w]; simpl in Heq; [by injection Heq|].
    injection Heq as <- _. apply Forall_cons in Hw as [[_ H] _]. done. }
  induction s1 as [|w1 s1 IH]; intros s2 r1 r2 H1 H2 Heq.
  - destruct s2 as [|w2 s2].
    + unfold written_line in Heq. simpl in Heq. by injection Heq as ->.
    + exfalso. apply Forall_cons in H2 as [Hw _]. by eapply Hno.
  - apply Forall_cons in H1 as [Hw1 H1]. destruct s2 as [|w2 s2].
    + exfalso. symmetry in Heq. by eapply Hno.
    + apply Forall_cons in H2 as [Hw2 H2].
      unfold written_line in Heq. simpl in Heq. rewrite <- !app_assoc in Heq.
      apply (plain_split w1 w2) in Heq as [-> Heq]; [|done|done].
      destruct (IH s2 r1 r2 H1 H2) as [-> ->]; [|done].
      unfold written_line. by rewrite <- !app_assoc.
Qed.

Lemma written_line_feeds (sol : Solution) :
  Forall plain sol ->
  length (filter (fun c => c = "010"%char) (written_line sol)) = 1%nat.
Proof.
  intros Hsol. unfold written_line. rewrite filter_app, length_app.
  change (length (filter _ ["010"%char])) with 1%nat.
  assert (Hnone : filter (fun c => c = "010"%char)
                    (concat (map (fun word => word ++ [" "%char]) sol)) = []).
  { induction Hsol as [|w sol Hw _ IH]; [done|]. simpl.
    rewrite !filter_app, IH, app_nil_r.
    change (filter _ [" "%char]) with (@nil ascii). rewrite app_nil_r.
    induction Hw as [|c w [_ Hc] _ IHw]; [done|].
    rewrite filter_cons, decide_False by done. done. }
  by rewrite Hnone.
Qed.

(** X25. For solutions whose words hold no space and no line feed, the
    text [writeSolutionsToFile] writes has one line feed for each solution,
    is the text of the first solutions followed by the text of the others,
    and determines the solutions: two vectors of solutions with the same
    text are equal, so no solution and no word boundary is lost in the
    file. *)
Theorem writeSolutionsToFile_injective (solutions1 solutions2 : list Solution) :
  Forall (Forall plain) solutions1 -> Forall (Forall plain) solutions2 ->
  length (filter (fun c => c = "010"%char) (writeSolutionsToFile solutions1))
  = length solutions1 /\
  writeSolutionsToFile (solutions1 ++ solutions2)
  = writeSolutionsToFile solutions1 ++ writeSolutionsToFile solutions2 /\
  (writeSolutionsToFile solutions1 = writeSolutionsToFile solutions2 ->
   solutions1 = solutions2).
Proof.
  intros H1 H2. rewrite !writeSolutionsToFile_lines. split; [|split].
  - clear H2. induction H1 as [|sol sols Hsol _ IH]; [done|]. simpl.
    rewrite filter_app, length_app, IH, written_line_feeds by done. done.
  - by rewrite map_app, concat_app.
  - revert solutions2 H2. induction H1 as [|sol1 sols1 Hsol1 _ IH];
      intros sols2 H2 Heq.
    + destruct sols2 as [|sol2 sols2]; [done|]. simpl in Heq.
      apply (f_equal length) in Heq. unfold written_line in Heq.
      rewrite !length_app in Heq. simpl in Heq. lia.
    + destruct sols2 as [|sol2 sols2].
      * simpl in Heq. apply (f_equal length) in Heq. unfold written_line in Heq.
        rewrite !length_app in Heq. simpl in Heq. lia.
      * apply Forall_cons in H2 as [Hsol2 H2]. simpl in Heq.
        apply written_line_inj in Heq as [-> Heq]; [|done|done].
        by rewrite (IH sols2 H2 Heq).
Qed.

(** ** The whole of [main] up to the search *)

Lemma getNumWordsFromUser_range lb inputs n :
  getNumWordsFromUser lb inputs = Some n -> 1 <= n < 2 ^ 32.
Proof.
  induction inputs as [|x inputs IH]; [done|]. cbn [getNumWordsFromUser].
  unfold wordCount_rejected, minWords.
  destruct (Z.ltb_spec (to_uint x) 1); [done|].
  destruct (to_uint x >? maxWords lb); [done|]. cbn [orb].
  intros [= <-]. pose proof (to_uint_range x). lia.
Qed.

(** X26. From the prompts to the solutions. When [getLettersFromUser]
    returns the letters of the puzzle [lb], [getNumWordsFromUser] returns
    the count [n] and the lines of the dictionary have at most [2 ^ 31]
    characters, [main] arrives at the end of the search, under every order
    of the threads, with the solutions of the game for [lb] in [n] words
    over the dictionary: each of them once and nothing else. *)
Theorem main_search_exact (sched : list nat) (dict letterLines : list (list ascii))
    (numbers : list Z) (letters : list ascii) (lb : LetterBox) (n : Z) :
  getLettersFromUser letterLines = Some letters ->
  LetterBox_new letters = Done lb ->
  getNumWordsFromUser lb numbers = Some n ->
  (forall word, word ∈ dict -> size word <= 2 ^ 31) ->
  exists sols,
    main_search sched dict letterLines numbers = Some (Done sols) /\
    NoDup sols /\
    forall sol, sol ∈ sols <-> valid_solution lb dict (Z.to_nat n) sol.
Proof.
  intros Hletters Hnew Hn Hshort.
  pose proof (getNumWordsFromUser_range lb numbers n Hn) as Hrange.
  unfold main_search. rewrite Hletters, Hnew, Hn.
  destruct (generateSolutions_exact lb dict _ (buildFilteredWordList_catalog lb dict)
              Hshort sched (Z.to_nat n) []) as (sols & Hrun & Hnd & Hin); [lia|lia|].
  exists sols. by rewrite Hrun.
Qed.

(** ** The further properties at concrete inputs *)


Lemma dict8'_lines : forall word, word ∈ dict8 <-> word ∈ dict8'.
Proof. intros word. unfold dict8, dict8'. set_solver. Defined.

Lemma LetterBox_queries_witness :
  LetterBox_new ABCDEFGH = Done lb8 /\
  forall c,
    (contains lb8 c = true ->
     exists w wall, getWall lb8 c = Done w /\ letterWalls lb8 !! w = Some wall /\ c ∈ wall) /\
    (contains lb8 c = false -> getWall lb8 c = Undefined) /\
    onSameWall lb8 c c = contains lb8 c /\
    (forall d, contains lb8 c = false \/ contains lb8 d = false ->
       onSameWall lb8 c d = false).
Proof.
  split; [exact LetterBox_new_lb8|].
  exact (LetterBox_queries ABCDEFGH lb8 LetterBox_new_lb8).
Defined.

Lemma onSameWall_shared_wall_witness :
  NoDup ABCDEFGH /\ length ABCDEFGH = (4 * 2)%nat /\
  LetterBox_new ABCDEFGH = Done lb8 /\
  (forall a b, onSameWall lb8 a b = true <->
     exists wall, wall ∈ letterWalls lb8 /\ a ∈ wall /\ b ∈ wall) /\
  numLetters lb8 = Z.of_nat (4 * 2).
Proof.
  assert (Hnd : NoDup ABCDEFGH) by compute_done.
  split; [exact Hnd|]. split; [reflexivity|]. split; [exact LetterBox_new_lb8|].
  exact (onSameWall_shared_wall ABCDEFGH 2 lb8 Hnd eq_refl LetterBox_new_lb8).
Defined.

Lemma canMakeWord_app_witness :
  kMinWordLength <= size (str "ACEG") /\ kMinWordLength <= size (str "BDFH") /\
  (canMakeWord lb8 (str "ACEG" ++ str "BDFH") = true <->
   canMakeWord lb8 (str "ACEG") = true /\ canMakeWord lb8 (str "BDFH") = true /\
   (forall a b, last (str "ACEG") = Some a -> head (str "BDFH") = Some b ->
      onSameWall lb8 a b = false)).
Proof.
  assert (H1 : kMinWordLength <= size (str "ACEG")) by (vm_compute; discriminate).
  assert (H2 : kMinWordLength <= size (str "BDFH")) by (vm_compute; discriminate).
  split; [exact H1|]. split; [exact H2|].
  exact (canMakeWord_app lb8 (str "ACEG") (str "BDFH") H1 H2).
Defined.

Lemma canMakeWord_distinct_letters_witness :
  LetterBox_new ABCDEFGH = Done lb8 /\
  canMakeWord lb8 (str "GBDFH") = true /\
  (forall i a b, str "GBDFH" !! i = Some a -> str "GBDFH" !! Datatypes.S i = Some b ->
     a <> b) /\
  2 <= nUniqueLetters (Word_new (str "GBDFH")) <= numLetters lb8.
Proof.
  assert (Hcan : canMakeWord lb8 (str "GBDFH") = true) by (vm_compute; reflexivity).
  split; [exact LetterBox_new_lb8|]. split; [exact Hcan|].
  exact (canMakeWord_distinct_letters ABCDEFGH lb8 (str "GBDFH") LetterBox_new_lb8 Hcan).
Defined.

Lemma Word_at_bounds_witness :
  INT_MIN <= 4 <= INT_MAX /\
  (0 <= 4 < Word_size (Word_new (str "GBDFH")) ->
   exists c, content (Word_new (str "GBDFH")) !! Z.to_nat 4 = Some c /\
             Word_at (Word_new (str "GBDFH")) 4 = Done c) /\
  (4 < 0 \/ Word_size (Word_new (str "GBDFH")) <= 4 ->
   Word_at (Word_new (str "GBDFH")) 4 = Exited).
Proof.
  assert (Hint : INT_MIN <= 4 <= INT_MAX) by (vm_compute; split; discriminate).
  split; [exact Hint|].
  exact (Word_at_bounds (Word_new (str "GBDFH")) 4 Hint).
Defined.

Lemma buildFilteredWordList_again_witness :
  (forall word, word ∈ dict8' -> word ∈ dict8) /\
  buildFilteredWordList dict8' lb8 (buildFilteredWordList dict8 lb8 ∅)
  = buildFilteredWordList dict8 lb8 ∅.
Proof.
  assert (Hsub : forall word, word ∈ dict8' -> word ∈ dict8)
    by (intros word; apply dict8'_lines).
  split; [exact Hsub|].
  exact (buildFilteredWordList_again dict8 dict8' lb8 Hsub).
Defined.

Lemma buildFilteredWordList_same_lines_witness :
  (forall word, word ∈ dict8 <-> word ∈ dict8') /\
  forall c, bucket (buildFilteredWordList dict8 lb8 ∅) c
            ≡ₚ bucket (buildFilteredWordList dict8' lb8 ∅) c.
Proof.
  split; [exact dict8'_lines|].
  exact (buildFilteredWordList_same_lines dict8 dict8' lb8 dict8'_lines).
Defined.

Lemma generateSolutions_complete_witness :
  (forall word, word ∈ dict8 -> size word <= 2 ^ 31) /\
  (1 <= 2)%nat /\ Z.of_nat 2 < 2 ^ 32 /\
  exists appended,
    generateSolutions [] lb8 2 (buildFilteredWordList dict8 lb8 ∅) []
    = Done ([] ++ appended) /\
    NoDup appended /\
    forall sol, sol ∈ appended <-> valid_solution lb8 dict8 2 sol.
Proof.
  assert (Hn : (1 <= 2)%nat) by lia.
  split; [exact dict8_short|]. split; [exact Hn|]. split; [reflexivity|].
  exact (generateSolutions_complete [] lb8 dict8 2 [] dict8_short Hn eq_refl).
Defined.

Lemma generateSolutions_same_lines_witness :
  (forall word, word ∈ dict8 -> size word <= 2 ^ 31) /\
  (forall word, word ∈ dict8 <-> word ∈ dict8') /\
  (1 <= 2)%nat /\ Z.of_nat 2 < 2 ^ 32 /\
  exists sols sols',
    generateSolutions [] lb8 2 (buildFilteredWordList dict8 lb8 ∅) [] = Done sols /\
    generateSolutions [1; 0]%nat lb8 2 (buildFilteredWordList dict8' lb8 ∅) []
    = Done sols' /\
    sols ≡ₚ sols'.
Proof.
  assert (Hn : (1 <= 2)%nat) by lia.
  split; [exact dict8_short|]. split; [exact dict8'_lines|].
  split; [exact Hn|]. split; [reflexivity|].
  exact (generateSolutions_same_lines [] [1; 0]%nat lb8 dict8 dict8' 2
           dict8_short dict8'_lines Hn eq_refl).
Defined.

Lemma generateSolutionsRec_frame_witness :
  fits [str "ACEG"] 1 [str "ACEG"; []] /\
  generateSolutionsRec lb8 1 "G" (list_to_set (str "BDFH")) [str "ACEG"; []]
    [[str "AB"]] (buildFilteredWordList dict8 lb8 ∅)
  = Done ([str "ACEG"; str "GBDFH"], [[str "AB"]; [str "ACEG"; str "GBDFH"]]) /\
  fits [str "ACEG"] 1 [str "ACEG"; str "GBDFH"] /\
  [[str "AB"]] `prefix_of` [[str "AB"]; [str "ACEG"; str "GBDFH"]] /\
  Forall (fun sol => [str "ACEG"] `prefix_of` sol /\
                     length sol = length [str "ACEG"; @nil ascii])
    (drop (length [[str "AB"]]) [[str "AB"]; [str "ACEG"; str "GBDFH"]]).
Proof.
  assert (Hfits : fits [str "ACEG"] 1 [str "ACEG"; []]).
  { split; [reflexivity|]. split; [reflexivity|]. vm_compute. reflexivity. }
  assert (Hrun : generateSolutionsRec lb8 1 "G" (list_to_set (str "BDFH"))
                   [str "ACEG"; []] [[str "AB"]] (buildFilteredWordList dict8 lb8 ∅)
                 = Done ([str "ACEG"; str "GBDFH"],
                         [[str "AB"]; [str "ACEG"; str "GBDFH"]]))
    by (vm_compute; reflexivity).
  split; [exact Hfits|]. split; [exact Hrun|].
  exact (generateSolutionsRec_frame lb8 (buildFilteredWordList dict8 lb8 ∅) 1 "G"
           (list_to_set (str "BDFH")) [str "ACEG"] [str "ACEG"; []] [[str "AB"]]
           [str "ACEG"; str "GBDFH"] [[str "AB"]; [str "ACEG"; str "GBDFH"]]
           Hfits Hrun).
Defined.

Lemma getNumWordsFromUser_small_puzzle_witness :
  numLetters (four_walls [] [] [] []) < kMinWordLength /\
  maxWords (four_walls [] [] [] []) = 0 /\
  (forall n, wordCount_rejected (four_walls [] [] [] []) n = true) /\
  (forall inputs, getNumWordsFromUser (four_walls [] [] [] []) inputs = None) /\
  (forall sched dict letterLines numbers letters,
     getLettersFromUser letterLines = Some letters ->
     LetterBox_new letters = Done (four_walls [] [] [] []) ->
     main_search sched dict letterLines numbers = None).
Proof.
  assert (Hsmall : numLetters (four_walls [] [] [] []) < kMinWordLength)
    by (vm_compute; reflexivity).
  split; [exact Hsmall|].
  exact (getNumWordsFromUser_small_puzzle (four_walls [] [] [] []) Hsmall).
Defined.

Lemma dictionary_not_opened_witness :
  getDictionaryNameFromUser no_files [str "words.txt"; []] = Some DEFAULT_DICT /\
  no_files DEFAULT_DICT = None /\
  DEFAULT_DICT = DEFAULT_DICT /\
  (forall tbl, buildFilteredWordList_file no_files DEFAULT_DICT lb8 tbl = tbl) /\
  (forall sched nWords solutions,
     generateSolutions sched lb8 nWords
       (buildFilteredWordList_file no_files DEFAULT_DICT lb8 ∅) solutions
     = Done solutions).
Proof.
  assert (Hname : getDictionaryNameFromUser no_files [str "words.txt"; []]
                  = Some DEFAULT_DICT) by (vm_compute; reflexivity).
  split; [exact Hname|]. split; [reflexivity|].
  exact (dictionary_not_opened no_files [str "words.txt"; []] DEFAULT_DICT lb8
           Hname eq_refl).
Defined.

Lemma writeSolutionsToFile_injective_witness :
  Forall (Forall plain) [[str "ACEG"; str "GBDFH"]] /\
  Forall (Forall plain) [[str "ACEGB"; str "BDFH"]] /\
  length (filter (fun c => c = "010"%char)
            (writeSolutionsToFile [[str "ACEG"; str "GBDFH"]]))
  = length [[str "ACEG"; str "GBDFH"]] /\
  writeSolutionsToFile ([[str "ACEG"; str "GBDFH"]] ++ [[str "ACEGB"; str "BDFH"]])
  = writeSolutionsToFile [[str "ACEG"; str "GBDFH"]]
    ++ writeSolutionsToFile [[str "ACEGB"; str "BDFH"]] /\
  (writeSolutionsToFile [[str "ACEG"; str "GBDFH"]]
   = writeSolutionsToFile [[str "ACEGB"; str "BDFH"]] ->
   [[str "ACEG"; str "GBDFH"]] = [[str "ACEGB"; str "BDFH"]]).
Proof.
  assert (H1 : Forall (Forall plain) [[str "ACEG"; str "GBDFH"]])
    by (repeat (constructor; try done)).
  assert (H2 : Forall (Forall plain) [[str "ACEGB"; str "BDFH"]])
    by (repeat (constructor; try done)).
  split; [exact H1|]. split; [exact H2|].
  exact (writeSolutionsToFile_injective _ _ H1 H2).
Defined.

Lemma main_search_exact_witness :
  getLettersFromUser [str "abc"; str "abcdEFGH"] = Some ABCDEFGH /\
  LetterBox_new ABCDEFGH = Done lb8 /\
  getNumWordsFromUser lb8 [0; 3; 2] = Some 2 /\
  (forall word, word ∈ dict8 -> size word <= 2 ^ 31) /\
  exists sols,
    main_search [] dict8 [str "abc"; str "abcdEFGH"] [0; 3; 2] = Some (Done sols) /\
    NoDup sols /\
    forall sol, sol ∈ sols <-> valid_solution lb8 dict8 (Z.to_nat 2) sol.
Proof.
  assert (Hletters : getLettersFromUser [str "abc"; str "abcdEFGH"] = Some ABCDEFGH)
    by (vm_compute; reflexivity).
  assert (Hn : getNumWordsFromUser lb8 [0; 3; 2] = Some 2) by (vm_compute; reflexivity).
  split; [exact Hletters|]. split; [exact LetterBox_new_lb8|]. split; [exact Hn|].
  split; [exact dict8_short|].
  exact (main_search_exact [] dict8 [str "abc"; str "abcdEFGH"] [0; 3; 2] ABCDEFGH lb8 2
           Hletters LetterBox_new_lb8 Hn dict8_short).
Defined.
